(** * The result cache of the satellite-imagery service

    A shallow embedding of [gee_app/utils/cache_utils.py]: key derivation
    ([_generate_cache_key], [sort_dict_recursive]), the Redis-backed entry
    store ([get_cached_data_by_key], [store_data_with_key],
    [increment_request_count], ...), the connection singleton
    ([get_redis_client]) and the file cache sweep ([clean_expired_files]).

    Python values are an inductive type, dictionaries are association
    lists in insertion order, the Redis keyspace is a [gmap], exceptions are
    an explicit result type and module-level globals live in a state record
    threaded through a small state-and-exception monad. *)

From Stdlib Require Import ZArith NArith Ascii String DecimalString.
From stdpp Require Import base gmap strings list sorting.

Set Warnings "-register-all".

Local Open Scope N_scope.

(** ** SHA-256 ([hashlib.sha256]) on 32-bit words carried in [N] *)
Module SHA256.

Definition mask32 : N := 0xFFFFFFFF.
Definition w32 (x : N) : N := N.land x mask32.
Definition add32 (a b : N) : N := w32 (a + b).
Definition not32 (x : N) : N := N.lxor x mask32.
Definition rotr (n x : N) : N := N.lor (N.shiftr x n) (w32 (N.shiftl x (32 - n))).
Definition shr (n x : N) : N := N.shiftr x n.

Definition Ch (x y z : N) : N := N.lxor (N.land x y) (N.land (not32 x) z).
Definition Maj (x y z : N) : N :=
  N.lxor (N.lxor (N.land x y) (N.land x z)) (N.land y z).
Definition Sigma0 (x : N) : N := N.lxor (N.lxor (rotr 2 x) (rotr 13 x)) (rotr 22 x).
Definition Sigma1 (x : N) : N := N.lxor (N.lxor (rotr 6 x) (rotr 11 x)) (rotr 25 x).
Definition sigma0 (x : N) : N := N.lxor (N.lxor (rotr 7 x) (rotr 18 x)) (shr 3 x).
Definition sigma1 (x : N) : N := N.lxor (N.lxor (rotr 17 x) (rotr 19 x)) (shr 10 x).

(** The round constants and the initial hash value are the first 32 bits
    of the fractional parts of the cube roots of the first 64 primes, and
    of the square roots of the first 8. *)
Definition is_prime (n : N) : bool :=
  forallb (fun d => negb (n mod N.of_nat d =? 0)) (seq 2 (N.to_nat n - 2)).

Definition primes (count : nat) : list N :=
  take count (filter (fun n => is_prime n = true) (N.of_nat <$> seq 2 400)).

(** The integer cube root, found bit by bit from the top. *)
Definition cube_root (x : N) : N :=
  fold_left (fun r b => let r' := r + N.shiftl 1 (N.of_nat b) in
                        if r' * r' * r' <=? x then r' else r)
            (rev (seq 0 48)) 0.

Definition K : list N :=
  Eval vm_compute in (fun p => w32 (cube_root (N.shiftl p 96))) <$> primes 64.

Definition H0 : list N :=
  Eval vm_compute in (fun p => w32 (N.sqrt (N.shiftl p 64))) <$> primes 8.

(** Big-endian bytes of a [k]-byte number, most significant first. *)
Fixpoint be_bytes (k : nat) (x : N) : list N :=
  match k with
  | O => []
  | S k' => N.land (N.shiftr x (8 * N.of_nat k')) 0xFF :: be_bytes k' x
  end.

Definition be_word (bs : list N) : N :=
  fold_left (fun acc b => N.lor (N.shiftl acc 8) b) bs 0.

(** Message padding: a 1 bit, zeros up to 56 mod 64, the bit length on 64 bits. *)
Definition pad (msg : list N) : list N :=
  let len := N.of_nat (length msg) in
  let zeros := N.to_nat ((119 - len mod 64) mod 64) in
  msg ++ [0x80] ++ replicate zeros 0 ++ be_bytes 8 (8 * len).

Fixpoint chunks (fuel n : nat) (l : list N) : list (list N) :=
  match fuel with
  | O => []
  | S fuel' =>
      match l with
      | [] => []
      | _ => take n l :: chunks fuel' n (drop n l)
      end
  end.

(** The message schedule: 16 words of the block, extended to 64. *)
Fixpoint extend (k : nat) (w : list N) : list N :=
  match k with
  | O => w
  | S k' =>
      let t := length w in
      let at_ i := nth (t - i) w 0 in
      extend k' (w ++ [add32 (add32 (sigma1 (at_ 2%nat)) (at_ 7%nat))
                              (add32 (sigma0 (at_ 15%nat)) (at_ 16%nat))])
  end.

Definition schedule (block : list N) : list N :=
  extend 48 (be_word <$> chunks 16 4 block).

Record regs := Regs { ra : N; rb : N; rc : N; rd : N; re : N; rf : N; rg : N; rh : N }.

Definition round (s : regs) (kw : N * N) : regs :=
  let '(k, w) := kw in
  let t1 := add32 (add32 (add32 (rh s) (Sigma1 (re s))) (add32 (Ch (re s) (rf s) (rg s)) k)) w in
  let t2 := add32 (Sigma0 (ra s)) (Maj (ra s) (rb s) (rc s)) in
  Regs (add32 t1 t2) (ra s) (rb s) (rc s) (add32 (rd s) t1) (re s) (rf s) (rg s).

Definition regs_of (h : list N) : regs :=
  Regs (nth 0 h 0) (nth 1 h 0) (nth 2 h 0) (nth 3 h 0)
       (nth 4 h 0) (nth 5 h 0) (nth 6 h 0) (nth 7 h 0).

Definition regs_list (s : regs) : list N :=
  [ra s; rb s; rc s; rd s; re s; rf s; rg s; rh s].

Definition compress (h : list N) (block : list N) : list N :=
  let s := fold_left round (zip K (schedule block)) (regs_of h) in
  zip_with add32 h (regs_list s).

Definition digest (msg : list N) : list N :=
  let p := pad msg in
  fold_left compress (chunks (length p) 64 p) H0 ≫= be_bytes 4.

Definition hex_digit (d : N) : ascii :=
  ascii_of_N (if d <? 10 then 48 + d else 87 + d).

Definition hex_byte (b : N) : string :=
  String (hex_digit (N.shiftr b 4)) (String (hex_digit (N.land b 0xF)) EmptyString).

(** [hashlib.sha256(bytes).hexdigest()] *)
Definition hexdigest (msg : list N) : string :=
  fold_right (fun b acc => hex_byte b +:+ acc) EmptyString (digest msg).

End SHA256.

Definition bytes_of_ascii_string (s : string) : list N :=
  N_of_ascii <$> list_ascii_of_string s.

Local Open Scope Z_scope.

(** ** Exceptions and results *)

Inductive exn :=
| ValueError            (* also the missing REDIS_URL *)
| TypeError
| AttributeError
| JSONDecodeError       (* a subclass of ValueError *)
| OSError
| ConnectionError       (* the builtin, raised by get_redis_client *)
| RedisConnectionError  (* redis.exceptions.ConnectionError *)
| RedisError.           (* any other redis.exceptions error: timeout, response error *)

Inductive outcome (A : Type) :=
| Ok (a : A)
| Raise (e : exn).
Arguments Ok {A} a.
Arguments Raise {A} e.

Global Instance outcome_ret : MRet outcome := @Ok.
Global Instance outcome_bind : MBind outcome := fun A B f m =>
  match m with Ok a => f a | Raise e => Raise e end.
Global Instance outcome_fmap : FMap outcome := fun A B f m =>
  match m with Ok a => Ok (f a) | Raise e => Raise e end.

(** ** Python values

    Strings are sequences of code points below 256.  A float is carried as
    the text [repr] gives for it, which is how [json.dumps] writes it.
    [PObject] is any object the json module cannot encode (a set, bytes, a
    numpy array), carried as the text [str] gives for it.  A dictionary is
    the list of its items in insertion order; Python keeps its keys
    distinct ([unique_keys]). *)

Inductive value :=
| PNone
| PBool (b : bool)
| PInt (n : Z)
| PFloat (repr : string)
| PStr (s : string)
| PList (l : list value)
| PDict (d : list (string * value))
| PObject (repr : string).

Abbreviation dict := (list (string * value)).

Section value_induction.
Variable P : value -> Prop.
Hypothesis HNone : P PNone.
Hypothesis HBool : forall b, P (PBool b).
Hypothesis HInt : forall n, P (PInt n).
Hypothesis HFloat : forall r, P (PFloat r).
Hypothesis HStr : forall s, P (PStr s).
Hypothesis HList : forall l, Forall P l -> P (PList l).
Hypothesis HDict : forall d, Forall (fun kv => P kv.2) d -> P (PDict d).
Hypothesis HObject : forall r, P (PObject r).

Fixpoint value_nested_ind (v : value) : P v :=
    match v with
    | PNone => HNone
    | PBool b => HBool b
    | PInt n => HInt n
    | PFloat r => HFloat r
    | PStr s => HStr s
    | PList l =>
        HList l ((fix go l : Forall P l :=
                    match l with
                    | [] => Forall_nil_2 P
                    | x :: l' => Forall_cons_2 P x l' (value_nested_ind x) (go l')
                    end) l)
    | PDict d =>
        HDict d ((fix go d : Forall (fun kv => P kv.2) d :=
                    match d with
                    | [] => Forall_nil_2 _
                    | kv :: d' =>
                        Forall_cons_2 (fun kv => P kv.2) kv d'
                          (value_nested_ind kv.2) (go d')
                    end) d)
    | PObject r => HObject r
    end.
End value_induction.

(** Dictionary operations on the item list. *)
Fixpoint dict_get (k : string) (d : dict) : option value :=
  match d with
  | [] => None
  | (k', v) :: d' => if decide (k' = k) then Some v else dict_get k d'
  end.

(** [d[k] = v]: replaces the value in place, or appends a new item. *)
Fixpoint dict_set (k : string) (v : value) (d : dict) : dict :=
  match d with
  | [] => [(k, v)]
  | (k', v') :: d' => if decide (k' = k) then (k, v) :: d' else (k', v') :: dict_set k v d'
  end.

Fixpoint unique_keys (v : value) : bool :=
  match v with
  | PList l => forallb unique_keys l
  | PDict d => bool_decide (NoDup d.*1) && forallb (fun kv => unique_keys kv.2) d
  | _ => true
  end.

Definition is_dict (v : value) : bool :=
  match v with PDict _ => true | _ => false end.

(** ** [json.dumps] *)

Definition dquote : ascii := "034"%char.
Definition backslash : ascii := "092"%char.

Definition str1 (c : ascii) : string := String c EmptyString.

Definition hex4 (n : N) : string :=
  String (SHA256.hex_digit (N.shiftr n 12))
    (String (SHA256.hex_digit (N.land (N.shiftr n 8) 0xF)) (SHA256.hex_byte (N.land n 0xFF))).

(** One character of a JSON string with [ensure_ascii=True]. *)
Definition escape_char (c : ascii) : string :=
  let n := N_of_ascii c in
  if decide (c = dquote) then String backslash (str1 dquote)
  else if decide (c = backslash) then String backslash (str1 backslash)
  else if decide (n = 10%N) then String backslash "n"
  else if decide (n = 13%N) then String backslash "r"
  else if decide (n = 9%N) then String backslash "t"
  else if decide (n = 8%N) then String backslash "b"
  else if decide (n = 12%N) then String backslash "f"
  else if decide (32 <= n <= 126)%N then str1 c
  else String backslash ("u" +:+ hex4 n).

Fixpoint escape (s : string) : string :=
  match s with
  | EmptyString => EmptyString
  | String c s' => escape_char c +:+ escape s'
  end.

Definition json_string (s : string) : string :=
  String dquote (escape s +:+ str1 dquote).

(** [str(n)] for an int. *)
Definition str_int (n : Z) : string := NilZero.string_of_int (Z.to_int n).

Fixpoint join (sep : string) (l : list string) : string :=
  match l with
  | [] => EmptyString
  | [s] => s
  | s :: l' => s +:+ sep +:+ join sep l'
  end.

(** Dictionary items are ordered by key; Python compares strings by code
    point, as [String.leb] does. *)
Definition key_le {A} (x y : string * A) : Prop := String.le x.1 y.1.

Global Instance key_le_dec {A} : RelDecision (@key_le A).
Proof. intros x y. unfold key_le. apply _. Defined.

Definition sorted {A} (items : list (string * A)) : list (string * A) :=
  merge_sort key_le items.

(** [json.dumps(v, sort_keys=sort_keys)] with the default separators.
    The values of a dictionary are encoded item by item and the encoded
    items ordered by key when [sort_keys] is set; an object json cannot
    encode raises [TypeError]. *)
Fixpoint json_dumps (sort_keys : bool) (v : value) : outcome string :=
  match v with
  | PNone => Ok "null"
  | PBool true => Ok "true"
  | PBool false => Ok "false"
  | PInt n => Ok (str_int n)
  | PFloat r => Ok r
  | PStr s => Ok (json_string s)
  | PList l =>
      elems ← mapM (json_dumps sort_keys) l;
      Ok ("[" +:+ join ", " elems +:+ "]")
  | PDict d =>
      items ← mapM (fun kv => s ← json_dumps sort_keys kv.2; Ok (kv.1, s)) d;
      let items := if sort_keys then sorted items else items in
      Ok ("{" +:+ join ", " ((fun ks => json_string ks.1 +:+ ": " +:+ ks.2) <$> items) +:+ "}")
  | PObject _ => Raise TypeError
  end.

(** [str(v)] of a scalar or foreign object, used as the fallback serialization. *)
Definition py_str (v : value) : string :=
  match v with
  | PNone => "None"
  | PBool true => "True"
  | PBool false => "False"
  | PInt n => str_int n
  | PFloat r => r
  | PStr s => s
  | PObject r => r
  | PList _ | PDict _ => ""   (* not needed: containers never reach the fallback *)
  end.

(** [s.encode('utf-8')] for code points below 256. *)
Definition encode_utf8 (s : string) : list N :=
  list_ascii_of_string s ≫= fun c =>
    let n := N_of_ascii c in
    if (n <? 128)%N then [n]
    else [N.lor 0xC0 (N.shiftr n 6); N.lor 0x80 (N.land n 0x3F)].

(** ** Key derivation *)

(** [sort_dict_recursive]: items in key order at every level of nesting.
    (The recursion is written on the items before they are ordered;
    [sort_dict_recursive_dict] below gives the equation in the order of
    the source.) *)
Fixpoint sort_dict_recursive (obj : value) : value :=
  match obj with
  | PDict d => PDict (sorted ((fun kv => (kv.1, sort_dict_recursive kv.2)) <$> d))
  | PList l => PList (sort_dict_recursive <$> l)
  | _ => obj
  end.

Definition _generate_cache_key (data : value) : outcome string :=
  serialized ←
    match data with
    | PDict _ => json_dumps true (sort_dict_recursive data)
    | PList l => json_dumps (existsb is_dict l) data
    | PStr s => Ok s
    | _ =>
        match json_dumps false data with
        | Ok s => Ok s
        | Raise TypeError | Raise ValueError | Raise JSONDecodeError => Ok (py_str data)
        | Raise e => Raise e
        end
    end;
  Ok ("cache:" +:+ SHA256.hexdigest (encode_utf8 serialized)).

Definition d_ab : value := PDict [("a", PInt 1); ("b", PInt 2)].
Definition d_ba : value := PDict [("b", PInt 2); ("a", PInt 1)].
Definition d_c : value := PDict [("c", PInt 3)].


(** Two values have the same content when they agree up to the insertion
    order of dictionary items, at every level of nesting: sequences agree
    position by position, dictionaries bind the same keys to values with
    the same content. *)
Definition is_atom (v : value) : bool :=
  match v with PList _ | PDict _ => false | _ => true end.

Inductive same_content : value -> value -> Prop :=
| sc_atom v : is_atom v = true -> same_content v v
| sc_list l1 l2 :
    Forall2 same_content l1 l2 -> same_content (PList l1) (PList l2)
| sc_dict d1 d2 :
    (forall k, option_Forall2 same_content (dict_get k d1) (dict_get k d2)) ->
    same_content (PDict d1) (PDict d2).

(** ** The Redis server and the process state *)

(** Text held under a key.  [Encoded v] is the document [json.dumps]
    writes for [v], which [json.loads] reads back as [v]; [Garbage s] is
    any other text, which [json.loads] rejects. *)
Inductive text :=
| Encoded (v : value)
| Garbage (s : string).

Definition json_dumps_text (v : value) : outcome text :=
  _ ← json_dumps false v; Ok (Encoded v).

Definition json_loads (t : text) : outcome value :=
  match t with
  | Encoded v => Ok v
  | Garbage _ => Raise JSONDecodeError
  end.

(** Truth value of a reply of the client (a [str], with decode_responses). *)
Definition text_truthy (t : text) : bool :=
  match t with
  | Encoded _ => true
  | Garbage s => if decide (s = EmptyString) then false else true
  end.

(** A key holds a text and, unless it is persistent, the time (in whole
    seconds of the server clock) at which it expires. *)
Record entry := Entry { ent_text : text; ent_expire : option Z }.

Abbreviation keyspace := (gmap string entry).

Definition live (now : Z) (e : entry) : bool :=
  match ent_expire e with
  | None => true
  | Some t => bool_decide (now < t)
  end.

Definition lookup_live (now : Z) (db : keyspace) (k : string) : option entry :=
  match db !! k with
  | Some e => if live now e then Some e else None
  | None => None
  end.

(** GET *)
Definition redis_get (now : Z) (db : keyspace) (k : string) : option text :=
  ent_text <$> lookup_live now db k.

(** TTL: -2 for a missing key, -1 for a persistent one. *)
Definition redis_ttl (now : Z) (db : keyspace) (k : string) : Z :=
  match lookup_live now db k with
  | None => -2
  | Some e => match ent_expire e with None => -1 | Some t => t - now end
  end.

(** EXPIRE: a timeout that is not positive deletes the key. *)
Definition redis_expire (now : Z) (db : keyspace) (k : string) (secs : Z) : keyspace :=
  match lookup_live now db k with
  | None => db
  | Some e =>
      if bool_decide (0 < secs) then <[k := Entry (ent_text e) (Some (now + secs))]> db
      else delete k db
  end.

(** SETEX: the server refuses a timeout that is not positive. *)
Definition redis_setex (now : Z) (db : keyspace) (k : string) (secs : Z) (t : text)
  : outcome keyspace :=
  if bool_decide (0 < secs) then Ok (<[k := Entry t (Some (now + secs))]> db)
  else Raise RedisError.

(** [CacheConfig] *)
Record CacheConfig := {
  enabled : bool;
  expiration : Z;
  compression_level : Z;
}.

(** [CacheConfig.disable], [enable] and [set_expiration] *)
Definition CacheConfig_disable (c : CacheConfig) : CacheConfig :=
  {| enabled := false; expiration := expiration c;
     compression_level := compression_level c |}.
Definition CacheConfig_enable (c : CacheConfig) : CacheConfig :=
  {| enabled := true; expiration := expiration c;
     compression_level := compression_level c |}.
Definition CacheConfig_set_expiration (seconds : Z) (c : CacheConfig) : CacheConfig :=
  {| enabled := enabled c; expiration := seconds;
     compression_level := compression_level c |}.

(** The process and what it talks to: the module globals [REDIS_URL],
    [redis_client] and [cache_config], the clock, the keyspace of the
    server, the fate of the coming round trips to the server ([None]: the
    command goes through, [Some e]: the client raises [e]; past the end of
    the list every command goes through), and the [time.sleep] calls made
    so far. *)
Record world := World {
  REDIS_URL : option string;
  redis_client : option string;
  cache_config : CacheConfig;
  clock : Z;
  db : keyspace;
  net : list (option exn);
  slept : list Z;
}.

Definition set_redis_client (c : option string) (w : world) : world :=
  World (REDIS_URL w) c (cache_config w) (clock w) (db w) (net w) (slept w).
Definition set_cache_config (c : CacheConfig) (w : world) : world :=
  World (REDIS_URL w) (redis_client w) c (clock w) (db w) (net w) (slept w).
Definition set_clock (t : Z) (w : world) : world :=
  World (REDIS_URL w) (redis_client w) (cache_config w) t (db w) (net w) (slept w).
Definition set_db (d : keyspace) (w : world) : world :=
  World (REDIS_URL w) (redis_client w) (cache_config w) (clock w) d (net w) (slept w).
Definition set_net (n : list (option exn)) (w : world) : world :=
  World (REDIS_URL w) (redis_client w) (cache_config w) (clock w) (db w) n (slept w).
Definition set_slept (s : list Z) (w : world) : world :=
  World (REDIS_URL w) (redis_client w) (cache_config w) (clock w) (db w) (net w) s.

(** [cache_config.enable()] on the global instance. *)
Definition enable_cache (w : world) : world :=
  set_cache_config (CacheConfig_enable (cache_config w)) w.

(** ** State and exceptions *)

Definition M (A : Type) : Type := world -> outcome A * world.

Definition ret {A} (a : A) : M A := fun w => (Ok a, w).
Definition raise {A} (e : exn) : M A := fun w => (Raise e, w).
Definition bind {A B} (m : M A) (f : A -> M B) : M B := fun w =>
  match m w with
  | (Ok a, w') => f a w'
  | (Raise e, w') => (Raise e, w')
  end.
Definition lift {A} (o : outcome A) : M A := fun w => (o, w).
Definition gets {A} (f : world -> A) : M A := fun w => (Ok (f w), w).
Definition modify (f : world -> world) : M unit := fun w => (Ok tt, f w).

(** [try: m except e: h e] *)
Definition catch {A} (m : M A) (h : exn -> M A) : M A := fun w =>
  match m w with
  | (Ok a, w') => (Ok a, w')
  | (Raise e, w') => h e w'
  end.

Declare Scope cache_scope.
Delimit Scope cache_scope with cache.
Notation "x <- m ;; k" := (bind m (fun x => k))
  (at level 100, m at next level, right associativity) : cache_scope.
Notation "m ;; k" := (bind m (fun _ => k))
  (at level 100, right associativity) : cache_scope.
Local Open Scope cache_scope.

(** One round trip to the server. *)
Definition round_trip : M unit := fun w =>
  match net w with
  | [] => (Ok tt, w)
  | None :: n => (Ok tt, set_net n w)
  | Some e :: n => (Raise e, set_net n w)
  end.

Definition client_ping : M unit := round_trip.

Definition client_get (k : string) : M (option text) :=
  round_trip;; gets (fun w => redis_get (clock w) (db w) k).

Definition client_ttl (k : string) : M Z :=
  round_trip;; gets (fun w => redis_ttl (clock w) (db w) k).

Definition client_expire (k : string) (secs : Z) : M unit :=
  round_trip;; modify (fun w => set_db (redis_expire (clock w) (db w) k secs) w).

Definition client_setex (k : string) (secs : Z) (t : text) : M unit :=
  round_trip;;
  w <- gets id;;
  d <- lift (redis_setex (clock w) (db w) k secs t);;
  modify (set_db d).

(** [time.sleep] *)
Definition sleep (secs : Z) : M unit :=
  modify (fun w => set_slept (slept w ++ [secs]) (set_clock (clock w + secs) w)).

(** [time.time()], as the float it returns. *)
Definition time_time : M value :=
  gets (fun w => PFloat (str_int (clock w) +:+ ".0")).

(** ** The connection singleton *)

Definition max_retries : Z := 3.
Definition retry_delay : Z := 1.

(** [redis.from_url] creates the client without connecting; it rejects a
    URL whose scheme it does not know. *)
Definition from_url (url : string) : outcome string :=
  if String.prefix "redis://" url || String.prefix "rediss://" url
     || String.prefix "unix://" url
  then Ok url else Raise ValueError.

(** The attempts of the retry loop, [attempts] being what is left of
    [range(max_retries)]. *)
Fixpoint connect (url : string) (attempts : list Z) : M (option string) :=
  match attempts with
  | [] => gets redis_client
  | attempt :: rest =>
      catch
        (c <- lift (from_url url);;
         modify (set_redis_client (Some c));;
         client_ping;;
         ret (Some c))
        (fun e =>
           match e with
           | RedisConnectionError =>
               if bool_decide (attempt < max_retries - 1) then
                 sleep (retry_delay * 2 ^ attempt);;
                 connect url rest
               else
                 modify (set_redis_client None);;
                 raise ConnectionError
           | _ =>
               modify (set_redis_client None);;
               raise ConnectionError
           end)
  end.

Definition get_redis_client : M (option string) :=
  c <- gets redis_client;;
  match c with
  | Some _ => ret c
  | None =>
      url <- gets REDIS_URL;;
      match url with
      | None | Some EmptyString => raise ValueError
      | Some u => connect u (seqZ 0 max_retries)
      end
  end.

(** ** The entry store *)

Definition is_none {A} (o : option A) : bool :=
  match o with None => true | Some _ => false end.

Section entry_store.

  (** [x + n] on the float whose [repr] is given; what IEEE arithmetic
      makes of it is left open. *)
Variable float_add : string -> Z -> string.

  (** [d.get(k, default)]: only a dictionary has the method. *)
Definition py_get (d : value) (k : string) (fallback : value) : outcome value :=
    match d with
    | PDict items => Ok (default fallback (dict_get k items))
    | _ => Raise AttributeError
    end.

  (** [x + n] for an int [n]. *)
Definition py_add (x : value) (n : Z) : outcome value :=
    match x with
    | PInt m => Ok (PInt (m + n))
    | PBool b => Ok (PInt (Z.b2z b + n))
    | PFloat r => Ok (PFloat (float_add r n))
    | _ => Raise TypeError
    end.

  (** [d[k] = v] *)
Definition py_setitem (d : value) (k : string) (v : value) : outcome value :=
    match d with
    | PDict items => Ok (PDict (dict_set k v items))
    | _ => Raise TypeError
    end.

  (** The body of the [try] of [increment_request_count]. *)
Definition increment_request_count_try (cache_key : string) : M value :=
    client <- get_redis_client;;
    if is_none client then ret PNone else
    (* the pipeline holds the one GET *)
    current_data <- client_get cache_key;;
    match current_data with
    | None => ret PNone
    | Some current =>
        if negb (text_truthy current) then ret PNone else
        catch
          (data_dict <- lift (json_loads current);;
           current_count <- lift (py_get data_dict "request_count" (PInt 0));;
           new_count <- lift (py_add current_count 1);;
           data_dict <- lift (py_setitem data_dict "request_count" new_count);;
           ttl <- client_ttl cache_key;;
           (if bool_decide (0 < ttl) then
              cfg <- gets cache_config;;
              let new_ttl := Z.max ttl (expiration cfg) in
              client_expire cache_key new_ttl;;
              serialized <- lift (json_dumps_text data_dict);;
              client_setex cache_key ttl serialized
            else ret tt);;
           ret new_count)
          (fun e =>
             match e with
             | JSONDecodeError => ret PNone
             | _ => raise e
             end)
    end.

Definition increment_request_count (cache_key : string) : M value :=
    catch (increment_request_count_try cache_key)
      (fun e =>
         match e with
         | RedisConnectionError => ret PNone
         | _ => ret PNone
         end).

  (** The body of the [try] of [get_cached_data_by_key]. *)
Definition get_cached_data_by_key_try (cache_key : string) : M value :=
    client <- get_redis_client;;
    if is_none client then ret PNone else
    cached_result <- client_get cache_key;;
    match cached_result with
    | None => ret PNone
    | Some cached =>
        if negb (text_truthy cached) then ret PNone else
        catch
          (data <- lift (json_loads cached);;
           increment_request_count cache_key;;
           ret data)
          (fun e =>
             match e with
             | JSONDecodeError => ret PNone
             | _ => raise e
             end)
    end.

Definition get_cached_data_by_key (cache_key : string) : M value :=
    cfg <- gets cache_config;;
    if negb (enabled cfg) then ret PNone else
    catch (get_cached_data_by_key_try cache_key)
      (fun e =>
         match e with
         | RedisConnectionError => ret PNone
         | _ => ret PNone
         end).

Definition get_cached_data (cache_params : dict) (analysis_type : string) : M value :=
    cfg <- gets cache_config;;
    if negb (enabled cfg) then ret PNone else
    let params_with_type := cache_params in
    cache_key <- lift (_generate_cache_key (PDict params_with_type));;
    get_cached_data_by_key cache_key.

  (** The body of the [try] of [store_data_with_key]. *)
Definition store_data_with_key_try
      (cache_key : string) (data : value) (expiration_arg : option Z) : M bool :=
    client <- get_redis_client;;
    if is_none client then ret false else
    now <- time_time;;
    let data_to_store :=
      PDict [("data", data); ("cached_at", now); ("request_count", PInt 1)] in
    serialized <- catch (s <- lift (json_dumps_text data_to_store);; ret (Some s))
                    (fun e =>
                       match e with
                       | TypeError | ValueError | JSONDecodeError => ret None
                       | _ => raise e
                       end);;
    match serialized with
    | None => ret false
    | Some serialized_data =>
        cfg <- gets cache_config;;
        let exp_time :=
          match expiration_arg with Some e => e | None => expiration cfg end in
        client_setex cache_key exp_time serialized_data;;
        ret true
    end.

Definition store_data_with_key
      (cache_key : string) (data : value) (expiration_arg : option Z) : M bool :=
    cfg <- gets cache_config;;
    if negb (enabled cfg) then ret false else
    catch (store_data_with_key_try cache_key data expiration_arg)
      (fun e =>
         match e with
         | RedisConnectionError => ret false
         | _ => ret false
         end).

Definition store_data
      (data : dict) (analysis_type : string) (expiration_arg : option Z)
    : M (option string) :=
    cfg <- gets cache_config;;
    if negb (enabled cfg) then ret None else
    catch
      (let data_copy := data in
       let data_copy :=
         if decide (analysis_type = EmptyString) then data_copy
         else dict_set "_type" (PStr analysis_type) data_copy in
       cache_key <- lift (_generate_cache_key (PDict data_copy));;
       success <- store_data_with_key cache_key (PDict data) expiration_arg;;
       ret (if success then Some cache_key else None))
      (fun _ => ret None).

End entry_store.

(** ** The file cache sweep *)

(** An entry of the cache directory: its name, whether [os.path.isdir]
    holds of it, what [os.path.getmtime] gives for it (a time in seconds,
    or an error) and whether [os.remove] succeeds on it. *)
Record file := File {
  filename : string;
  isdir : bool;
  getmtime : outcome Z;
  removable : bool;
}.

(** The disk: the clock, whether [os.makedirs] and [os.listdir] succeed on
    the cache directory, and the entries of the directory in the order
    [os.listdir] gives them. *)
Record disk := Disk {
  disk_clock : Z;
  makedirs_ok : bool;
  listdir_ok : bool;
  files : list file;
}.

Definition os_remove (f : file) (fs : list file) : outcome (list file) :=
  if removable f
  then Ok (filter (fun g => filename g <> filename f) fs)
  else Raise OSError.

(** The [for] loop of [clean_expired_files] over the listing; the state is
    [removed_count] and the directory. *)
Fixpoint sweep (now max_age_seconds : Z) (listing : list file)
    (st : Z * list file) : outcome unit * (Z * list file) :=
  match listing with
  | [] => (Ok tt, st)
  | f :: rest =>
      if isdir f then sweep now max_age_seconds rest st
      else
        match getmtime f with
        | Raise e => (Raise e, st)
        | Ok mtime =>
            let file_age := now - mtime in
            if bool_decide (file_age > max_age_seconds) then
              match os_remove f st.2 with
              | Raise e => (Raise e, st)
              | Ok fs => sweep now max_age_seconds rest (st.1 + 1, fs)
              end
            else sweep now max_age_seconds rest st
        end
  end.

Definition clean_expired_files (max_age_days : Z) (d : disk) : outcome Z * disk :=
  (* ensure_cache_dir_exists() logs and re-raises *)
  if negb (makedirs_ok d) then (Raise OSError, d) else
  let now := disk_clock d in
  let max_age_seconds := max_age_days * 86400 in
  let removed_count := 0 in
  if negb (listdir_ok d) then (Ok removed_count, d) else
  match sweep now max_age_seconds (files d) (removed_count, files d) with
  | (Ok _, (removed_count, fs)) =>
      (Ok removed_count, Disk (disk_clock d) (makedirs_ok d) (listdir_ok d) fs)
  | (Raise _, (removed_count, fs)) =>
      (Ok removed_count, Disk (disk_clock d) (makedirs_ok d) (listdir_ok d) fs)
  end.

(** Whether the sweep is to remove an entry: a regular file whose age is
    beyond the threshold. *)
Definition expired (now max_age_days : Z) (f : file) : bool :=
  negb (isdir f) &&
  match getmtime f with
  | Ok mtime => bool_decide (now - mtime > max_age_days * 86400)
  | Raise _ => false
  end.

(** ** Worlds and runs used to state the properties *)

(** For runs in which nothing is added to a float, any reading of float
    addition will do. *)
Definition float_add_any : string -> Z -> string := fun r _ => r.

Definition config_on : CacheConfig :=
  {| enabled := true; expiration := 604800; compression_level := 1 |}.
Definition config_off : CacheConfig :=
  {| enabled := false; expiration := 604800; compression_level := 1 |}.

Definition redis_url : string := "redis://cache:6379/0".

(** A connected process in front of an empty server that answers. *)
Definition world_on : world :=
  World (Some redis_url) (Some redis_url) config_on 1000 ∅ [] [].
(** The same with caching disabled. *)
Definition world_off : world :=
  World (Some redis_url) (Some redis_url) config_off 1000 ∅ [] [].
(** A process that has not connected yet, the server failing as [faults] tells. *)
Definition world_fresh (faults : list (option exn)) : world :=
  World (Some redis_url) None config_on 1000 ∅ faults [].

(** The request count of the entry stored under a key, if the key holds a
    live JSON object. *)
Definition stored_request_count (w : world) (k : string) : option value :=
  match redis_get (clock w) (db w) k with
  | Some t =>
      match json_loads t with
      | Ok (PDict d) => dict_get "request_count" d
      | _ => None
      end
  | None => None
  end.

(** Gets in a row on one key, each a given number of seconds after the
    one before; the results in order, and the state after the last. *)
Fixpoint gets_in_a_row (float_add : string -> Z -> string) (cache_key : string)
    (delays : list Z) (w : world) : list (outcome value) * world :=
  match delays with
  | [] => ([], w)
  | d :: ds =>
      let (r, w1) := get_cached_data_by_key float_add cache_key
                       (set_clock (clock w + d) w) in
      let (rs, w2) := gets_in_a_row float_add cache_key ds w1 in
      (r :: rs, w2)
  end.

Definition elapsed (delays : list Z) : Z := foldr Z.add 0 delays.

(** ** Further definitions used to state the properties *)

(** The mapping [store_data] derives its key from. *)
Definition store_key_input (data : dict) (analysis_type : string) : dict :=
  if decide (analysis_type = EmptyString) then data
  else dict_set "_type" (PStr analysis_type) data.

(** No operation fails on the file: its modification time can be read,
    and it can be removed if it is to be. *)
Definition sound (now max_age_days : Z) (f : file) : Prop :=
  isdir f = false ->
  exists m, getmtime f = Ok m
            /\ (now - m > max_age_days * 86400 -> removable f = true).

(** An operation fails on the file: reading its modification time, or
    removing it when it is to be removed. *)
Definition failing (now max_age_days : Z) (f : file) : Prop :=
  isdir f = false
  /\ ((exists e, getmtime f = Raise e)
      \/ (exists m, getmtime f = Ok m /\ now - m > max_age_days * 86400
                    /\ removable f = false)).

(** The state after an attempt that got through, that is to be retried
    after [d] seconds, or that was the last. *)
Definition after_ok (url : string) (n : list (option exn)) (w : world) : world :=
  set_net n (set_redis_client (Some url) w).

Definition after_retry (url : string) (d : Z) (n : list (option exn)) (w : world) : world :=
  set_slept (slept w ++ [d]) (set_clock (clock w + d) (after_ok url n w)).

Definition after_last (n : list (option exn)) (w : world) : world :=
  set_net n (set_redis_client None w).

(** What [store_data_with_key] wraps the payload in. *)
Definition cache_entry (data : value) (now : Z) (count : Z) : value :=
  PDict [("data", data); ("cached_at", PFloat (str_int now +:+ ".0"));
         ("request_count", PInt count)].

(** A server that drops the connection, in front of a connected process. *)
Definition world_down : world :=
  World (Some redis_url) (Some redis_url) config_on 1000 ∅ [Some RedisConnectionError] [].

Fixpoint value_size (v : value) : nat :=
  match v with
  | PList l => S (foldr (fun x n => (value_size x + n)%nat) O l)
  | PDict d => S (foldr (fun kv n => (value_size kv.2 + n)%nat) O d)
  | _ => 1%nat
  end.

(** A connected process in front of a server holding, under ["k"], an entry
    put at time 900 that has 100 seconds left to live; the default
    expiration is 604800 seconds. *)
Definition world_short_ttl : world :=
  World (Some redis_url) (Some redis_url) config_on 1000
        {[ "k" := Entry (Encoded (cache_entry (PInt 7) 900 1)) (Some 1100) ]} [] [].

Definition params_typed : dict := [("_type", PStr "ndvi"); ("region", PStr "X")].

Definition params_plain : dict := [("region", PStr "X"); ("scale", PInt 30)].

Definition key_of (v : value) : string :=
  match _generate_cache_key v with Ok k => k | Raise _ => EmptyString end.

Definition key_typed : string := Eval vm_compute in key_of (PDict params_typed).

Definition key_plain : string := Eval vm_compute in key_of (PDict params_plain).

Definition key_plain_ndvi : string := Eval vm_compute in
  key_of (PDict (store_key_input params_plain "ndvi")).

(** A cache directory at time 1000000 (seconds): a file modified exactly
    7 days before, one modified a second earlier than that, a recent one
    and a subdirectory. *)
Definition file_at_threshold : file := File "a.tif" false (Ok 395200) true.

Definition file_older : file := File "b.tif" false (Ok 395199) true.

Definition file_recent : file := File "c.tif" false (Ok 999000) true.

Definition subdirectory : file := File "tiles" true (Ok 0) true.

Definition disk_ok : disk :=
  Disk 1000000 true true [file_at_threshold; file_older; file_recent; subdirectory].

(** A cache directory whose first old file cannot be removed, followed by
    an old file that could be. *)
Definition file_locked : file := File "locked.tif" false (Ok 0) false.

Definition file_stale : file := File "stale.tif" false (Ok 0) true.

Definition disk_locked : disk := Disk 1000000 true true [file_locked; file_stale].

(** Two mappings of the same items, the outer and the inner one each in
    two insertion orders. *)
Definition request_a : dict :=
  [("region", PDict [("lon", PFloat "10.5"); ("lat", PFloat "36.8")]);
   ("scale", PInt 30); ("bands", PList [PStr "B4"; PStr "B8"])].

Definition request_b : dict :=
  [("bands", PList [PStr "B4"; PStr "B8"]); ("scale", PInt 30);
   ("region", PDict [("lat", PFloat "36.8"); ("lon", PFloat "10.5")])].

(** ** Further definitions: the rest of the cache module *)

(** A digit of a lowercase hexadecimal numeral. *)
Definition is_lower_hex (c : ascii) : bool :=
  existsb (Ascii.eqb c) (list_ascii_of_string "0123456789abcdef").

(** [initialize_db]; [ENABLE_CACHE] is the module constant read from the
    environment when the module is loaded. *)
Definition initialize_db (ENABLE_CACHE : bool) (test_connection : bool) : M bool :=
  if negb ENABLE_CACHE then ret false else
  catch
    (client <- get_redis_client;;
     if negb (is_none client) && test_connection then
       client_ping;;
       ret true
     else if negb (is_none client) then ret true
     else ret false)
    (fun e =>
       match e with
       | ConnectionError => ret false
       | _ => ret false
       end).

(** DEL: the keys are removed, and the reply is how many of them were there. *)
Definition redis_del (now : Z) (db : keyspace) (ks : list string) : keyspace * Z :=
  foldl (fun acc k =>
           (delete k acc.1,
            acc.2 + (if is_none (lookup_live now acc.1 k) then 0 else 1)))
        (db, 0) ks.

(** [client.delete] on the keys [ks]; the server refuses a DEL without a key. *)
Definition client_delete (ks : list string) : M Z :=
  round_trip;;
  match ks with
  | [] => raise RedisError
  | _ =>
      w <- gets id;;
      let (d, n) := redis_del (clock w) (db w) ks in
      modify (set_db d);;
      ret n
  end.

(** The body of the [try] of [invalidate_cache]. *)
Definition invalidate_cache_try (cache_key : string) : M bool :=
  client <- get_redis_client;;
  if is_none client then ret false else
  client_delete [cache_key];;
  ret true.

Definition invalidate_cache (cache_key : string) : M bool :=
  catch (invalidate_cache_try cache_key)
    (fun e =>
       match e with
       | RedisConnectionError => ret false
       | _ => ret false
       end).

Section patterns.

(** The glob-style matching of the server: [glob_match pattern key]. *)
Variable glob_match : string -> string -> bool.

(** KEYS: the live keys that match the pattern. *)
Definition redis_keys (now : Z) (db : keyspace) (pattern : string) : list string :=
  (filter (fun kv => glob_match pattern kv.1 = true /\ live now kv.2 = true)
          (map_to_list db)).*1.

Definition client_keys (pattern : string) : M (list string) :=
  round_trip;; gets (fun w => redis_keys (clock w) (db w) pattern).

(** The body of the [try] of [invalidate_by_pattern]. *)
Definition invalidate_by_pattern_try (pattern : string) : M Z :=
  client <- get_redis_client;;
  if is_none client then ret 0 else
  matching_keys <- client_keys pattern;;
  match matching_keys with
  | [] => ret 0
  | _ =>
      deleted <- client_delete matching_keys;;
      ret deleted
  end.

Definition invalidate_by_pattern (pattern : string) : M Z :=
  catch (invalidate_by_pattern_try pattern)
    (fun e =>
       match e with
       | RedisConnectionError => ret 0
       | _ => ret 0
       end).

End patterns.

(** The wrapper [cache_decorator(prefix, ttl)] makes of [func], called on
    [args] and [kwargs]; [func_name] is the [__name__] of [func].  The tuple [args] is
    carried as the list [json.dumps] writes it as; that
    [sort_dict_recursive] does not descend into a tuple makes no difference
    to the key, the text being written with sorted keys
    ([json_dumps_sorted_canonical]). *)
Definition cache_decorator (float_add : string -> Z -> string)
    (prefix : string) (ttl : option Z)
    (func_name : string) (func : list value -> dict -> M value)
    (args : list value) (kwargs : dict) : M value :=
  cfg <- gets cache_config;;
  if negb (enabled cfg) then func args kwargs else
  let cache_data :=
    PDict [("func", PStr func_name); ("args", PList args); ("kwargs", PDict kwargs)] in
  derived <- lift (_generate_cache_key cache_data);;
  let key := if decide (prefix = EmptyString) then derived
             else prefix +:+ ":" +:+ derived in
  cached_result <- get_cached_data_by_key float_add key;;
  match cached_result with
  | PNone =>
      result <- func args kwargs;;
      cfg <- gets cache_config;;
      let expiration := match ttl with Some t => t | None => expiration cfg end in
      store_data_with_key key result (Some expiration);;
      ret result
  | _ => ret cached_result
  end.

(** The key [cache_decorator] uses for a call. *)
Definition decorator_key (prefix func_name : string) (args : list value) (kwargs : dict)
  : outcome string :=
  derived ← _generate_cache_key
              (PDict [("func", PStr func_name); ("args", PList args);
                      ("kwargs", PDict kwargs)]);
  Ok (if decide (prefix = EmptyString) then derived else prefix +:+ ":" +:+ derived).

(** A world in which two entries are stored and a third has expired. *)
Definition world_three_keys : world :=
  World (Some redis_url) (Some redis_url) config_on 1000
        (<["cache:a" := Entry (Encoded (cache_entry (PInt 1) 900 1)) (Some 2000)]>
           (<["cache:b" := Entry (Encoded (cache_entry (PInt 2) 900 5)) (Some 3000)]>
              (<["stats:c" := Entry (Encoded (PInt 3)) None]>
                 (<["cache:old" := Entry (Encoded (PInt 4)) (Some 950)]> ∅))))
        [] [].

(** Matching of the patterns ["<prefix>*"] and of literal patterns, for
    keys and prefixes without a metacharacter. *)
Definition prefix_glob (pattern key : string) : bool :=
  match String.index 0 "*" pattern with
  | Some n => String.prefix (String.substring 0 n pattern) key
  | None => String.eqb pattern key
  end.

(** A connected process in front of a server holding, under ["k"], an
    entry without expiry (written by another tool), and under ["n"] a JSON
    text that is not an object. *)
Definition world_foreign : world :=
  World (Some redis_url) (Some redis_url) config_on 1000
        (<["k" := Entry (Encoded (cache_entry (PInt 7) 900 3)) None]>
           (<["n" := Entry (Encoded (PList [PInt 1; PInt 2])) (Some 2000)]>
              (<["o" := Entry (Encoded (PDict [("data", PInt 5)])) (Some 2000)]> ∅)))
        [] [].

(** A connected process in front of a server holding, under ["s"], an
    object whose count is a string. *)
Definition world_string_count : world :=
  World (Some redis_url) (Some redis_url) config_on 1000
        (<["s" := Entry (Encoded (PDict [("data", PInt 5); ("request_count", PStr "5")]))
                        (Some 2000)]> ∅)
        [] [].

(** A function to decorate: it takes five seconds and doubles its one
    integer argument. *)
Definition slow_double (args : list value) (kwargs : dict) : M value :=
  match args with
  | [PInt n] => modify (fun w => set_clock (clock w + 5) w);; ret (PInt (2 * n))
  | _ => raise TypeError
  end.

(** The key of the call [slow_double(21)] under the prefix ["stats"]. *)
Definition key_double : string :=
  Eval vm_compute in
    match decorator_key "stats" "slow_double" [PInt 21] [] with
    | Ok k => k
    | Raise _ => EmptyString
    end.

(** A world in which the result of that call is cached. *)
Definition world_cached : world :=
  World (Some redis_url) (Some redis_url) config_on 1000
        (<[key_double := Entry (Encoded (cache_entry (PInt 42) 900 1)) (Some 2000)]> ∅)
        [] [].

(** A cache directory in which an old file is removed, the next old file
    cannot be, and a third old file comes after it. *)
Definition disk_partial : disk :=
  Disk 1000000 true true [file_stale; file_locked; file_older; file_recent].

(** ** File cache paths *)

(** [s.endswith("/")] *)
Fixpoint ends_with_sep (s : string) : bool :=
  match s with
  | EmptyString => false
  | String c EmptyString => Ascii.eqb c "/"
  | String _ s' => ends_with_sep s'
  end.

(** [os.path.join(a, b)] on a POSIX system. *)
Definition os_path_join (a b : string) : string :=
  if String.prefix "/" b then b
  else if decide (a = EmptyString) then a +:+ b
  else if ends_with_sep a then a +:+ b
  else a +:+ "/" +:+ b.

(** [generate_file_cache_path]; [CACHE_DIR] is the module constant read
    from the environment. *)
Definition generate_file_cache_path (CACHE_DIR identifier extension : string) : string :=
  let filename := SHA256.hexdigest (encode_utf8 identifier) in
  let filename :=
    if decide (extension = EmptyString) then filename
    else
      let extension :=
        if negb (String.prefix "." extension) then "." +:+ extension else extension in
      filename +:+ extension in
  os_path_join CACHE_DIR filename.

(** ** Keys that do not interfere *)

(** The world with the entry [e] written under [k]. *)
Definition with_entry (k : string) (e : entry) (w : world) : world :=
  set_db (<[k := e]> (db w)) w.

(** A computation is indifferent to the entry under [k]: run with [e]
    written under [k], it returns what it returns without, and leaves [e]
    under [k]. *)
Definition indifferent {A} (k : string) (e : entry) (m : M A) : Prop :=
  forall w, m (with_entry k e w) = let (r, w') := m w in (r, with_entry k e w').

(** ** Reading back an escaped character *)

(** The value of a hexadecimal digit. *)
Definition hex_value (c : ascii) : N :=
  let n := N_of_ascii c in
  if (n <? 58)%N then (n - 48)%N else (n - 87)%N.

(** The character a JSON string begins with, and the rest of the text:
    the inverse of [escape_char] on the head of a text. *)
Definition unescape_head (s : string) : option (ascii * string) :=
  match s with
  | EmptyString => None
  | String "\" (String "u" (String _ (String _ (String h (String l rest))))) =>
      Some (ascii_of_N (16 * hex_value h + hex_value l), rest)
  | String "\" (String x rest) =>
      Some (if decide (x = "n"%char) then "010"%char
            else if decide (x = "r"%char) then "013"%char
            else if decide (x = "t"%char) then "009"%char
            else if decide (x = "b"%char) then "008"%char
            else if decide (x = "f"%char) then "012"%char
            else x, rest)
  | String c rest => Some (c, rest)
  end.

(** * Properties *)

(** ** Checks of the library models against known values *)

Example sha256_abc :
  SHA256.hexdigest (bytes_of_ascii_string "abc")
  = "ba7816bf8f01cfea414140de5dae2223b00361a396177a9cb410ff61f20015ad".
Proof. vm_compute. reflexivity. Qed.

Example sha256_empty :
  SHA256.hexdigest []
  = "e3b0c44298fc1c149afbf4c8996fb92427ae41e4649b934ca495991b7852b855".
Proof. vm_compute. reflexivity. Qed.

Example sha256_two_blocks :
  SHA256.hexdigest (replicate 100 97%N)
  = "2816597888e4a0d3a36b82b83316ab32680eb8f00f8cd3b904d681246d285a0e".
Proof. vm_compute. reflexivity. Qed.

Example key_d_ba :
  _generate_cache_key d_ba
  = Ok "cache:d8497d9d82770a70729261095aa98f7ef5154d7af499f8037b6ca250296785a6".
Proof. vm_compute. reflexivity. Qed.

Example key_list_d_ba :
  _generate_cache_key (PList [d_ba])
  = Ok "cache:1176b831c374ed0092e7693816e78426e6bc740a1d927cac9ce57735e5d7a23f".
Proof. vm_compute. reflexivity. Qed.

Example key_list_two :
  _generate_cache_key (PList [d_ab; d_c])
  = Ok "cache:076c47da7f946bbad08639ba63a0952ae2876b9991577fe6fa59558bbaf653c2".
Proof. vm_compute. reflexivity. Qed.

Example key_nested_escapes :
  let chr n := String (ascii_of_N n) EmptyString in
  let text := "a" +:+ chr 34%N +:+ "b" +:+ chr 92%N +:+ "c" +:+ chr 10%N +:+ chr 9%N
              +:+ chr 1%N +:+ chr 127%N +:+ chr 233%N in
  _generate_cache_key
    (PDict [("z", PList [PInt 1; PInt (-20); PNone; PBool true; PBool false;
                         PDict [("y", PStr text); ("x", PList [])]]);
            ("a", PDict []); ("m", PFloat "0.5"); ("Zeta", PStr EmptyString);
            (chr 233%N, PInt 1)])
  = Ok "cache:47c350250ccb2a66a5e140a0f0f05beb4935f8138e5ffae1eda184c7653f3a70".
Proof. vm_compute. reflexivity. Qed.

Example key_latin1_string :
  let chr n := String (ascii_of_N n) EmptyString in
  _generate_cache_key (PStr ("caf" +:+ chr 233%N +:+ " " +:+ chr 255%N))
  = Ok "cache:7c06cae138dbd8967aaab71bee84bcec21d1848d2c2467e99fcc500dba2beae5".
Proof. vm_compute. reflexivity. Qed.

(** A sequence with no dictionary among its elements keeps the key order
    of the dictionaries nested deeper. *)
Example key_list_nested_unsorted :
  _generate_cache_key (PList [PList [PDict [("b", PInt 1); ("a", PInt 2)]]; PStr "x"])
  = Ok "cache:0212afcfdf140a9513db8887b3f5ba0d0cc66c7f7ded1df1e8e69f26e2e96deb".
Proof. vm_compute. reflexivity. Qed.

Example key_scalars :
  _generate_cache_key (PInt (-42))
  = Ok "cache:fec80006df0542549b4cbaafb8987eee00bb49bca396eefe9ac8be5b5928e8f6"
  /\ _generate_cache_key PNone
     = Ok "cache:74234e98afe7498fb5daf1f36ac2d78acc339464f950703b8c019892f982b90b"
  /\ _generate_cache_key (PBool true)
     = Ok "cache:b5bea41b6c623f7c09f1bf24dcae58ebab3c0cdd90ad966bc43a45b44867e12b".
Proof. repeat split; vm_compute; reflexivity. Qed.

Example key_params :
  key_plain = "cache:2f3d39edbc4784ecec89c1211503690e4c546e0f1ed90d4761f7553649c247ca"
  /\ key_plain_ndvi
     = "cache:0d575e2b071639a1304d2e1c0e296bfd95376d035b3c646c00fc49ea66b35de0".
Proof. split; reflexivity. Qed.

(** ** Key derivation *)

Section key_order.
Context {A : Type}.
Implicit Types l : list (string * A).

Global Instance key_le_trans : Transitive (@key_le A).
Proof. intros x y z. unfold key_le. apply transitivity. Qed.

Global Instance key_le_total : Total (@key_le A).
Proof. intros x y. unfold key_le. apply total, _. Qed.

Lemma sorted_strongly l : StronglySorted key_le (sorted l).
Proof. apply StronglySorted_merge_sort; apply _. Qed.

Lemma sorted_perm l : sorted l ≡ₚ l.
Proof. apply merge_sort_Permutation. Qed.

  (** Items with distinct keys have one key order, whatever the order
      they were inserted in. *)
Lemma sorted_unique l1 l2 :
    NoDup l2.*1 -> l1 ≡ₚ l2 -> sorted l1 = sorted l2.
Proof.
    intros Hnd Hp.
    apply (StronglySorted_unique_strong key_le); try apply sorted_strongly.
    - intros x1 x2 H1 H2 H12 H21.
      rewrite sorted_perm, Hp in H1. rewrite sorted_perm in H2.
      assert (x1.1 = x2.1) as Hk by (apply (anti_symm String.le); assumption).
      apply list_elem_of_lookup in H1 as [i Hi], H2 as [j Hj].
      assert (i = j) as ->.
      { apply (NoDup_lookup _ _ _ (x1.1) Hnd);
          rewrite list_lookup_fmap; [rewrite Hi | rewrite Hj, Hk]; reflexivity. }
      congruence.
    - rewrite !sorted_perm. exact Hp.
Qed.
End key_order.

(** Ordering commutes with any change of the values that keeps the keys. *)
Section sorted_fmap.
Context {A B : Type} (f : string * A -> string * B).
Hypothesis f_key : forall x, (f x).1 = x.1.
Implicit Types (l : list (string * A)) (st : list (option (list (string * A)))).

Let stack_fmap st : list (option (list (string * B))) :=
    fmap (M:=list) (fmap (M:=option) (fmap (M:=list) f)) st.

Lemma decide_key_le_fmap x y :
    (if decide (key_le (f x) (f y)) then true else false)
    = (if decide (key_le x y) then true else false).
Proof.
    unfold key_le.
    destruct (decide (String.le (f x).1 (f y).1)) as [H|H],
             (decide (String.le x.1 y.1)) as [H'|H']; try reflexivity;
      rewrite !f_key in H; contradiction.
Qed.

Lemma list_merge_fmap l1 l2 :
    list_merge key_le (f <$> l1) (f <$> l2) = f <$> list_merge key_le l1 l2.
Proof.
    revert l2. induction l1 as [|x1 l1 IH1]; intros l2.
    { destruct l2; reflexivity. }
    induction l2 as [|x2 l2 IH2]; [reflexivity|].
    pose proof (decide_key_le_fmap x1 x2) as Hd.
    cbn [fmap list_fmap list_merge] in *.
    destruct (decide (key_le (f x1) (f x2))), (decide (key_le x1 x2));
      try discriminate Hd; cbn [fmap list_fmap]; f_equal.
    - apply (IH1 (x2 :: l2)).
    - apply IH2.
Qed.

Lemma merge_list_to_stack_fmap st l :
    merge_list_to_stack key_le (stack_fmap st) (f <$> l)
    = stack_fmap (merge_list_to_stack key_le st l).
Proof.
    revert l. induction st as [|[l'|] st IH]; intros l; try reflexivity.
    change (None :: merge_list_to_stack key_le (stack_fmap st)
                      (list_merge key_le (f <$> l') (f <$> l))
            = None :: stack_fmap (merge_list_to_stack key_le st (list_merge key_le l' l))).
    f_equal. rewrite list_merge_fmap. apply IH.
Qed.

Lemma merge_stack_fmap st :
    merge_stack key_le (stack_fmap st) = f <$> merge_stack key_le st.
Proof.
    induction st as [|[l'|] st IH]; try reflexivity; [|exact IH].
    change (list_merge key_le (f <$> l') (merge_stack key_le (stack_fmap st))
            = f <$> list_merge key_le l' (merge_stack key_le st)).
    rewrite IH. apply list_merge_fmap.
Qed.

Lemma merge_sort_aux_fmap st l :
    merge_sort_aux key_le (stack_fmap st) (f <$> l)
    = f <$> merge_sort_aux key_le st l.
Proof.
    revert st. induction l as [|x l IH]; intros st.
    - apply merge_stack_fmap.
    - change (merge_sort_aux key_le (merge_list_to_stack key_le (stack_fmap st) (f <$> [x])) (f <$> l)
              = f <$> merge_sort_aux key_le (merge_list_to_stack key_le st [x]) l).
      rewrite merge_list_to_stack_fmap. apply IH.
Qed.

Lemma sorted_fmap l : sorted (f <$> l) = f <$> sorted l.
Proof. apply (merge_sort_aux_fmap [] l). Qed.
End sorted_fmap.

(** The equation of [sort_dict_recursive] on a dictionary, in the order of
    the source: the items are put in key order, then each value is
    descended into. *)
Lemma sort_dict_recursive_dict d :
  sort_dict_recursive (PDict d)
  = PDict ((fun kv => (kv.1, sort_dict_recursive kv.2)) <$> sorted d).
Proof. cbn [sort_dict_recursive]. f_equal. apply sorted_fmap. reflexivity. Qed.

Lemma dict_get_elem k v (d : dict) :
  NoDup d.*1 -> (k, v) ∈ d <-> dict_get k d = Some v.
Proof.
  induction d as [|[k' v'] d IH]; cbn; intros Hnd.
  - split; [intros H; inversion H | discriminate].
  - apply NoDup_cons in Hnd as [Hk' Hnd].
    rewrite elem_of_cons. destruct (decide (k' = k)) as [->|Hne].
    + split.
      * intros [[= ->]|Hin]; [reflexivity|].
        exfalso. apply Hk'. apply list_elem_of_fmap. exists (k, v). done.
      * intros [= ->]. by left.
    + rewrite <- IH by assumption. split.
      * intros [[= <- _]|Hin]; [done | assumption].
      * intros Hin. by right.
Qed.

Lemma unique_keys_dict d :
  unique_keys (PDict d) = true ->
  NoDup d.*1 /\ forall k v, (k, v) ∈ d -> unique_keys v = true.
Proof.
  cbn. intros [Hnd Hall]%andb_prop. split.
  - by apply bool_decide_eq_true in Hnd.
  - intros k v Hin. rewrite forallb_forall in Hall.
    apply (Hall (k, v)). by apply list_elem_of_In.
Qed.

(** Values with the same content have the same canonical form. *)
Lemma sort_dict_recursive_same_content a :
  forall b, unique_keys a = true -> unique_keys b = true ->
            same_content a b -> sort_dict_recursive a = sort_dict_recursive b.
Proof.
  induction a as [| | | | |l IH|d IH|] using value_nested_ind;
    intros a' Ha Hb Hsc; inversion Hsc; subst; try reflexivity; try discriminate.
  - (* lists *)
    cbn [sort_dict_recursive]. f_equal.
    cbn in Ha, Hb. rewrite forallb_forall in Ha, Hb.
    match goal with H : Forall2 _ _ _ |- _ => rename H into H2 end.
    clear Hsc. revert IH Ha Hb.
    induction H2 as [|x y l l' Hxy H2 IHl]; intros IH Ha Hb; [reflexivity|].
    apply Forall_cons in IH as [IHx IH].
    cbn [fmap list_fmap]. f_equal.
    + apply IHx; [apply Ha | apply Hb | exact Hxy]; by left.
    + apply IHl; [exact IH | intros z Hz; apply Ha; by right
                 | intros z Hz; apply Hb; by right ].
  - (* dictionaries *)
    match goal with H : forall k, option_Forall2 _ _ _ |- _ => rename H into Hget end.
    apply unique_keys_dict in Ha as [Hnd1 Hu1], Hb as [Hnd2 Hu2].
    rewrite Forall_forall in IH.
    cbn [sort_dict_recursive]. f_equal.
    set (f := fun kv : string * value => (kv.1, sort_dict_recursive kv.2)).
    assert (Hkeys : forall d' : dict, (f <$> d').*1 = d'.*1).
    { intros d'. rewrite <- list_fmap_compose. reflexivity. }
    apply sorted_unique; [by rewrite Hkeys|].
    apply NoDup_Permutation.
    + apply (NoDup_fmap_1 fst). by rewrite Hkeys.
    + apply (NoDup_fmap_1 fst). by rewrite Hkeys.
    + intros [k s]. rewrite !list_elem_of_fmap. split.
      * intros [[k1 v1] [[= -> ->] Hin]].
        pose proof (Hget k1) as Hk.
        apply dict_get_elem in Hin as Hg; [|assumption]. rewrite Hg in Hk.
        inversion Hk as [? v2 Hsame Heq1 Heq2|]; subst.
        exists (k1, v2). split.
        -- unfold f; cbn. f_equal.
           apply (IH (k1, v1) Hin); eauto.
           eapply Hu2, dict_get_elem; eauto.
        -- apply dict_get_elem; eauto.
      * intros [[k2 v2] [[= -> ->] Hin]].
        pose proof (Hget k2) as Hk.
        apply dict_get_elem in Hin as Hg; [|assumption]. rewrite Hg in Hk.
        inversion Hk as [v1 ? Hsame Heq1 Heq2|]; subst.
        assert ((k2, v1) ∈ d) as Hin1 by (apply dict_get_elem; eauto).
        exists (k2, v1). split; [|assumption].
        unfold f; cbn. f_equal. symmetry.
        apply (IH (k2, v1) Hin1); eauto.
Qed.

(** C1. Key derivation does not depend on the insertion order of a
    mapping's items: two parameter mappings with the same content, at every
    level of nesting, get the same key (or fail to serialize alike).  In
    particular the keys of [{"b": 2, "a": 1}] and [{"a": 1, "b": 2}]
    coincide, so do those of the one-element sequences holding them, and
    the latter differs from the key of [[{"a": 1, "b": 2}, {"c": 3}]]. *)
Theorem generate_cache_key_order_invariant :
  (forall A B : dict,
      unique_keys (PDict A) = true -> unique_keys (PDict B) = true ->
      same_content (PDict A) (PDict B) ->
      _generate_cache_key (PDict A) = _generate_cache_key (PDict B))
  /\ _generate_cache_key d_ba = _generate_cache_key d_ab
  /\ _generate_cache_key (PList [d_ba]) = _generate_cache_key (PList [d_ab])
  /\ _generate_cache_key (PList [d_ab]) <> _generate_cache_key (PList [d_ab; d_c]).
Proof.
  split; [|split; [|split]].
  - intros A B HA HB Hsc. unfold _generate_cache_key.
    rewrite (sort_dict_recursive_same_content (PDict A) (PDict B)); done.
  - vm_compute. reflexivity.
  - vm_compute. reflexivity.
  - vm_compute. discriminate.
Qed.

(** ** Running the state-and-exception monad *)

Local Open Scope cache_scope.

Lemma bind_ok {A B} (m : M A) (f : A -> M B) w a w' :
  m w = (Ok a, w') -> bind m f w = f a w'.
Proof. unfold bind. intros ->. reflexivity. Qed.

Lemma bind_raise {A B} (m : M A) (f : A -> M B) w e w' :
  m w = (Raise e, w') -> bind m f w = (Raise e, w').
Proof. unfold bind. intros ->. reflexivity. Qed.

Lemma catch_ok {A} (m : M A) h w a w' :
  m w = (Ok a, w') -> catch m h w = (Ok a, w').
Proof. unfold catch. intros ->. reflexivity. Qed.

Lemma catch_raise {A} (m : M A) h w e w' :
  m w = (Raise e, w') -> catch m h w = h e w'.
Proof. unfold catch. intros ->. reflexivity. Qed.

(** A handler that turns every exception into a value leaves none. *)
Lemma catch_all_total {A} (m : M A) (h : exn -> M A) (d : A) w :
  (forall e w', h e w' = (Ok d, w')) ->
  (exists a w', catch m h w = (Ok a, w')) /\
  (forall e w', m w = (Raise e, w') -> catch m h w = (Ok d, w')).
Proof.
  intros Hh. unfold catch. destruct (m w) as [[a|e] w'] eqn:Hm.
  - split; [eauto | intros ?? [=]].
  - split; [rewrite Hh; eauto | intros ?? [= <- <-]; apply Hh].
Qed.

Lemma world_eta w :
  World (REDIS_URL w) (redis_client w) (cache_config w) (clock w) (db w) (net w) (slept w) = w.
Proof. destruct w; reflexivity. Qed.

(** ** The connection singleton *)

Lemma from_url_nonempty url : from_url url = Ok url -> url <> EmptyString.
Proof. intros H ->. discriminate H. Qed.

Lemma get_redis_client_connected w c :
  redis_client w = Some c -> get_redis_client w = (Ok (Some c), w).
Proof. intros H. unfold get_redis_client, bind, gets, ret. rewrite H. reflexivity. Qed.

Lemma get_redis_client_fresh w url :
  redis_client w = None -> REDIS_URL w = Some url -> from_url url = Ok url ->
  get_redis_client w = connect url [0; 1; 2] w.
Proof.
  intros Hc Hu Hf. unfold get_redis_client, bind, gets. rewrite Hc, Hu.
  destruct url; [discriminate Hf | reflexivity].
Qed.



Lemma connect_retry url attempt rest n w :
  from_url url = Ok url -> net w = Some RedisConnectionError :: n ->
  attempt < max_retries - 1 ->
  connect url (attempt :: rest) w
  = connect url rest (after_retry url (retry_delay * 2 ^ attempt) n w).
Proof.
  intros Hf Hn Hlt. cbn [connect].
  unfold catch at 1. unfold bind at 1, lift at 1. rewrite Hf.
  unfold bind at 1, modify at 1. unfold bind at 1, client_ping, round_trip.
  cbn [net set_redis_client]. rewrite Hn.
  rewrite bool_decide_eq_true_2 by assumption.
  unfold bind, sleep, modify. reflexivity.
Qed.

Lemma connect_last url attempt rest n w :
  from_url url = Ok url -> net w = Some RedisConnectionError :: n ->
  ~ attempt < max_retries - 1 ->
  connect url (attempt :: rest) w = (Raise ConnectionError, after_last n w).
Proof.
  intros Hf Hn Hlt. cbn [connect].
  unfold catch at 1. unfold bind at 1, lift at 1. rewrite Hf.
  unfold bind at 1, modify at 1. unfold bind at 1, client_ping, round_trip.
  cbn [net set_redis_client]. rewrite Hn.
  rewrite bool_decide_eq_false_2 by assumption.
  unfold bind, modify, raise. reflexivity.
Qed.



(** ** Errors stay inside the store operations *)

Lemma round_trip_fault w e n :
  net w = Some e :: n -> round_trip w = (Raise e, set_net n w).
Proof. unfold round_trip. intros ->. reflexivity. Qed.

Lemma round_trip_quiet w : net w = [] -> round_trip w = (Ok tt, w).
Proof. unfold round_trip. intros ->. reflexivity. Qed.

Lemma client_get_fault w k e n :
  net w = Some e :: n -> client_get k w = (Raise e, set_net n w).
Proof. intros H. unfold client_get. apply bind_raise, round_trip_fault, H. Qed.

Lemma client_get_quiet w k :
  net w = [] -> client_get k w = (Ok (redis_get (clock w) (db w) k), w).
Proof.
  intros H. unfold client_get. erewrite bind_ok by (apply round_trip_quiet, H).
  reflexivity.
Qed.

Lemma client_ttl_quiet w k :
  net w = [] -> client_ttl k w = (Ok (redis_ttl (clock w) (db w) k), w).
Proof.
  intros H. unfold client_ttl. erewrite bind_ok by (apply round_trip_quiet, H).
  reflexivity.
Qed.

Lemma client_expire_quiet w k secs :
  net w = [] ->
  client_expire k secs w = (Ok tt, set_db (redis_expire (clock w) (db w) k secs) w).
Proof.
  intros H. unfold client_expire. erewrite bind_ok by (apply round_trip_quiet, H).
  reflexivity.
Qed.

Lemma client_setex_fault w k secs t e n :
  net w = Some e :: n -> client_setex k secs t w = (Raise e, set_net n w).
Proof. intros H. unfold client_setex. apply bind_raise, round_trip_fault, H. Qed.

Lemma client_setex_quiet w k secs t :
  net w = [] -> 0 < secs ->
  client_setex k secs t w
  = (Ok tt, set_db (<[k := Entry t (Some (clock w + secs))]> (db w)) w).
Proof.
  intros H Hs. unfold client_setex. erewrite bind_ok by (apply round_trip_quiet, H).
  unfold bind, gets, lift, modify, redis_setex, id.
  rewrite bool_decide_eq_true_2 by assumption. reflexivity.
Qed.

Lemma json_dumps_entry_raise data now count e :
  json_dumps false data = Raise e ->
  json_dumps_text (cache_entry data now count) = Raise e.
Proof.
  intros H. unfold json_dumps_text, cache_entry. cbn. rewrite H. reflexivity.
Qed.

Lemma json_dumps_entry_ok data now count s :
  json_dumps false data = Ok s ->
  json_dumps_text (cache_entry data now count)
  = Ok (Encoded (cache_entry data now count)).
Proof.
  intros H. unfold json_dumps_text, cache_entry. cbn. rewrite H. reflexivity.
Qed.

Lemma mapM_raises_TypeError {A B} (f : A -> outcome B) (l : list A) e :
  Forall (fun x => forall e, f x = Raise e -> e = TypeError) l ->
  mapM f l = Raise e -> e = TypeError.
Proof.
  intros Hall. revert e. induction Hall as [|x l Hx _ IHl]; intros e; cbn; [discriminate|].
  destruct (f x) eqn:Hfx; cbn; [|intros [= ->]; eauto].
  destruct (mapM f l); cbn; [discriminate|].
  intros [= ->]. eauto.
Qed.

Lemma json_dumps_raises_TypeError sort_keys v e :
  json_dumps sort_keys v = Raise e -> e = TypeError.
Proof.
  revert e. induction v as [|[]| | | |l IH|d IH|] using value_nested_ind;
    intros e; cbn; try discriminate; try congruence.
  - destruct (mapM (json_dumps sort_keys) l) as [elems|e'] eqn:Hm; [discriminate|].
    intros [= ->]. eapply mapM_raises_TypeError; eassumption.
  - match goal with |- context [mapM ?f d] => set (g := f) end.
    destruct (mapM g d) as [items|e'] eqn:Hm; [discriminate|].
    intros [= ->]. eapply mapM_raises_TypeError; [|eassumption].
    eapply Forall_impl; [exact IH|]. intros x Hx e'. unfold g.
    destruct (json_dumps sort_keys x.2) eqn:Hx'; cbn; [discriminate|].
    intros [= ->]. eauto.
Qed.

Section containment.
Variable float_add : string -> Z -> string.

Lemma get_contains cache_key w :
    (exists r w', get_cached_data_by_key float_add cache_key w = (Ok r, w'))
    /\ (enabled (cache_config w) = true -> forall e w',
          get_cached_data_by_key_try float_add cache_key w = (Raise e, w') ->
          get_cached_data_by_key float_add cache_key w = (Ok PNone, w')).
Proof.
    unfold get_cached_data_by_key, bind, gets.
    destruct (enabled (cache_config w)); cbn [negb].
    - split; [|intros _]; eapply catch_all_total; intros []; reflexivity.
    - split; [unfold ret; eauto | discriminate].
Qed.

Lemma store_contains cache_key data expiration_arg w :
    (exists r w', store_data_with_key cache_key data expiration_arg w = (Ok r, w'))
    /\ (enabled (cache_config w) = true -> forall e w',
          store_data_with_key_try cache_key data expiration_arg w = (Raise e, w') ->
          store_data_with_key cache_key data expiration_arg w = (Ok false, w')).
Proof.
    unfold store_data_with_key, bind, gets.
    destruct (enabled (cache_config w)); cbn [negb].
    - split; [|intros _]; eapply catch_all_total; intros []; reflexivity.
    - split; [unfold ret; eauto | discriminate].
Qed.

Lemma increment_contains cache_key w :
    (exists r w', increment_request_count float_add cache_key w = (Ok r, w'))
    /\ (forall e w',
          increment_request_count_try float_add cache_key w = (Raise e, w') ->
          increment_request_count float_add cache_key w = (Ok PNone, w')).
Proof.
    unfold increment_request_count.
    split; eapply catch_all_total; intros []; reflexivity.
Qed.

  (** A round trip that fails, on a connection that exists. *)
Lemma get_fault cache_key w c e n :
    enabled (cache_config w) = true -> redis_client w = Some c ->
    net w = Some e :: n ->
    get_cached_data_by_key float_add cache_key w = (Ok PNone, set_net n w).
Proof.
    intros Hon Hc Hn. apply get_contains with (e := e); [assumption|].
    unfold get_cached_data_by_key_try.
    erewrite bind_ok by (apply get_redis_client_connected, Hc). cbn [is_none].
    apply bind_raise, client_get_fault, Hn.
Qed.

Lemma increment_fault cache_key w c e n :
    redis_client w = Some c -> net w = Some e :: n ->
    increment_request_count float_add cache_key w = (Ok PNone, set_net n w).
Proof.
    intros Hc Hn. apply increment_contains with (e := e).
    unfold increment_request_count_try.
    erewrite bind_ok by (apply get_redis_client_connected, Hc). cbn [is_none].
    apply bind_raise, client_get_fault, Hn.
Qed.

  (** What the [try] block of the put comes to on a connection that exists. *)
Lemma store_try_connected cache_key data expiration_arg w c :
    redis_client w = Some c ->
    store_data_with_key_try cache_key data expiration_arg w
    = match json_dumps false data with
      | Raise _ => (Ok false, w)
      | Ok _ =>
          bind (client_setex cache_key
                  (default (expiration (cache_config w)) expiration_arg)
                  (Encoded (cache_entry data (clock w) 1)))
               (fun _ => ret true) w
      end.
Proof.
    intros Hc. unfold store_data_with_key_try.
    erewrite bind_ok by (apply get_redis_client_connected, Hc). cbn [is_none].
    unfold bind at 1, time_time, gets.
    unfold bind at 1, catch, bind at 1, lift.
    change (PDict _) with (cache_entry data (clock w) 1).
    destruct (json_dumps false data) as [s|e] eqn:Hs.
    - erewrite json_dumps_entry_ok by eassumption. unfold ret at 1.
      unfold bind at 1, gets. destruct expiration_arg; reflexivity.
    - pose proof (json_dumps_raises_TypeError _ _ _ Hs) as ->.
      erewrite json_dumps_entry_raise by eassumption. reflexivity.
Qed.

Lemma store_connected cache_key data expiration_arg w c :
    enabled (cache_config w) = true -> redis_client w = Some c ->
    store_data_with_key cache_key data expiration_arg w
    = catch (store_data_with_key_try cache_key data expiration_arg)
        (fun _ => ret false) w.
Proof.
    intros Hon Hc. unfold store_data_with_key, bind, gets. rewrite Hon. cbn [negb].
    unfold catch. destruct (store_data_with_key_try _ _ _ w) as [[r|[]] w']; reflexivity.
Qed.

Lemma store_fault cache_key data expiration_arg w c e n s :
    enabled (cache_config w) = true -> redis_client w = Some c ->
    json_dumps false data = Ok s -> net w = Some e :: n ->
    store_data_with_key cache_key data expiration_arg w = (Ok false, set_net n w).
Proof.
    intros Hon Hc Hs Hn. apply store_contains with (e := e); [assumption|].
    erewrite store_try_connected by eassumption. rewrite Hs.
    apply bind_raise, client_setex_fault, Hn.
Qed.

  (** A payload json cannot encode. *)
Lemma store_unserializable cache_key data expiration_arg w c e :
    enabled (cache_config w) = true -> redis_client w = Some c ->
    json_dumps false data = Raise e ->
    store_data_with_key cache_key data expiration_arg w = (Ok false, w).
Proof.
    intros Hon Hc Hs. erewrite store_connected by eassumption.
    apply catch_ok. erewrite store_try_connected by eassumption.
    rewrite Hs. reflexivity.
Qed.

  (** A stored text that is not JSON. *)
Lemma get_garbage cache_key w c s :
    enabled (cache_config w) = true -> redis_client w = Some c -> net w = [] ->
    redis_get (clock w) (db w) cache_key = Some (Garbage s) ->
    get_cached_data_by_key float_add cache_key w = (Ok PNone, w).
Proof.
    intros Hon Hc Hn Hg.
    unfold get_cached_data_by_key, bind at 1, gets. rewrite Hon. cbn.
    apply catch_ok. unfold get_cached_data_by_key_try.
    erewrite bind_ok by (apply get_redis_client_connected, Hc). cbn [is_none].
    erewrite bind_ok by (apply client_get_quiet, Hn). rewrite Hg.
    cbn [text_truthy]. destruct (decide (s = EmptyString)); reflexivity.
Qed.
End containment.

(** C7. No error of the connection or of serialization leaves
    [get_cached_data_by_key], [store_data_with_key] or
    [increment_request_count]: each returns a value in every state, and an
    exception raised inside its [try] block becomes the default, [None] for
    the get and the increment, [False] for the put.  So it is, on a
    connection that exists, for a round trip that fails, for a payload json
    cannot encode and for a stored text that is not JSON. *)
Theorem store_errors_are_contained float_add (w : world) (cache_key : string)
    (data : value) (expiration_arg : option Z) :
  ((exists r w', get_cached_data_by_key float_add cache_key w = (Ok r, w'))
   /\ (exists r w', store_data_with_key cache_key data expiration_arg w = (Ok r, w'))
   /\ (exists r w', increment_request_count float_add cache_key w = (Ok r, w')))
  /\ (enabled (cache_config w) = true ->
      (forall e w', get_cached_data_by_key_try float_add cache_key w = (Raise e, w') ->
         get_cached_data_by_key float_add cache_key w = (Ok PNone, w'))
      /\ (forall e w',
            store_data_with_key_try cache_key data expiration_arg w = (Raise e, w') ->
            store_data_with_key cache_key data expiration_arg w = (Ok false, w')))
  /\ (forall e w', increment_request_count_try float_add cache_key w = (Raise e, w') ->
        increment_request_count float_add cache_key w = (Ok PNone, w'))
  /\ (forall c, enabled (cache_config w) = true -> redis_client w = Some c ->
      (forall e n, net w = Some e :: n ->
         get_cached_data_by_key float_add cache_key w = (Ok PNone, set_net n w)
         /\ increment_request_count float_add cache_key w = (Ok PNone, set_net n w)
         /\ (forall s, json_dumps false data = Ok s ->
               store_data_with_key cache_key data expiration_arg w
               = (Ok false, set_net n w)))
      /\ (forall e, json_dumps false data = Raise e ->
            store_data_with_key cache_key data expiration_arg w = (Ok false, w))
      /\ (forall s, net w = [] ->
            redis_get (clock w) (db w) cache_key = Some (Garbage s) ->
            get_cached_data_by_key float_add cache_key w = (Ok PNone, w))).
Proof.
  split; [|split; [|split; [|]]].
  - split; [|split].
    + apply get_contains.
    + apply store_contains.
    + apply increment_contains.
  - intros Hon. split.
    + apply get_contains, Hon.
    + apply store_contains, Hon.
  - apply increment_contains.
  - intros c Hon Hc. split; [|split].
    + intros e n Hn. split; [|split].
      * eapply get_fault; eassumption.
      * eapply increment_fault; eassumption.
      * intros s Hs. eapply store_fault; eassumption.
    + intros e He. eapply store_unserializable; eassumption.
    + intros s Hn Hg. eapply get_garbage; eassumption.
Qed.

Lemma store_errors_are_contained_witness :
  enabled (cache_config world_down) = true
  /\ redis_client world_down = Some redis_url
  /\ net world_down = [Some RedisConnectionError]
  /\ get_cached_data_by_key float_add_any "k" world_down = (Ok PNone, set_net [] world_down)
  /\ store_data_with_key "k" (PInt 7) None world_down = (Ok false, set_net [] world_down)
  /\ store_data_with_key "k" (PObject "<set>") None world_on = (Ok false, world_on).
Proof.
  destruct (store_errors_are_contained float_add_any world_down "k" (PInt 7) None)
    as (_ & _ & _ & Hconn).
  destruct (Hconn redis_url eq_refl eq_refl) as (Hfault & _ & _).
  destruct (Hfault RedisConnectionError [] eq_refl) as (Hget & _ & Hput).
  destruct (store_errors_are_contained float_add_any world_on "k" (PObject "<set>") None)
    as (_ & _ & _ & Hconn').
  destruct (Hconn' redis_url eq_refl eq_refl) as (_ & Hser & _).
  do 3 (split; [reflexivity|]).
  split; [exact Hget|].
  split; [exact (Hput "7" eq_refl) | exact (Hser TypeError eq_refl)].
Defined.
(** ** Put, get and the request count *)

Section live_entry.
Variables (now : Z) (d : keyspace) (k : string) (t : text) (T : Z).
Hypothesis Hk : d !! k = Some (Entry t (Some T)).
Hypothesis Hlive : now < T.

Lemma lookup_live_entry : lookup_live now d k = Some (Entry t (Some T)).
Proof.
    unfold lookup_live, live. rewrite Hk. cbn.
    rewrite bool_decide_eq_true_2 by assumption. reflexivity.
Qed.

Lemma redis_get_live : redis_get now d k = Some t.
Proof. unfold redis_get. rewrite lookup_live_entry. reflexivity. Qed.

Lemma redis_ttl_live : redis_ttl now d k = T - now.
Proof. unfold redis_ttl. rewrite lookup_live_entry. reflexivity. Qed.

Lemma redis_expire_live secs :
    0 < secs -> redis_expire now d k secs = <[k := Entry t (Some (now + secs))]> d.
Proof.
    intros Hs. unfold redis_expire. rewrite lookup_live_entry.
    rewrite bool_decide_eq_true_2 by assumption. reflexivity.
Qed.
End live_entry.

Lemma redis_get_insert now (d : keyspace) k t T :
  now < T -> redis_get now (<[k := Entry t (Some T)]> d) k = Some t.
Proof. intros H. eapply redis_get_live; [apply lookup_insert_eq | exact H]. Qed.

Lemma redis_get_insert_ne now (d : keyspace) k k' e :
  k <> k' -> redis_get now (<[k := e]> d) k' = redis_get now d k'.
Proof.
  intros H. unfold redis_get, lookup_live. rewrite lookup_insert_ne by assumption.
  reflexivity.
Qed.

Section put_get.
Variable float_add : string -> Z -> string.

  (** A put that goes through writes the wrapped payload with count 1. *)
Lemma store_ok cache_key data expiration_arg w c s :
    enabled (cache_config w) = true -> redis_client w = Some c -> net w = [] ->
    json_dumps false data = Ok s ->
    0 < default (expiration (cache_config w)) expiration_arg ->
    store_data_with_key cache_key data expiration_arg w
    = (Ok true,
       set_db (<[cache_key :=
                   Entry (Encoded (cache_entry data (clock w) 1))
                         (Some (clock w + default (expiration (cache_config w))
                                            expiration_arg))]> (db w)) w).
Proof.
    intros Hon Hc Hn Hs Hexp. erewrite store_connected by eassumption.
    apply catch_ok. erewrite store_try_connected by eassumption. rewrite Hs.
    erewrite bind_ok by (apply client_setex_quiet; assumption). reflexivity.
Qed.

  (** The increment on a live entry written by a put: the count goes up by
      one and the key keeps the expiry time it had. *)
Lemma increment_live cache_key data at_ count T w c s :
    redis_client w = Some c -> net w = [] ->
    json_dumps false data = Ok s ->
    db w !! cache_key = Some (Entry (Encoded (cache_entry data at_ count)) (Some T)) ->
    clock w < T ->
    increment_request_count float_add cache_key w
    = (Ok (PInt (count + 1)),
       set_db (<[cache_key :=
                   Entry (Encoded (cache_entry data at_ (count + 1))) (Some T)]> (db w)) w).
Proof.
    intros Hc Hn Hs Hk Hlive.
    unfold increment_request_count. apply catch_ok.
    unfold increment_request_count_try.
    erewrite bind_ok by (apply get_redis_client_connected, Hc). cbn [is_none].
    erewrite bind_ok by (apply client_get_quiet, Hn).
    erewrite redis_get_live by eassumption. cbn [text_truthy negb].
    apply catch_ok.
    erewrite bind_ok by reflexivity.
    erewrite bind_ok by reflexivity.
    erewrite bind_ok by reflexivity.
    erewrite bind_ok by reflexivity.
    erewrite bind_ok by (apply client_ttl_quiet, Hn).
    erewrite redis_ttl_live by eassumption.
    rewrite bool_decide_eq_true_2 by lia.
    set (new_ttl := Z.max (T - clock w) (expiration (cache_config w))).
    assert (0 < new_ttl) by (unfold new_ttl; lia).
    set (w1 := set_db (<[cache_key :=
                           Entry (Encoded (cache_entry data at_ count))
                                 (Some (clock w + new_ttl))]> (db w)) w).
    set (new_text := Encoded (cache_entry data at_ (count + 1))).
    rewrite (bind_ok _ _ w tt (set_db (<[cache_key :=
                 Entry new_text (Some (clock w1 + (T - clock w)))]> (db w1)) w1)).
    2:{ rewrite (bind_ok _ _ w (cache_config w) w) by reflexivity.
        rewrite (bind_ok _ _ w tt w1).
        2:{ rewrite client_expire_quiet by exact Hn.
            rewrite (redis_expire_live _ _ _ _ _ Hk Hlive) by assumption.
            reflexivity. }
        rewrite (bind_ok _ _ w1 new_text w1).
        2:{ unfold lift. f_equal.
            exact (json_dumps_entry_ok data at_ (count + 1) s Hs). }
        apply client_setex_quiet; [exact Hn | cbn; lia]. }
    unfold ret. f_equal. subst w1. unfold set_db. cbn [db clock]. f_equal.
    rewrite insert_insert_eq.
    replace (clock w + (T - clock w)) with T by lia.
    reflexivity.
Qed.

  (** A get that hits such an entry returns the entry as stored, and leaves
      it with its count raised. *)
Lemma get_live cache_key data at_ count T w c s :
    enabled (cache_config w) = true -> redis_client w = Some c -> net w = [] ->
    json_dumps false data = Ok s ->
    db w !! cache_key = Some (Entry (Encoded (cache_entry data at_ count)) (Some T)) ->
    clock w < T ->
    get_cached_data_by_key float_add cache_key w
    = (Ok (cache_entry data at_ count),
       set_db (<[cache_key :=
                   Entry (Encoded (cache_entry data at_ (count + 1))) (Some T)]> (db w)) w).
Proof.
    intros Hon Hc Hn Hs Hk Hlive.
    unfold get_cached_data_by_key, bind at 1, gets. rewrite Hon. cbn [negb].
    apply catch_ok. unfold get_cached_data_by_key_try.
    erewrite bind_ok by (apply get_redis_client_connected, Hc). cbn [is_none].
    erewrite bind_ok by (apply client_get_quiet, Hn).
    erewrite redis_get_live by eassumption. cbn [text_truthy negb].
    apply catch_ok.
    erewrite bind_ok by reflexivity.
    erewrite bind_ok by (eapply increment_live; eassumption).
    reflexivity.
Qed.

  (** A get on a key that holds nothing alive misses and changes nothing. *)
Lemma get_absent cache_key w c :
    enabled (cache_config w) = true -> redis_client w = Some c -> net w = [] ->
    redis_get (clock w) (db w) cache_key = None ->
    get_cached_data_by_key float_add cache_key w = (Ok PNone, w).
Proof.
    intros Hon Hc Hn Hg.
    unfold get_cached_data_by_key, bind at 1, gets. rewrite Hon. cbn [negb].
    apply catch_ok. unfold get_cached_data_by_key_try.
    erewrite bind_ok by (apply get_redis_client_connected, Hc). cbn [is_none].
    erewrite bind_ok by (apply client_get_quiet, Hn). rewrite Hg. reflexivity.
Qed.

  (** An increment on a key that holds nothing alive does nothing. *)
Lemma increment_absent cache_key w c :
    redis_client w = Some c -> net w = [] ->
    redis_get (clock w) (db w) cache_key = None ->
    increment_request_count float_add cache_key w = (Ok PNone, w).
Proof.
    intros Hc Hn Hg. unfold increment_request_count. apply catch_ok.
    unfold increment_request_count_try.
    erewrite bind_ok by (apply get_redis_client_connected, Hc). cbn [is_none].
    erewrite bind_ok by (apply client_get_quiet, Hn). rewrite Hg. reflexivity.
Qed.
End put_get.

(** ** The disable flag *)

(** C3, as the code has it.  With the policy disabled, a get misses and a
    put writes nothing and reports failure: [store_data_with_key] returns
    [False] and [store_data] returns [None], neither raises; the state of
    the process and of the server is left as it was, so a key that held
    nothing is still missed once the policy is enabled again. *)
Theorem disabled_is_noop float_add (w : world) :
  enabled (cache_config w) = false ->
  forall key params analysis_type data expiration_arg,
    get_cached_data_by_key float_add key w = (Ok PNone, w)
    /\ get_cached_data float_add params analysis_type w = (Ok PNone, w)
    /\ store_data_with_key key data expiration_arg w = (Ok false, w)
    /\ store_data params analysis_type expiration_arg w = (Ok None, w)
    /\ (forall c, redis_client w = Some c -> net w = [] ->
          redis_get (clock w) (db w) key = None ->
          let w1 := (store_data_with_key key data expiration_arg w).2 in
          get_cached_data_by_key float_add key (enable_cache w1)
          = (Ok PNone, enable_cache w)).
Proof.
  intros Hoff key params analysis_type data expiration_arg.
  assert (Hput : store_data_with_key key data expiration_arg w = (Ok false, w)).
  { unfold store_data_with_key, bind, gets, ret. rewrite Hoff. reflexivity. }
  repeat split.
  - unfold get_cached_data_by_key, bind, gets, ret. rewrite Hoff. reflexivity.
  - unfold get_cached_data, bind, gets, ret. rewrite Hoff. reflexivity.
  - exact Hput.
  - unfold store_data, bind, gets, ret. rewrite Hoff. reflexivity.
  - intros c Hc Hn Hnone. rewrite Hput. cbn [snd].
    eapply get_absent; [reflexivity | exact Hc | exact Hn | exact Hnone].
Qed.

Lemma disabled_is_noop_witness :
  enabled (cache_config world_off) = false
  /\ store_data_with_key "k" (PInt 7) None world_off = (Ok false, world_off)
  /\ get_cached_data_by_key float_add_any "k" world_off = (Ok PNone, world_off)
  /\ get_cached_data_by_key float_add_any "k"
       (enable_cache (store_data_with_key "k" (PInt 7) None world_off).2)
     = (Ok PNone, enable_cache world_off).
Proof.
  split; [reflexivity|].
  destruct (disabled_is_noop float_add_any world_off eq_refl
              "k" [] "" (PInt 7) None) as (Hget & _ & Hput & _ & Hagain).
  split; [exact Hput|]. split; [exact Hget|].
  exact (Hagain redis_url eq_refl eq_refl eq_refl).
Defined.

(** The claim as the spec words it fails: a put under a disabled policy
    does not report success. *)
Lemma disabled_put_reports_failure :
  (store_data_with_key "k" (PInt 7) None world_off).1 <> Ok true
  /\ (store_data [("region", PStr "X")] "" None world_off).1 = Ok None.
Proof. split; [vm_compute; discriminate | vm_compute; reflexivity]. Qed.

Section request_count.
Variable float_add : string -> Z -> string.

Lemma stored_request_count_entry w k data at_ count T :
    db w !! k = Some (Entry (Encoded (cache_entry data at_ count)) (Some T)) ->
    clock w < T ->
    stored_request_count w k = Some (PInt count).
Proof.
    intros Hk Hlive. unfold stored_request_count.
    erewrite redis_get_live by eassumption. reflexivity.
Qed.

Lemma elapsed_nonneg delays : Forall (fun d => 0 <= d) delays -> 0 <= elapsed delays.
Proof. induction 1; unfold elapsed in *; cbn; lia. Qed.

Lemma elapsed_cons d ds : elapsed (d :: ds) = d + elapsed ds.
Proof. reflexivity. Qed.

  (** Hits on a live entry: every get returns the entry, and the count
      stored grows by the number of gets. *)
Lemma gets_in_a_row_live cache_key data at_ T c s delays :
    json_dumps false data = Ok s ->
    Forall (fun d => 0 <= d) delays ->
    forall w count,
      enabled (cache_config w) = true -> redis_client w = Some c -> net w = [] ->
      db w !! cache_key = Some (Entry (Encoded (cache_entry data at_ count)) (Some T)) ->
      clock w + elapsed delays < T ->
      let (rs, wn) := gets_in_a_row float_add cache_key delays w in
      Forall (fun r => exists n, r = Ok (cache_entry data at_ n)) rs
      /\ length rs = length delays
      /\ enabled (cache_config wn) = true /\ redis_client wn = Some c /\ net wn = []
      /\ cache_config wn = cache_config w
      /\ db wn !! cache_key
         = Some (Entry (Encoded (cache_entry data at_ (count + Z.of_nat (length delays))))
                       (Some T))
      /\ clock wn = clock w + elapsed delays.
Proof.
    intros Hs Hpos. induction Hpos as [|d ds Hd Hds IH]; intros w count Hon Hc Hn Hk Hlive.
    - cbn. rewrite !Z.add_0_r. repeat split; auto.
    - pose proof (elapsed_nonneg ds Hds) as Hge.
      rewrite elapsed_cons in *. cbn [gets_in_a_row].
      set (w0 := set_clock (clock w + d) w).
      rewrite (get_live float_add cache_key data at_ count T w0 c s Hon Hc Hn Hs Hk)
        by (cbn; lia).
      set (w1 := set_db _ w0).
      specialize (IH w1 (count + 1) Hon Hc Hn).
      destruct (gets_in_a_row float_add cache_key ds w1) as [rs wn].
      destruct IH as (Hrs & Hlen & Hon' & Hc' & Hn' & Hcfg & Hk' & Hclock).
      { cbn. apply lookup_insert_eq. }
      { cbn. lia. }
      repeat split; try assumption.
      + constructor; [eauto | assumption].
      + cbn. lia.
      + rewrite Hk'. do 4 f_equal. cbn [length]. lia.
      + rewrite Hclock. cbn. lia.
Qed.
End request_count.

(** C5. The request count starts at 1 on a put; after [n] gets in a row
    that find the entry alive, whatever the time between them, every get
    has hit and the stored count is [1 + n]; another put brings it back
    to 1. *)
Theorem request_count_counts_hits float_add (w : world) (cache_key : string)
    (data data' : value) (expiration_arg : option Z) (delays : list Z) c s s' :
  enabled (cache_config w) = true -> redis_client w = Some c -> net w = [] ->
  json_dumps false data = Ok s -> json_dumps false data' = Ok s' ->
  let ttl := default (expiration (cache_config w)) expiration_arg in
  0 < ttl -> Forall (fun d => 0 <= d) delays -> elapsed delays < ttl ->
  let (put, w1) := store_data_with_key cache_key data expiration_arg w in
  let (hits, wn) := gets_in_a_row float_add cache_key delays w1 in
  let (put', w') := store_data_with_key cache_key data' expiration_arg wn in
  put = Ok true
  /\ stored_request_count w1 cache_key = Some (PInt 1)
  /\ Forall (fun r => exists n, r = Ok (cache_entry data (clock w) n)) hits
  /\ length hits = length delays
  /\ stored_request_count wn cache_key = Some (PInt (1 + Z.of_nat (length delays)))
  /\ put' = Ok true
  /\ stored_request_count w' cache_key = Some (PInt 1).
Proof.
  intros Hon Hc Hn Hs Hs' ttl Httl Hpos Hsum.
  rewrite (store_ok cache_key data expiration_arg w c s) by assumption.
  fold ttl. set (w1 := set_db _ w).
  pose proof (gets_in_a_row_live float_add cache_key data (clock w) (clock w + ttl)
                c s delays Hs Hpos w1 1 Hon Hc Hn) as Hrun.
  destruct (gets_in_a_row float_add cache_key delays w1) as [hits wn].
  destruct Hrun as (Hhits & Hlen & Hon' & Hc' & Hn' & Hcfg & Hk & Hclock).
  { cbn. apply lookup_insert_eq. }
  { cbn. lia. }
  rewrite (store_ok cache_key data' expiration_arg wn c s') by (rewrite ?Hcfg; assumption).
  split; [reflexivity|]. split.
  { eapply stored_request_count_entry; [cbn; apply lookup_insert_eq | cbn; lia]. }
  split; [assumption|]. split; [assumption|]. split.
  { eapply stored_request_count_entry; [exact Hk | rewrite Hclock; cbn; lia]. }
  split; [reflexivity|].
  eapply stored_request_count_entry; [cbn; apply lookup_insert_eq |].
  rewrite Hcfg. cbn. fold ttl. lia.
Qed.

Lemma request_count_counts_hits_witness :
  let (put, w1) := store_data_with_key "k" (PInt 7) None world_on in
  let (hits, wn) := gets_in_a_row float_add_any "k" [0; 5; 60] w1 in
  put = Ok true
  /\ stored_request_count w1 "k" = Some (PInt 1)
  /\ length hits = 3%nat
  /\ stored_request_count wn "k" = Some (PInt 4).
Proof.
  pose proof (request_count_counts_hits float_add_any world_on "k" (PInt 7) (PInt 8) None
                [0; 5; 60] redis_url "7" "8"
                eq_refl eq_refl eq_refl eq_refl eq_refl) as H.
  cbv zeta in H.
  specialize (H ltac:(reflexivity)
                ltac:(repeat constructor; discriminate) ltac:(reflexivity)).
  destruct (store_data_with_key "k" (PInt 7) None world_on) as [put w1].
  destruct (gets_in_a_row float_add_any "k" [0; 5; 60] w1) as [hits wn].
  destruct (store_data_with_key "k" (PInt 8) None wn) as [put' w'].
  destruct H as (H1 & H2 & _ & H4 & H5 & _).
  auto.
Defined.

(** What a get returns after a put: the wrapped entry, with its metadata. *)
Lemma get_after_put float_add cache_key data expiration_arg w c s :
  enabled (cache_config w) = true -> redis_client w = Some c -> net w = [] ->
  json_dumps false data = Ok s ->
  0 < default (expiration (cache_config w)) expiration_arg ->
  let (put, w1) := store_data_with_key cache_key data expiration_arg w in
  put = Ok true
  /\ (get_cached_data_by_key float_add cache_key w1).1 = Ok (cache_entry data (clock w) 1).
Proof.
  intros Hon Hc Hn Hs Httl.
  rewrite (store_ok cache_key data expiration_arg w c s) by assumption.
  split; [reflexivity|].
  erewrite get_live; [reflexivity | try eassumption ..].
  - cbn. apply lookup_insert_eq.
  - cbn. lia.
Qed.

(** The wrapped entry is never the payload itself. *)
Lemma cache_entry_not_payload data now count : cache_entry data now count <> data.
Proof.
  intros H. apply (f_equal value_size) in H. unfold cache_entry in H. cbn in H. lia.
Qed.

(** C2, at the scenario of the spec: after
    [put({"region": "X", "scale": 30}, {"ndvi": 0.42})], the get with
    [{"scale": 30, "region": "X"}] hits, and returns the stored entry whole,
    [{"data": {"ndvi": 0.42}, "cached_at": 1000.0, "request_count": 1}],
    not its [data] field: the result is not the payload that was put. *)
Theorem get_returns_whole_entry float_add :
  let params := [("region", PStr "X"); ("scale", PInt 30)] in
  let params' := [("scale", PInt 30); ("region", PStr "X")] in
  let payload := PDict [("ndvi", PFloat "0.42")] in
  exists key w1 w2 result,
    _generate_cache_key (PDict params) = Ok key
    /\ store_data_with_key key payload None world_on = (Ok true, w1)
    /\ get_cached_data float_add params' "" w1 = (Ok result, w2)
    /\ result = PDict [("data", payload); ("cached_at", PFloat "1000.0");
                       ("request_count", PInt 1)]
    /\ result <> payload
    /\ py_get result "data" PNone = Ok payload.
Proof.
  intros params params' payload.
  do 4 eexists.
  split; [vm_compute; reflexivity|].
  split; [vm_compute; reflexivity|].
  split; [vm_compute; reflexivity|].
  split; [reflexivity|].
  split; [discriminate | reflexivity].
Qed.

(** ** The increment and the time to live *)

(** C4, where the code departs from it: on an entry with 100 seconds left
    and a default expiration of 604800 seconds, the increment raises the
    count to 2 and leaves the key with the 100 seconds it had; the time to
    live is not extended to the default. *)
Theorem increment_keeps_short_ttl float_add :
  redis_ttl (clock world_short_ttl) (db world_short_ttl) "k" = 100
  /\ expiration (cache_config world_short_ttl) = 604800
  /\ exists w',
      increment_request_count float_add "k" world_short_ttl = (Ok (PInt 2), w')
      /\ stored_request_count w' "k" = Some (PInt 2)
      /\ redis_ttl (clock w') (db w') "k" = 100.
Proof.
  split; [vm_compute; reflexivity|]. split; [reflexivity|].
  eexists. split; [vm_compute; reflexivity|].
  split; vm_compute; reflexivity.
Qed.

(** The same in general: the increment never changes when the key expires. *)
Lemma increment_preserves_expiry float_add cache_key data at_ count T w c s :
  redis_client w = Some c -> net w = [] ->
  json_dumps false data = Ok s ->
  db w !! cache_key = Some (Entry (Encoded (cache_entry data at_ count)) (Some T)) ->
  clock w < T ->
  let (r, w') := increment_request_count float_add cache_key w in
  r = Ok (PInt (count + 1))
  /\ redis_ttl (clock w') (db w') cache_key = redis_ttl (clock w) (db w) cache_key
  /\ stored_request_count w' cache_key = Some (PInt (count + 1)).
Proof.
  intros Hc Hn Hs Hk Hlive.
  erewrite increment_live by eassumption.
  split; [reflexivity|]. split.
  - cbn. erewrite !redis_ttl_live; try eassumption; [reflexivity|].
    apply lookup_insert_eq.
  - eapply stored_request_count_entry; [cbn; apply lookup_insert_eq | exact Hlive].
Qed.

(** ** The keys of [store_data] and [get_cached_data] *)

Lemma dict_set_same k v (d : dict) :
  dict_set k v d = d <-> dict_get k d = Some v.
Proof.
  induction d as [|[k' v'] d IH]; cbn.
  - split; discriminate.
  - destruct (decide (k' = k)) as [->|Hne].
    + split; [intros [= ->]; reflexivity | intros [= ->]; reflexivity].
    + rewrite <- IH. split; [intros [= H]; exact H | intros ->; reflexivity].
Qed.

Section store_and_get.
Variable float_add : string -> Z -> string.

Lemma store_data_ok data analysis_type expiration_arg w c s key :
    enabled (cache_config w) = true -> redis_client w = Some c -> net w = [] ->
    json_dumps false (PDict data) = Ok s ->
    0 < default (expiration (cache_config w)) expiration_arg ->
    _generate_cache_key (PDict (store_key_input data analysis_type)) = Ok key ->
    store_data data analysis_type expiration_arg w
    = (Ok (Some key),
       set_db (<[key := Entry (Encoded (cache_entry (PDict data) (clock w) 1))
                          (Some (clock w + default (expiration (cache_config w))
                                             expiration_arg))]> (db w)) w).
Proof.
    intros Hon Hc Hn Hs Httl Hkey.
    unfold store_data, bind at 1, gets. rewrite Hon. cbn [negb].
    apply catch_ok. fold (store_key_input data analysis_type).
    erewrite bind_ok by (unfold lift; rewrite Hkey; reflexivity).
    erewrite bind_ok by (eapply store_ok; eassumption).
    reflexivity.
Qed.

Lemma get_cached_data_key params analysis_type w key :
    enabled (cache_config w) = true ->
    _generate_cache_key (PDict params) = Ok key ->
    get_cached_data float_add params analysis_type w
    = get_cached_data_by_key float_add key w.
Proof.
    intros Hon Hkey. unfold get_cached_data, bind at 1, gets. rewrite Hon. cbn [negb].
    erewrite bind_ok by (unfold lift; rewrite Hkey; reflexivity).
    reflexivity.
Qed.
End store_and_get.

(** ** The file cache sweep *)

Ltac by_decide :=
  match goal with |- ?P => apply (bool_decide_unpack P); vm_compute; exact I end.

Lemma filter_ext_in {A} (P Q : A -> Prop) `{!forall x, Decision (P x), !forall x, Decision (Q x)}
    (l : list A) :
  (forall x, x ∈ l -> P x <-> Q x) -> filter P l = filter Q l.
Proof.
  induction l as [|a l IH]; intros Hext; [reflexivity|].
  rewrite !filter_cons.
  rewrite IH by (intros x Hx; apply Hext; by right).
  pose proof (Hext a ltac:(by left)) as Ha.
  destruct (decide (P a)) as [HP|HP], (decide (Q a)) as [HQ|HQ];
    try reflexivity; tauto.
Qed.

Lemma filter_all {A} (P : A -> Prop) `{!forall x, Decision (P x)} (l : list A) :
  (forall x, x ∈ l -> P x) -> filter P l = l.
Proof.
  induction l as [|a l IH]; intros Hall; [reflexivity|].
  rewrite filter_cons_True by (apply Hall; by left).
  f_equal. apply IH. intros x Hx. apply Hall. by right.
Qed.

Lemma NoDup_fmap_elem_inj {A B} (f : A -> B) (l : list A) x y :
  NoDup (f <$> l) -> x ∈ l -> y ∈ l -> f x = f y -> x = y.
Proof.
  intros Hnd [i Hi]%list_elem_of_lookup [j Hj]%list_elem_of_lookup Hxy.
  assert (i = j) as ->.
  { apply (NoDup_lookup _ _ _ (f x) Hnd);
      rewrite list_lookup_fmap; [rewrite Hi | rewrite Hj, Hxy]; reflexivity. }
  congruence.
Qed.

Section sweep.
Variables (now max_age_days : Z).

Local Abbreviation E := (fun f : file => expired now max_age_days f = true).

Local Abbreviation gone listing :=
    (fun g : file => filename g ∈ filename <$> filter E listing).

Lemma sweep_sound listing :
    Forall (sound now max_age_days) listing ->
    forall n fs,
      sweep now (max_age_days * 86400) listing (n, fs)
      = (Ok tt, (n + Z.of_nat (length (filter E listing)),
                 filter (fun g => ~ gone listing g) fs)).
Proof.
    induction 1 as [|f rest Hf Hrest IH]; intros n fs.
    - cbn. rewrite Z.add_0_r, filter_all; [reflexivity|].
      intros x _. cbn. apply not_elem_of_nil.
    - cbn [sweep]. unfold sound in Hf.
      destruct (isdir f) eqn:Hdir.
      + rewrite IH. rewrite filter_cons_False by (unfold expired; rewrite Hdir; cbn; congruence).
        reflexivity.
      + destruct (Hf eq_refl) as (m & Hm & Hrem). rewrite Hm.
        destruct (bool_decide (now - m > max_age_days * 86400)) eqn:Hage.
        * apply bool_decide_eq_true in Hage.
          unfold os_remove. rewrite (Hrem Hage). cbn [fst snd].
          rewrite IH.
          rewrite filter_cons_True
            by (unfold expired; rewrite Hdir, Hm; cbn; by apply bool_decide_eq_true).
          cbn [length]. rewrite list_filter_filter.
          f_equal. f_equal; [lia|].
          apply list_filter_iff. intros g.
          rewrite fmap_cons, elem_of_cons. tauto.
        * apply bool_decide_eq_false in Hage.
          rewrite IH.
          rewrite filter_cons_False
            by (unfold expired; rewrite Hdir, Hm; cbn;
                rewrite bool_decide_eq_false_2 by assumption; congruence).
          reflexivity.
Qed.

Lemma sweep_failing f rest st :
    failing now max_age_days f -> exists e, sweep now (max_age_days * 86400) (f :: rest) st = (Raise e, st).
Proof.
    intros (Hdir & [[e He]|(m & Hm & Hage & Hrem)]); cbn [sweep]; rewrite Hdir.
    - rewrite He. eauto.
    - rewrite Hm, bool_decide_eq_true_2 by assumption.
      unfold os_remove. rewrite Hrem. eauto.
Qed.

Lemma sweep_app l1 l2 st :
    sweep now (max_age_days * 86400) (l1 ++ l2) st
    = match sweep now (max_age_days * 86400) l1 st with
      | (Ok _, st') => sweep now (max_age_days * 86400) l2 st'
      | (Raise e, st') => (Raise e, st')
      end.
Proof.
    revert st. induction l1 as [|f l1 IH]; intros st; [reflexivity|].
    cbn [app sweep]. destruct (isdir f); [apply IH|].
    destruct (getmtime f) as [m|e]; [|reflexivity].
    destruct (bool_decide _); [|apply IH].
    destruct (os_remove f st.2); [apply IH | reflexivity].
Qed.

  (** With distinct names, the entries that are gone are the expired ones. *)
Lemma gone_iff_expired l g :
    NoDup (filename <$> l) -> g ∈ l -> gone l g <-> E g.
Proof.
    intros Hnd Hg. rewrite list_elem_of_fmap. split.
    - intros (f & Hname & [HE Hf]%list_elem_of_filter).
      assert (g = f) as -> by (eapply NoDup_fmap_elem_inj; eauto). exact HE.
    - intros HE. exists g. split; [reflexivity|]. apply list_elem_of_filter. auto.
Qed.
End sweep.

Lemma expired_spec now max_age_days f :
  expired now max_age_days f = true
  <-> isdir f = false
      /\ exists m, getmtime f = Ok m /\ now - m > max_age_days * 86400.
Proof.
  unfold expired. destruct (isdir f), (getmtime f) as [m|e]; cbn;
    rewrite ?bool_decide_eq_true; split; try discriminate;
    try (intros [? _]; discriminate); try (intros [_ (? & ? & _)]; discriminate).
  - eauto.
  - intros [_ (m' & [= <-] & H)]. exact H.
Qed.

Lemma clean_expired_files_sound max_age_days d :
  makedirs_ok d = true -> listdir_ok d = true ->
  NoDup (filename <$> files d) ->
  Forall (sound (disk_clock d) max_age_days) (files d) ->
  clean_expired_files max_age_days d
  = (Ok (Z.of_nat (length (filter (fun f => expired (disk_clock d) max_age_days f = true)
                             (files d)))),
     Disk (disk_clock d) true true
          (filter (fun f => expired (disk_clock d) max_age_days f <> true) (files d))).
Proof.
  intros Hmk Hls Hnd Hsound. unfold clean_expired_files.
  rewrite Hmk, Hls. cbn [negb].
  rewrite sweep_sound by assumption. rewrite Z.add_0_l. do 2 f_equal.
  apply filter_ext_in. intros g Hg.
  rewrite (gone_iff_expired _ _ _ _ Hnd Hg). reflexivity.
Qed.

(** C8. When no operation fails, the sweep removes exactly the regular
    files whose age is strictly beyond [max_age_days] days, and returns
    how many they are: a file whose modification time is exactly at the
    threshold stays, one older than that goes. *)
Theorem clean_expired_files_removes_old (max_age_days : Z) (d : disk) :
  makedirs_ok d = true -> listdir_ok d = true ->
  NoDup (filename <$> files d) ->
  Forall (sound (disk_clock d) max_age_days) (files d) ->
  let now := disk_clock d in
  let (r, d') := clean_expired_files max_age_days d in
  r = Ok (Z.of_nat (length (filter (fun f => expired now max_age_days f = true) (files d))))
  /\ (forall f, f ∈ files d' -> f ∈ files d)
  /\ (forall f, f ∈ files d ->
        f ∉ files d'
        <-> isdir f = false
            /\ exists m, getmtime f = Ok m /\ now - m > max_age_days * 86400)
  /\ (forall f, f ∈ files d -> isdir f = false ->
        getmtime f = Ok (now - max_age_days * 86400) -> f ∈ files d')
  /\ (forall f m, f ∈ files d -> isdir f = false ->
        getmtime f = Ok m -> m < now - max_age_days * 86400 -> f ∉ files d').
Proof.
  intros Hmk Hls Hnd Hsound now.
  rewrite clean_expired_files_sound by assumption. fold now. cbn [files].
  assert (Hiff : forall f, f ∈ files d ->
            f ∉ filter (fun f => expired now max_age_days f <> true) (files d)
            <-> expired now max_age_days f = true).
  { intros f Hf. rewrite list_elem_of_filter. split.
    - intros Hn. destruct (expired now max_age_days f) eqn:He; [reflexivity|].
      exfalso. apply Hn. split; [discriminate | assumption].
    - intros He [Hn _]. contradiction. }
  split; [reflexivity|]. split.
  { intros f [_ Hf]%list_elem_of_filter. exact Hf. }
  split.
  { intros f Hf. rewrite (Hiff f Hf). apply expired_spec. }
  split.
  - intros f Hf Hdir Hm. apply list_elem_of_filter. split; [|assumption].
    intros (_ & m & Hm' & Hage)%expired_spec.
    rewrite Hm in Hm'. injection Hm' as <-. lia.
  - intros f m Hf Hdir Hm Hlt. apply (Hiff f Hf), expired_spec.
    split; [assumption|]. exists m. split; [assumption | lia].
Qed.

Lemma clean_expired_files_removes_old_witness :
  let (r, d') := clean_expired_files 7 disk_ok in
  r = Ok 1
  /\ file_at_threshold ∈ files d'
  /\ file_older ∉ files d'.
Proof.
  pose proof (clean_expired_files_removes_old 7 disk_ok eq_refl eq_refl) as H.
  assert (Hnd : NoDup (filename <$> files disk_ok)) by by_decide.
  assert (Hsound : Forall (sound (disk_clock disk_ok) 7) (files disk_ok)).
  { repeat constructor; intros _; eexists; (split; [reflexivity | reflexivity]). }
  specialize (H Hnd Hsound). cbv zeta in H.
  destruct (clean_expired_files 7 disk_ok) as [r d'].
  destruct H as (Hr & _ & _ & Hkeep & Hgo).
  split; [exact Hr|]. split.
  - apply Hkeep; [repeat constructor | reflexivity | reflexivity].
  - apply (Hgo file_older 395199);
      [repeat constructor | reflexivity | reflexivity | reflexivity].
Defined.

(** C9, as the code has it.  The [try] is around the whole loop: the first
    operation that fails on a file ends the sweep.  The files listed before
    it are swept as usual, the failing file and those listed after it are
    left in place, and the count returned is that of the files removed
    before the error; no exception reaches the caller. *)
Theorem clean_expired_files_stops_at_error (max_age_days : Z) (d : disk)
    (before after : list file) (f : file) :
  makedirs_ok d = true -> listdir_ok d = true ->
  NoDup (filename <$> files d) ->
  files d = before ++ f :: after ->
  Forall (sound (disk_clock d) max_age_days) before ->
  failing (disk_clock d) max_age_days f ->
  let now := disk_clock d in
  let (r, d') := clean_expired_files max_age_days d in
  r = Ok (Z.of_nat (length (filter (fun g => expired now max_age_days g = true) before)))
  /\ files d'
     = filter (fun g => expired now max_age_days g <> true) before ++ f :: after.
Proof.
  intros Hmk Hls Hnd Hfiles Hsound Hfail now.
  unfold clean_expired_files. rewrite Hmk, Hls. cbn [negb].
  set (st := (0, files d)). rewrite Hfiles. subst st.
  rewrite sweep_app, sweep_sound by assumption.
  destruct (sweep_failing now max_age_days f after
              (0 + Z.of_nat (length (filter (fun g => expired now max_age_days g = true) before)),
               filter (fun g => ~ filename g
                                  ∈ filename <$> filter (fun g => expired now max_age_days g = true) before)
                      (files d)) Hfail) as [e He].
  fold now. rewrite He. cbn [files]. split; [rewrite Z.add_0_l; reflexivity|].
  rewrite Hfiles in Hnd |- *. rewrite fmap_app in Hnd.
  apply NoDup_app in Hnd as (Hnd1 & Hdisj & Hnd2).
  rewrite filter_app. f_equal.
  - apply filter_ext_in. intros g Hg.
    rewrite (gone_iff_expired _ _ _ _ Hnd1 Hg). reflexivity.
  - apply filter_all. intros g Hg Hgone.
    apply (Hdisj (filename g)); [|apply list_elem_of_fmap; eauto].
    apply list_elem_of_fmap in Hgone as (h & -> & [_ Hh]%list_elem_of_filter).
    apply list_elem_of_fmap. eauto.
Qed.

Lemma clean_expired_files_stops_at_error_witness :
  let (r, d') := clean_expired_files 7 disk_locked in
  r = Ok 0 /\ files d' = [file_locked; file_stale].
Proof.
  pose proof (clean_expired_files_stops_at_error 7 disk_locked [] [file_stale] file_locked
                eq_refl eq_refl) as H.
  assert (Hnd : NoDup (filename <$> files disk_locked))
    by by_decide.
  assert (Hfail : failing (disk_clock disk_locked) 7 file_locked).
  { split; [reflexivity|]. right. exists 0. repeat split; reflexivity. }
  specialize (H Hnd eq_refl (Forall_nil_2 _) Hfail). cbv zeta in H.
  destruct (clean_expired_files 7 disk_locked) as [r d'].
  exact H.
Defined.

(** The claim as the spec words it fails: the removal of the first file
    fails, and the sweep does not go on to the second, which is old enough
    and could be removed; it is still there, and the count is 0. *)
Lemma sweep_aborts_on_first_error :
  let (r, d') := clean_expired_files 7 disk_locked in
  expired (disk_clock disk_locked) 7 file_stale = true
  /\ removable file_stale = true
  /\ file_stale ∈ files d'
  /\ r = Ok 0.
Proof.
  vm_compute. repeat split; try reflexivity.
  apply list_elem_of_In. right. left. reflexivity.
Qed.

Ltac dict_cases :=
  repeat match goal with
    | |- context [decide (?a = ?k)] =>
        is_var k; destruct (decide (a = k)) as [<-|?]; cbn [dict_get]
    | |- context [decide (?a = ?b)] =>
        destruct (decide (a = b)); [try discriminate; try congruence | try congruence]
    end.

Ltac same_content_by_cases :=
  repeat first
    [ apply sc_atom; reflexivity
    | apply sc_list; repeat constructor
    | apply sc_dict; intros ?; cbn [dict_get]; dict_cases; constructor ].

Lemma generate_cache_key_order_invariant_witness :
  unique_keys (PDict request_a) = true
  /\ unique_keys (PDict request_b) = true
  /\ same_content (PDict request_a) (PDict request_b)
  /\ _generate_cache_key (PDict request_a) = _generate_cache_key (PDict request_b).
Proof.
  assert (Ha : unique_keys (PDict request_a) = true) by (vm_compute; reflexivity).
  assert (Hb : unique_keys (PDict request_b) = true) by (vm_compute; reflexivity).
  assert (Hsc : same_content (PDict request_a) (PDict request_b)).
  { unfold request_a, request_b. same_content_by_cases. }
  split; [exact Ha|]. split; [exact Hb|]. split; [exact Hsc|].
  exact (proj1 generate_cache_key_order_invariant request_a request_b Ha Hb Hsc).
Defined.

(** * Further properties of the cache module *)

(** ** Key derivation: canonical form and shape of the key *)

Section mapM_outcome.
Context {A B : Type} (g : A -> outcome B).

Lemma mapM_Ok_fmap (h : A -> B) (l : list A) :
  (forall x, x ∈ l -> g x = Ok (h x)) -> mapM g l = Ok (h <$> l).
Proof.
  induction l as [|x l IH]; intros Hg; [reflexivity|].
  cbn. rewrite (Hg x) by (by left). cbn.
  rewrite IH by (intros y Hy; apply Hg; by right). reflexivity.
Qed.

Lemma mapM_ext_in (g' : A -> outcome B) (l : list A) :
  (forall x, x ∈ l -> g x = g' x) -> mapM g l = mapM g' l.
Proof.
  induction l as [|x l IH]; intros Hg; [reflexivity|].
  cbn. rewrite (Hg x) by (by left).
  rewrite IH by (intros y Hy; apply Hg; by right). reflexivity.
Qed.

Lemma mapM_Raise_elem (l : list A) e :
  mapM g l = Raise e -> exists x e', x ∈ l /\ g x = Raise e'.
Proof.
  revert e. induction l as [|x l IH]; intros e; cbn; [discriminate|].
  destruct (g x) as [y|e'] eqn:Hx; cbn.
  - destruct (mapM g l) as [ys|e''] eqn:Hm; cbn; [discriminate|].
    intros _. destruct (IH e'' eq_refl) as (x' & e3 & Hin & Hx').
    exists x', e3. split; [by right | assumption].
  - intros _. exists x, e'. split; [by left | assumption].
Qed.

Lemma mapM_Ok_elem (l : list A) ys x :
  mapM g l = Ok ys -> x ∈ l -> exists y, g x = Ok y.
Proof.
  revert ys. induction l as [|a l IH]; intros ys; cbn; [intros _ H; inversion H|].
  destruct (g a) as [y|e'] eqn:Ha; cbn; [|discriminate].
  destruct (mapM g l) as [ys'|e''] eqn:Hm; cbn; [|discriminate].
  intros _ [->|Hin]%elem_of_cons; eauto.
Qed.
End mapM_outcome.

Lemma mapM_fmap_outcome {A B C} (g : B -> outcome C) (f : A -> B) (l : list A) :
  mapM g (f <$> l) = mapM (fun x => g (f x)) l.
Proof.
  induction l as [|x l IH]; [reflexivity|]. cbn. rewrite IH. reflexivity.
Qed.

(** Encoding the items of a dictionary commutes with putting them in key
    order. *)
Lemma mapM_sorted {A B} (g : string * A -> outcome (string * B)) (l : list (string * A)) :
  (forall x y, g x = Ok y -> y.1 = x.1) ->
  (forall x e, g x = Raise e -> e = TypeError) ->
  mapM g (sorted l) = sorted <$> mapM g l.
Proof.
  intros Hkey Herr.
  destruct (mapM g l) as [ys|e] eqn:Hm.
  - destruct ys as [|y0 ys'].
    { destruct l as [|x l]; [reflexivity|]. cbn in Hm.
      destruct (g x); cbn in Hm; [|discriminate].
      destruct (mapM g l); discriminate. }
    set (ys := y0 :: ys') in *.
    set (h := fun x => match g x with Ok y => y | Raise _ => (x.1, y0.2) end).
    assert (Hh : forall x, x ∈ l -> g x = Ok (h x)).
    { intros x Hx. destruct (mapM_Ok_elem g l ys x Hm Hx) as [y Hy].
      unfold h. rewrite Hy. reflexivity. }
    rewrite (mapM_Ok_fmap g h l Hh) in Hm. injection Hm as <-.
    rewrite (mapM_Ok_fmap g h).
    + cbn. f_equal. symmetry. apply sorted_fmap.
      intros x. unfold h. destruct (g x) eqn:Hx; [eauto | reflexivity].
    + intros x Hx. apply Hh. by rewrite <- (sorted_perm l).
  - destruct (mapM_Raise_elem g l e Hm) as (x & e' & Hx & Hgx).
    destruct (mapM g (sorted l)) as [ys|e''] eqn:Hm'.
    + destruct (mapM_Ok_elem g (sorted l) ys x Hm') as [y Hy];
        [by rewrite sorted_perm | congruence].
    + cbn. f_equal.
      pose proof (mapM_raises_TypeError g l e) as He.
      pose proof (mapM_raises_TypeError g (sorted l) e'') as He''.
      rewrite He, He''; auto; apply Forall_forall; intros; eapply Herr; eauto.
Qed.

Lemma sorted_idemp {A} (l : list (string * A)) :
  NoDup l.*1 -> sorted (sorted l) = sorted l.
Proof. intros Hnd. apply sorted_unique; [assumption | apply sorted_perm]. Qed.

(** [json.dumps(..., sort_keys=True)] gives the same text before and after
    [sort_dict_recursive]. *)
Lemma json_dumps_sorted_canonical v :
  unique_keys v = true ->
  json_dumps true (sort_dict_recursive v) = json_dumps true v.
Proof.
  induction v as [| | | | |l IH|d IH|] using value_nested_ind; intros Hu;
    try reflexivity.
  - cbn [sort_dict_recursive json_dumps].
    rewrite mapM_fmap_outcome.
    rewrite (mapM_ext_in _ (json_dumps true) l); [reflexivity|].
    cbn in Hu. rewrite forallb_forall in Hu. rewrite Forall_forall in IH.
    intros x Hx. apply IH; [assumption|]. apply Hu. by apply list_elem_of_In.
  - apply unique_keys_dict in Hu as [Hnd Hu]. rewrite Forall_forall in IH.
    cbn [sort_dict_recursive json_dumps].
    set (f := fun kv : string * value => (kv.1, sort_dict_recursive kv.2)).
    set (g := fun kv : string * value => s ← json_dumps true kv.2; Ok (kv.1, s)).
    assert (Hgkey : forall x y, g x = Ok y -> y.1 = x.1).
    { intros x y. unfold g. destruct (json_dumps true x.2); cbn; [|discriminate].
      intros [= <-]. reflexivity. }
    assert (Hgerr : forall x e, g x = Raise e -> e = TypeError).
    { intros x e. unfold g. destruct (json_dumps true x.2) eqn:Hx; cbn; [discriminate|].
      intros [= <-]. eapply json_dumps_raises_TypeError; eassumption. }
    rewrite (sorted_fmap f) by reflexivity.
    rewrite mapM_fmap_outcome.
    rewrite (mapM_ext_in _ g (sorted d)).
    2:{ intros [k v] Hx. rewrite sorted_perm in Hx. unfold g, f. cbn [fst snd].
        pose proof (IH (k, v) Hx (Hu k v Hx)) as Hv. cbn [snd] in Hv.
        rewrite Hv. reflexivity. }
    rewrite (mapM_sorted g d Hgkey Hgerr).
    destruct (mapM g d) as [items|e] eqn:Hm; [|reflexivity].
    cbn. rewrite sorted_idemp; [reflexivity|].
    assert (items.*1 = d.*1) as ->; [|assumption].
    clear -Hm Hgkey. revert items Hm.
    induction d as [|x d IHd]; intros items; cbn.
    + intros [= <-]. reflexivity.
    + destruct (g x) as [y|] eqn:Hx; cbn; [|discriminate].
      destruct (mapM g d) as [ys|]; cbn; [|discriminate].
      intros [= <-]. cbn. f_equal; [eapply Hgkey; eassumption | apply IHd; reflexivity].
Qed.

(** X1. For a mapping with distinct keys the key is the hash of
    [json.dumps(mapping, sort_keys=True)]: the pass of
    [sort_dict_recursive] adds nothing to it.  A caller that passes this
    JSON text as a string gets the key of the mapping. *)
Theorem key_of_mapping_is_hash_of_sorted_json (d : dict) :
  unique_keys (PDict d) = true ->
  _generate_cache_key (PDict d)
  = (s ← json_dumps true (PDict d);
     Ok ("cache:" +:+ SHA256.hexdigest (encode_utf8 s)))
  /\ forall s, json_dumps true (PDict d) = Ok s ->
               _generate_cache_key (PStr s) = _generate_cache_key (PDict d).
Proof.
  intros Hu.
  assert (Hkey : _generate_cache_key (PDict d)
                 = (s ← json_dumps true (PDict d);
                    Ok ("cache:" +:+ SHA256.hexdigest (encode_utf8 s)))).
  { unfold _generate_cache_key. rewrite json_dumps_sorted_canonical by assumption.
    reflexivity. }
  split; [exact Hkey|].
  intros s Hs. rewrite Hkey, Hs. reflexivity.
Qed.

Lemma key_of_mapping_is_hash_of_sorted_json_witness :
  unique_keys (PDict request_a) = true
  /\ exists s, json_dumps true (PDict request_a) = Ok s
               /\ _generate_cache_key (PStr s) = _generate_cache_key (PDict request_a).
Proof.
  assert (Hu : unique_keys (PDict request_a) = true) by (vm_compute; reflexivity).
  split; [exact Hu|].
  destruct (json_dumps true (PDict request_a)) as [s|e] eqn:Hs; [|vm_compute in Hs; discriminate].
  exists s. split; [reflexivity|].
  exact (proj2 (key_of_mapping_is_hash_of_sorted_json request_a Hu) s Hs).
Defined.

Lemma dict_get_perm k (l1 l2 : dict) :
  NoDup l1.*1 -> l1 ≡ₚ l2 -> dict_get k l1 = dict_get k l2.
Proof.
  intros Hnd1 Hp.
  assert (Hnd2 : NoDup l2.*1) by (by rewrite <- Hp).
  destruct (dict_get k l1) as [v|] eqn:H1.
  - symmetry. apply dict_get_elem; [assumption|]. rewrite <- Hp.
    by apply dict_get_elem.
  - destruct (dict_get k l2) as [v|] eqn:H2; [|reflexivity].
    apply dict_get_elem in H2; [|assumption]. rewrite <- Hp in H2.
    apply dict_get_elem in H2; [|assumption]. congruence.
Qed.

Lemma dict_get_fmap_value (f : value -> value) k (d : dict) :
  dict_get k ((fun kv => (kv.1, f kv.2)) <$> d) = f <$> dict_get k d.
Proof.
  induction d as [|[k' v] d IH]; [reflexivity|].
  cbn. destruct (decide (k' = k)); [reflexivity | exact IH].
Qed.

Lemma fmap_value_keys (f : value -> value) (d : dict) :
  ((fun kv => (kv.1, f kv.2)) <$> d).*1 = d.*1.
Proof. rewrite <- list_fmap_compose. reflexivity. Qed.

Lemma sort_dict_recursive_unique_keys v :
  unique_keys v = true -> unique_keys (sort_dict_recursive v) = true.
Proof.
  induction v as [| | | | |l IH|d IH|] using value_nested_ind; intros Hu;
    try reflexivity.
  - cbn in *. rewrite forallb_forall in *. rewrite Forall_forall in IH.
    intros y [x [-> Hx]]%list_elem_of_In%list_elem_of_fmap.
    apply IH; [assumption|]. apply Hu. by apply list_elem_of_In.
  - apply unique_keys_dict in Hu as [Hnd Hu]. rewrite Forall_forall in IH.
    cbn [sort_dict_recursive unique_keys]. apply andb_true_intro. split.
    + apply bool_decide_eq_true. rewrite sorted_perm, fmap_value_keys. exact Hnd.
    + apply forallb_forall. intros y Hy%list_elem_of_In.
      rewrite sorted_perm in Hy.
      apply list_elem_of_fmap in Hy as ([k v] & -> & Hx). cbn.
      apply (IH (k, v) Hx). eapply Hu, Hx.
Qed.

(** X2. [sort_dict_recursive] keeps the content of a value, changing only
    the order of dictionary items, and applying it twice is the same as
    applying it once. *)
Theorem sort_dict_recursive_canonical v :
  unique_keys v = true ->
  same_content v (sort_dict_recursive v)
  /\ unique_keys (sort_dict_recursive v) = true
  /\ sort_dict_recursive (sort_dict_recursive v) = sort_dict_recursive v.
Proof.
  intros Hu.
  assert (Hsc : same_content v (sort_dict_recursive v)).
  { revert Hu. induction v as [| | | | |l IH|d IH|] using value_nested_ind; intros Hu;
      try (apply sc_atom; reflexivity).
    - cbn [sort_dict_recursive]. apply sc_list.
      cbn in Hu. rewrite forallb_forall in Hu.
      induction IH as [|x l Hx _ IHl]; [constructor|].
      cbn. constructor.
      + apply Hx, Hu. by left.
      + apply IHl. intros y Hy. apply Hu. by right.
    - apply unique_keys_dict in Hu as [Hnd Hu]. rewrite Forall_forall in IH.
      cbn [sort_dict_recursive]. apply sc_dict. intros k.
      set (f := fun kv : string * value => (kv.1, sort_dict_recursive kv.2)).
      rewrite (dict_get_perm k (sorted (f <$> d)) (f <$> d));
        [| rewrite sorted_perm; unfold f; rewrite fmap_value_keys; exact Hnd
         | apply sorted_perm].
      unfold f.
      rewrite dict_get_fmap_value.
      destruct (dict_get k d) as [v|] eqn:Hg; cbn; constructor.
      apply dict_get_elem in Hg; [|assumption].
      apply (IH (k, v) Hg). eapply Hu, Hg. }
  split; [exact Hsc|]. split; [by apply sort_dict_recursive_unique_keys|].
  symmetry. apply sort_dict_recursive_same_content;
    [assumption | by apply sort_dict_recursive_unique_keys | assumption].
Qed.

Lemma sort_dict_recursive_canonical_witness :
  unique_keys (PDict request_b) = true
  /\ same_content (PDict request_b) (sort_dict_recursive (PDict request_b))
  /\ sort_dict_recursive (sort_dict_recursive (PDict request_b))
     = sort_dict_recursive (PDict request_b).
Proof.
  assert (Hu : unique_keys (PDict request_b) = true) by (vm_compute; reflexivity).
  destruct (sort_dict_recursive_canonical (PDict request_b) Hu) as (Hsc & _ & Hid).
  split; [exact Hu|]. split; [exact Hsc | exact Hid].
Defined.

(** Values with the same content have the same sorted JSON text. *)
Lemma json_dumps_sorted_same_content a b :
  unique_keys a = true -> unique_keys b = true -> same_content a b ->
  json_dumps true a = json_dumps true b.
Proof.
  intros Ha Hb Hsc.
  rewrite <- (json_dumps_sorted_canonical a), <- (json_dumps_sorted_canonical b)
    by assumption.
  f_equal. by apply sort_dict_recursive_same_content.
Qed.

(** X3. A sequence with a mapping among its elements is serialized with
    sorted keys: two such sequences that agree up to the insertion order of
    the mappings in them, at every level, get the same key. *)
Theorem key_of_sequence_with_mapping (l1 l2 : list value) :
  unique_keys (PList l1) = true -> unique_keys (PList l2) = true ->
  same_content (PList l1) (PList l2) ->
  existsb is_dict l1 = true ->
  _generate_cache_key (PList l1) = _generate_cache_key (PList l2).
Proof.
  intros H1 H2 Hsc Hd.
  assert (Hd2 : existsb is_dict l2 = true).
  { inversion Hsc as [? Hatom| ? ? HF |]; subst; [discriminate|].
    clear -HF Hd. induction HF as [|x y l l' Hxy _ IH]; [discriminate|].
    cbn in *. apply orb_true_iff in Hd as [Hx|Hl].
    - destruct x; try discriminate Hx.
      inversion Hxy; subst; [discriminate | reflexivity].
    - rewrite (IH Hl). apply orb_true_r. }
  unfold _generate_cache_key. rewrite Hd, Hd2.
  rewrite (json_dumps_sorted_same_content (PList l1) (PList l2)) by assumption.
  reflexivity.
Qed.

Ltac same_content_cases :=
  repeat first
    [ apply sc_atom; reflexivity
    | apply sc_list; repeat match goal with |- Forall2 _ _ _ => constructor end
    | apply sc_dict; intros ?; cbn [dict_get]; dict_cases; constructor ].

Lemma key_of_sequence_with_mapping_witness :
  _generate_cache_key (PList [PDict request_a; PInt 1])
  = _generate_cache_key (PList [PDict request_b; PInt 1]).
Proof.
  apply key_of_sequence_with_mapping.
  - vm_compute; reflexivity.
  - vm_compute; reflexivity.
  - unfold request_a, request_b. same_content_cases.
  - reflexivity.
Defined.


(** ** The shape of a key *)

Lemma compress_length h block : length h = 8%nat -> length (SHA256.compress h block) = 8%nat.
Proof.
  intros Hh. unfold SHA256.compress. rewrite length_zip_with, Hh. reflexivity.
Qed.

Lemma fold_compress_length blocks h :
  length h = 8%nat -> length (fold_left SHA256.compress blocks h) = 8%nat.
Proof.
  revert h. induction blocks as [|b blocks IH]; intros h Hh; [exact Hh|].
  cbn. apply IH, compress_length, Hh.
Qed.

Lemma be_bytes_4_spec x :
  exists a b c d, SHA256.be_bytes 4 x = [a; b; c; d]
                  /\ (a < 256 /\ b < 256 /\ c < 256 /\ d < 256)%N.
Proof.
  do 4 eexists. split; [reflexivity|].
  assert (Hlt : forall y, (N.land y 0xFF < 256)%N).
  { intros y. change 0xFF%N with (N.ones 8). rewrite N.land_ones.
    apply N.mod_lt. discriminate. }
  repeat split; apply Hlt.
Qed.

Lemma hex_digit_lower d : (d < 16)%N -> is_lower_hex (SHA256.hex_digit d) = true.
Proof.
  intros Hd.
  assert (Hcases : In d [0; 1; 2; 3; 4; 5; 6; 7; 8; 9; 10; 11; 12; 13; 14; 15]%N).
  { cbn. lia. }
  cbn in Hcases.
  repeat (destruct Hcases as [<-|Hcases]; [vm_compute; reflexivity|]).
  contradiction.
Qed.

Lemma hex_byte_spec b :
  (b < 256)%N ->
  exists c1 c2, SHA256.hex_byte b = String c1 (String c2 EmptyString)
                /\ is_lower_hex c1 = true /\ is_lower_hex c2 = true.
Proof.
  intros Hb. do 2 eexists. split; [reflexivity|]. split; apply hex_digit_lower.
  - rewrite N.shiftr_div_pow2. change (2 ^ 4)%N with 16%N.
    apply N.Div0.div_lt_upper_bound. lia.
  - change 0xF%N with (N.ones 4). rewrite N.land_ones. apply N.mod_lt. discriminate.
Qed.

Lemma hex_pair_app c1 c2 t :
  String c1 (String c2 EmptyString) +:+ t = String c1 (String c2 t).
Proof. reflexivity. Qed.

Lemma hex_of_bytes_shape (bytes : list N) :
  Forall (fun b => (b < 256)%N) bytes ->
  let h := fold_right (fun b acc => SHA256.hex_byte b +:+ acc) EmptyString bytes in
  String.length h = (2 * length bytes)%nat
  /\ forallb is_lower_hex (list_ascii_of_string h) = true.
Proof.
  induction 1 as [|b bytes Hb _ IH]; [split; reflexivity|].
  destruct IH as [IHlen IHhex]. cbn [fold_right length].
  destruct (hex_byte_spec b Hb) as (c1 & c2 & -> & H1 & H2).
  rewrite hex_pair_app. cbn [String.length list_ascii_of_string forallb].
  rewrite IHlen, H1, H2, IHhex. split; [lia | reflexivity].
Qed.

Lemma digest_bytes msg :
  length (SHA256.digest msg) = 32%nat
  /\ Forall (fun b => (b < 256)%N) (SHA256.digest msg).
Proof.
  unfold SHA256.digest.
  set (p := SHA256.pad msg).
  pose proof (fold_compress_length (SHA256.chunks (length p) 64 p) SHA256.H0 eq_refl) as Hlen.
  destruct (fold_left SHA256.compress _ SHA256.H0)
    as [|w1 [|w2 [|w3 [|w4 [|w5 [|w6 [|w7 [|w8 [|]]]]]]]]]; try discriminate Hlen.
  cbn [mbind list_bind app].
  destruct (be_bytes_4_spec w1) as (? & ? & ? & ? & -> & ? & ? & ? & ?).
  destruct (be_bytes_4_spec w2) as (? & ? & ? & ? & -> & ? & ? & ? & ?).
  destruct (be_bytes_4_spec w3) as (? & ? & ? & ? & -> & ? & ? & ? & ?).
  destruct (be_bytes_4_spec w4) as (? & ? & ? & ? & -> & ? & ? & ? & ?).
  destruct (be_bytes_4_spec w5) as (? & ? & ? & ? & -> & ? & ? & ? & ?).
  destruct (be_bytes_4_spec w6) as (? & ? & ? & ? & -> & ? & ? & ? & ?).
  destruct (be_bytes_4_spec w7) as (? & ? & ? & ? & -> & ? & ? & ? & ?).
  destruct (be_bytes_4_spec w8) as (? & ? & ? & ? & -> & ? & ? & ? & ?).
  split; [reflexivity|]. cbn. repeat constructor; assumption.
Qed.

(** X4. Every key [_generate_cache_key] returns is the literal ["cache:"]
    followed by 64 lowercase hexadecimal digits, whatever the input. *)
Theorem cache_key_shape (data : value) (key : string) :
  _generate_cache_key data = Ok key ->
  exists h, key = "cache:" +:+ h
            /\ String.length h = 64%nat
            /\ forallb is_lower_hex (list_ascii_of_string h) = true.
Proof.
  unfold _generate_cache_key.
  match goal with |- context [mbind _ ?m] => destruct m as [s|e] end; cbn;
    [|discriminate].
  intros [= <-]. eexists. split; [reflexivity|].
  destruct (digest_bytes (encode_utf8 s)) as [Hlen Hbytes].
  destruct (hex_of_bytes_shape _ Hbytes) as [Hl Hh].
  unfold SHA256.hexdigest. rewrite Hl, Hlen. split; [reflexivity | exact Hh].
Qed.

Lemma cache_key_shape_witness :
  exists h, key_plain = "cache:" +:+ h
            /\ String.length h = 64%nat
            /\ forallb is_lower_hex (list_ascii_of_string h) = true.
Proof.
  apply (cache_key_shape (PDict params_plain)). vm_compute. reflexivity.
Defined.

(** ** The connection: errors that are not retried, and [initialize_db] *)

Lemma connect_other_error url attempt rest n w e :
  from_url url = Ok url -> net w = Some e :: n -> e <> RedisConnectionError ->
  connect url (attempt :: rest) w = (Raise ConnectionError, after_last n w).
Proof.
  intros Hf Hn He. cbn [connect].
  unfold catch at 1. unfold bind at 1, lift at 1. rewrite Hf.
  unfold bind at 1, modify at 1. unfold bind at 1, client_ping, round_trip.
  cbn [net set_redis_client]. rewrite Hn.
  destruct e; try contradiction; reflexivity.
Qed.

Lemma connect_bad_url url attempt rest w e :
  from_url url = Raise e ->
  connect url (attempt :: rest) w = (Raise ConnectionError, set_redis_client None w).
Proof.
  intros Hf. cbn [connect]. unfold catch, bind, lift. rewrite Hf.
  pose proof Hf as Hf'. unfold from_url in Hf'.
  destruct (_ || _); [discriminate|]. injection Hf' as <-. reflexivity.
Qed.

(** X5. Only a refused connection is retried.  A missing or empty
    [REDIS_URL] raises [ValueError] before anything is tried; a URL that
    [redis.from_url] rejects, or a first attempt that fails with any error
    other than a refused connection, raises the connection error at once,
    without sleeping and without a second attempt, and leaves the singleton
    unset. *)
Theorem get_redis_client_fails_at_once (w : world) :
  redis_client w = None ->
  (REDIS_URL w = None \/ REDIS_URL w = Some EmptyString ->
   get_redis_client w = (Raise ValueError, w))
  /\ (forall url e, REDIS_URL w = Some url -> url <> EmptyString ->
        from_url url = Raise e ->
        get_redis_client w = (Raise ConnectionError, w))
  /\ (forall url e rest, REDIS_URL w = Some url -> from_url url = Ok url ->
        net w = Some e :: rest -> e <> RedisConnectionError ->
        exists w', get_redis_client w = (Raise ConnectionError, w')
                   /\ redis_client w' = None /\ slept w' = slept w
                   /\ clock w' = clock w /\ net w' = rest).
Proof.
  intros Hc. split; [|split].
  - intros Hu. unfold get_redis_client, bind, gets. rewrite Hc.
    destruct Hu as [-> | ->]; reflexivity.
  - intros url e Hu Hne Hf. unfold get_redis_client, bind, gets. rewrite Hc, Hu.
    destruct url; [contradiction|].
    change (seqZ 0 max_retries) with [0; 1; 2].
    erewrite connect_bad_url by eassumption.
    f_equal. destruct w; cbn in *. subst. reflexivity.
  - intros url e rest Hu Hf Hn He.
    rewrite (get_redis_client_fresh w url) by assumption.
    erewrite connect_other_error by eassumption.
    eexists. split; [reflexivity|]. cbn. auto.
Qed.

(** A process that has not connected, in front of a server whose first
    reply is a timeout. *)
Lemma get_redis_client_fails_at_once_witness :
  exists w', get_redis_client (world_fresh [Some RedisError; None])
             = (Raise ConnectionError, w')
             /\ redis_client w' = None /\ slept w' = [] /\ net w' = [None].
Proof.
  destruct (get_redis_client_fails_at_once (world_fresh [Some RedisError; None]) eq_refl)
    as (_ & _ & H).
  destruct (H redis_url RedisError [None] eq_refl eq_refl eq_refl ltac:(discriminate))
    as (w' & Hrun & Hcl & Hsl & _ & Hnet).
  exists w'. auto.
Defined.

Lemma from_url_raises url e : from_url url = Raise e -> e = ValueError.
Proof. unfold from_url. destruct (_ || _); [discriminate | congruence]. Qed.

(** The client a successful call returns is the one the singleton holds. *)
Lemma connect_returns_singleton url attempts :
  forall w r w', connect url attempts w = (Ok r, w') -> redis_client w' = r.
Proof.
  induction attempts as [|attempt rest IH]; intros w r w'.
  - cbn. unfold gets. intros H; inversion H; subst; reflexivity.
  - cbn [connect]. unfold catch at 1. unfold bind at 1, lift at 1.
    destruct (from_url url) as [c|e] eqn:Hf.
    2:{ apply from_url_raises in Hf as ->. unfold bind, modify, raise. discriminate. }
    unfold bind at 1, modify at 1. unfold bind at 1, client_ping, round_trip.
    cbn [net set_redis_client].
    destruct (net w) as [|[e|] n].
    + unfold ret. intros H; inversion H; subst; reflexivity.
    + destruct e; try (unfold bind, modify, raise; discriminate).
      destruct (bool_decide (attempt < max_retries - 1)).
      * unfold bind at 1, sleep, modify. apply IH.
      * unfold bind, modify, raise. discriminate.
    + unfold ret. intros H; inversion H; subst; reflexivity.
Qed.

Lemma get_redis_client_returns_singleton w r w' :
  get_redis_client w = (Ok r, w') -> redis_client w' = r /\ r <> None.
Proof.
  unfold get_redis_client, bind, gets.
  destruct (redis_client w) as [c|] eqn:Hc.
  - unfold ret. intros H; inversion H; subst. split; [assumption | discriminate].
  - destruct (REDIS_URL w) as [[|a url]|]; try (unfold raise; discriminate).
    intros Hrun. pose proof (connect_returns_singleton _ _ _ _ _ Hrun) as Hr.
    split; [exact Hr|]. intros ->.
    (* a successful attempt returns the client it has just made *)
    revert Hrun. change (seqZ 0 max_retries) with [0; 1; 2].
    assert (Hsome : forall attempts w0 w1, attempts <> [] ->
              connect (String a url) attempts w0 <> (Ok None, w1)).
    { induction attempts as [|attempt rest IH]; intros w0 w1 Hne; [contradiction|].
      cbn [connect]. unfold catch at 1. unfold bind at 1, lift at 1.
      destruct (from_url (String a url)) as [c|e] eqn:Hf.
      2:{ apply from_url_raises in Hf as ->. unfold bind, modify, raise. discriminate. }
      unfold bind at 1, modify at 1. unfold bind at 1, client_ping, round_trip.
      cbn [net set_redis_client].
      destruct (net w0) as [|[e|] n]; try (unfold ret; discriminate).
      destruct e; try (unfold bind, modify, raise; discriminate).
      destruct (bool_decide (attempt < max_retries - 1)) eqn:Hlt.
      - unfold bind at 1, sleep, modify.
        destruct rest as [|a' rest'].
        + apply bool_decide_eq_true in Hlt. cbn. unfold gets. cbn. discriminate.
        + apply IH. discriminate.
      - unfold bind, modify, raise. discriminate. }
    apply Hsome. discriminate.
Qed.

Lemma round_trip_keeps_client w r w' :
  round_trip w = (r, w') -> redis_client w' = redis_client w.
Proof.
  unfold round_trip. destruct (net w) as [|[e|] n]; intros H; inversion H; reflexivity.
Qed.

(** X6. [initialize_db] never raises.  It answers [True] only when the
    module was loaded with caching enabled and the singleton holds a client
    afterwards; with [ENABLE_CACHE] off it answers [False] without touching
    the connection; and three refused connections in a row give [False],
    the singleton left unset. *)
Theorem initialize_db_reports_connection (ENABLE_CACHE test_connection : bool) (w : world) :
  (exists b w', initialize_db ENABLE_CACHE test_connection w = (Ok b, w')
                /\ (b = true -> ENABLE_CACHE = true /\ redis_client w' <> None))
  /\ (ENABLE_CACHE = false ->
      initialize_db ENABLE_CACHE test_connection w = (Ok false, w))
  /\ (forall url rest,
        ENABLE_CACHE = true -> redis_client w = None ->
        REDIS_URL w = Some url -> from_url url = Ok url ->
        net w = replicate 3 (Some RedisConnectionError) ++ rest ->
        exists w', initialize_db ENABLE_CACHE test_connection w = (Ok false, w')
                   /\ redis_client w' = None /\ net w' = rest).
Proof.
  split; [|split].
  - unfold initialize_db. destruct ENABLE_CACHE; cbn [negb].
    2:{ exists false, w. split; [reflexivity | discriminate]. }
    unfold catch, bind at 1.
    destruct (get_redis_client w) as [[client|e] w1] eqn:Hrun.
    2:{ exists false, w1. split; [destruct e; reflexivity | discriminate]. }
    apply get_redis_client_returns_singleton in Hrun as [Hcl Hsome].
    destruct client as [c|]; [|contradiction]. cbn [is_none negb andb].
    destruct test_connection.
    + unfold bind, client_ping.
      destruct (round_trip w1) as [[[]|e] w2] eqn:Hping.
      * exists true, w2. split; [reflexivity|]. intros _. split; [reflexivity|].
        rewrite (round_trip_keeps_client _ _ _ Hping), Hcl. discriminate.
      * exists false, w2. split; [destruct e; reflexivity | discriminate].
    + exists true, w1. split; [reflexivity|]. intros _. split; [reflexivity|].
      rewrite Hcl. discriminate.
  - intros ->. reflexivity.
  - intros url rest -> Hc Hu Hf Hn. cbn [replicate app] in Hn.
    unfold initialize_db. cbn [negb]. unfold catch, bind at 1.
    rewrite (get_redis_client_fresh w url) by assumption.
    erewrite connect_retry by (eassumption || reflexivity).
    erewrite connect_retry by (eassumption || reflexivity).
    erewrite connect_last by (eassumption || reflexivity || (unfold max_retries; lia)).
    eexists. split; [reflexivity|]. cbn. auto.
Qed.

Lemma initialize_db_reports_connection_witness :
  let refused := Some RedisConnectionError in
  exists w', initialize_db true true (world_fresh [refused; refused; refused]) = (Ok false, w')
             /\ redis_client w' = None /\ net w' = [].
Proof.
  intros refused.
  destruct (initialize_db_reports_connection true true
              (world_fresh [refused; refused; refused])) as (_ & _ & H).
  exact (H redis_url [] eq_refl eq_refl eq_refl eq_refl eq_refl).
Defined.

(** ** Invalidation *)

Lemma lookup_live_delete_ne now (d : keyspace) k k' :
  k <> k' -> lookup_live now (delete k d) k' = lookup_live now d k'.
Proof. intros H. unfold lookup_live. rewrite lookup_delete_ne by assumption. reflexivity. Qed.

Lemma lookup_live_delete now (d : keyspace) k : lookup_live now (delete k d) k = None.
Proof. unfold lookup_live. rewrite lookup_delete_eq. reflexivity. Qed.

Lemma redis_get_delete now (d : keyspace) k : redis_get now (delete k d) k = None.
Proof. unfold redis_get. rewrite lookup_live_delete. reflexivity. Qed.

Lemma redis_get_delete_ne now (d : keyspace) k k' :
  k <> k' -> redis_get now (delete k d) k' = redis_get now d k'.
Proof. intros H. unfold redis_get. rewrite lookup_live_delete_ne by assumption. reflexivity. Qed.

Lemma client_delete_one_quiet w k :
  net w = [] ->
  client_delete [k] w
  = (Ok (if is_none (lookup_live (clock w) (db w) k) then 0 else 1),
     set_db (delete k (db w)) w).
Proof.
  intros Hn. unfold client_delete.
  erewrite bind_ok by (apply round_trip_quiet, Hn). reflexivity.
Qed.

Lemma client_delete_fault w ks e n :
  net w = Some e :: n -> client_delete ks w = (Raise e, set_net n w).
Proof. intros H. unfold client_delete. apply bind_raise, round_trip_fault, H. Qed.

(** X7. [invalidate_cache] answers [True] whether or not the key was
    there, and whether or not the cache is enabled; afterwards the key
    holds nothing, a get on it misses, and every other key holds what it
    held. *)
Theorem invalidate_cache_deletes float_add (w : world) (cache_key : string) c :
  redis_client w = Some c -> net w = [] ->
  let (r, w') := invalidate_cache cache_key w in
  r = Ok true
  /\ redis_get (clock w') (db w') cache_key = None
  /\ (forall k, k <> cache_key ->
        redis_get (clock w') (db w') k = redis_get (clock w) (db w) k)
  /\ cache_config w' = cache_config w
  /\ (enabled (cache_config w) = true ->
      get_cached_data_by_key float_add cache_key w' = (Ok PNone, w')).
Proof.
  intros Hc Hn. unfold invalidate_cache.
  erewrite catch_ok.
  2:{ unfold invalidate_cache_try.
      erewrite bind_ok by (apply get_redis_client_connected, Hc). cbn [is_none].
      erewrite bind_ok by (apply client_delete_one_quiet, Hn). reflexivity. }
  split; [reflexivity|]. cbn [clock db set_db cache_config].
  split; [apply redis_get_delete|].
  split; [intros k Hk; apply redis_get_delete_ne; congruence|].
  split; [reflexivity|].
  intros Hon. eapply get_absent; [exact Hon | exact Hc | exact Hn |].
  cbn. apply redis_get_delete.
Qed.

Lemma invalidate_cache_deletes_witness :
  let (r, w') := invalidate_cache "cache:a" world_three_keys in
  r = Ok true
  /\ redis_get (clock w') (db w') "cache:a" = None
  /\ redis_get (clock w') (db w') "cache:b"
     = redis_get 1000 (db world_three_keys) "cache:b".
Proof.
  pose proof (invalidate_cache_deletes float_add_any world_three_keys "cache:a" redis_url
                eq_refl eq_refl) as H.
  destruct (invalidate_cache "cache:a" world_three_keys) as [r w'].
  destruct H as (Hr & Hgone & Hothers & _).
  split; [exact Hr|]. split; [exact Hgone|].
  apply Hothers. discriminate.
Defined.

Lemma catch_default {A} (m : M A) (h : exn -> M A) (d : A) w e w' :
  (forall e w', h e w' = (Ok d, w')) ->
  m w = (Raise e, w') -> catch m h w = (Ok d, w').
Proof. intros Hh Hm. unfold catch. rewrite Hm. apply Hh. Qed.

Section pattern_invalidation.
Variable glob_match : string -> string -> bool.

Lemma elem_of_redis_keys now (d : keyspace) pattern k :
  k ∈ redis_keys glob_match now d pattern
  <-> exists e, d !! k = Some e /\ glob_match pattern k = true /\ live now e = true.
Proof.
  unfold redis_keys. rewrite list_elem_of_fmap. split.
  - intros ([k' e] & -> & [[Hm Hl] Hin%elem_of_map_to_list]%list_elem_of_filter).
    exists e. auto.
  - intros (e & Hk & Hm & Hl). exists (k, e). split; [reflexivity|].
    apply list_elem_of_filter. split; [auto | by apply elem_of_map_to_list].
Qed.

Lemma NoDup_redis_keys now (d : keyspace) pattern :
  NoDup (redis_keys glob_match now d pattern).
Proof.
  unfold redis_keys. eapply sublist_NoDup; [apply (NoDup_fst_map_to_list d)|].
  apply fmap_sublist, sublist_filter.
Qed.

(** DEL on distinct keys that are all there. *)
Lemma redis_del_live now (ks : list string) :
  NoDup ks ->
  forall (d : keyspace) n,
    (forall k, k ∈ ks -> lookup_live now d k <> None) ->
    foldl (fun acc k =>
             (delete k acc.1,
              acc.2 + (if is_none (lookup_live now acc.1 k) then 0 else 1)))
          (d, n) ks
    = (foldl (fun m k => delete k m) d ks, n + Z.of_nat (length ks)).
Proof.
  induction 1 as [|k ks Hk Hnd IH]; intros d n Hlive.
  - cbn. rewrite Z.add_0_r. reflexivity.
  - cbn [foldl fst snd length].
    destruct (lookup_live now d k) eqn:Hl; [|exfalso; eapply Hlive; [by left | exact Hl]].
    cbn [is_none]. rewrite IH.
    + f_equal. lia.
    + intros k' Hk'. rewrite lookup_live_delete_ne by (intros ->; contradiction).
      apply Hlive. by right.
Qed.

Lemma lookup_foldl_delete (ks : list string) (d : keyspace) k :
  foldl (fun m k => delete k m) d ks !! k = if decide (k ∈ ks) then None else d !! k.
Proof.
  revert d. induction ks as [|k' ks IH]; intros d; cbn [foldl].
  - rewrite decide_False by apply not_elem_of_nil. reflexivity.
  - rewrite IH. destruct (decide (k ∈ ks)) as [Hin|Hin].
    + rewrite decide_True by (by right). reflexivity.
    + destruct (decide (k = k')) as [->|Hne].
      * rewrite decide_True by (by left). apply lookup_delete_eq.
      * rewrite decide_False by (intros [?|?]%elem_of_cons; contradiction).
        apply lookup_delete_ne. congruence.
Qed.

Lemma client_delete_quiet w ks :
  net w = [] -> ks <> [] ->
  client_delete ks w
  = (Ok (redis_del (clock w) (db w) ks).2, set_db (redis_del (clock w) (db w) ks).1 w).
Proof.
  intros Hn Hks. unfold client_delete.
  erewrite bind_ok by (apply round_trip_quiet, Hn).
  destruct ks as [|k ks]; [contradiction|].
  unfold bind, gets, id, modify, ret.
  destruct (redis_del (clock w) (db w) (k :: ks)). reflexivity.
Qed.

(** X8. [invalidate_by_pattern] deletes the live keys that match the
    pattern and returns how many they were; afterwards no live key matches,
    and a key that does not match holds what it held. *)
Theorem invalidate_by_pattern_deletes (w : world) (pattern : string) c :
  redis_client w = Some c -> net w = [] ->
  let (r, w') := invalidate_by_pattern glob_match pattern w in
  r = Ok (Z.of_nat (length (redis_keys glob_match (clock w) (db w) pattern)))
  /\ redis_keys glob_match (clock w') (db w') pattern = []
  /\ (forall k, glob_match pattern k = false ->
        redis_get (clock w') (db w') k = redis_get (clock w) (db w) k)
  /\ (forall k, glob_match pattern k = true -> redis_get (clock w') (db w') k = None).
Proof.
  intros Hc Hn. unfold invalidate_by_pattern.
  set (ks := redis_keys glob_match (clock w) (db w) pattern).
  assert (Hrun : invalidate_by_pattern_try glob_match pattern w
                 = (Ok (Z.of_nat (length ks)),
                    set_db (foldl (fun m k => delete k m) (db w) ks) w)).
  { unfold invalidate_by_pattern_try.
    erewrite bind_ok by (apply get_redis_client_connected, Hc). cbn [is_none].
    unfold client_keys.
    erewrite bind_ok.
    2:{ erewrite bind_ok by (apply round_trip_quiet, Hn). reflexivity. }
    fold ks. destruct (decide (ks = [])) as [Hnil|Hne].
    { rewrite Hnil. unfold ret. cbn. destruct w; reflexivity. }
    replace (match ks with [] => ret 0 | _ :: _ => deleted <- client_delete ks;; ret deleted end)
      with (deleted <- client_delete ks;; ret deleted)
      by (destruct ks; [contradiction | reflexivity]).
    erewrite bind_ok by (apply client_delete_quiet; assumption).
    unfold redis_del.
    rewrite (redis_del_live (clock w) ks (NoDup_redis_keys _ _ _)).
    - rewrite Z.add_0_l. reflexivity.
    - intros k [e (Hk & _ & Hl)]%elem_of_redis_keys.
      unfold lookup_live. rewrite Hk, Hl. discriminate. }
  erewrite catch_ok by exact Hrun. cbn [clock db set_db].
  assert (Hget : forall k, redis_get (clock w) (foldl (fun m k => delete k m) (db w) ks) k
                           = if decide (k ∈ ks) then None else redis_get (clock w) (db w) k).
  { intros k. unfold redis_get, lookup_live. rewrite lookup_foldl_delete.
    destruct (decide (k ∈ ks)); reflexivity. }
  split; [reflexivity|]. split; [|split].
  - match goal with |- ?l = [] => destruct l as [|k l0] eqn:Hafter end; [reflexivity|].
    exfalso. assert (Hin : k ∈ k :: l0) by (by left). rewrite <- Hafter in Hin.
    apply elem_of_redis_keys in Hin as [e (Hk & Hm & Hl)].
    rewrite lookup_foldl_delete in Hk.
    destruct (decide (k ∈ ks)) as [|Hnot]; [discriminate|].
    apply Hnot, elem_of_redis_keys. eauto.
  - intros k Hm. rewrite Hget. rewrite decide_False; [reflexivity|].
    intros [e (_ & Hm' & _)]%elem_of_redis_keys. congruence.
  - intros k Hm. rewrite Hget. destruct (decide (k ∈ ks)) as [|Hnot]; [reflexivity|].
    unfold redis_get, lookup_live.
    destruct (db w !! k) as [e|] eqn:Hk; [|reflexivity].
    destruct (live (clock w) e) eqn:Hl; [|reflexivity].
    exfalso. apply Hnot, elem_of_redis_keys. eauto.
Qed.

(** X9. Neither invalidation raises.  A round trip that fails gives
    [False], respectively 0, and when it is the DEL of
    [invalidate_by_pattern] that fails, after the KEYS went through,
    nothing has been deleted. *)
Theorem invalidation_errors_are_contained (w : world) (cache_key pattern : string) :
  (exists r w', invalidate_cache cache_key w = (Ok r, w'))
  /\ (exists r w', invalidate_by_pattern glob_match pattern w = (Ok r, w'))
  /\ (forall c e n, redis_client w = Some c -> net w = Some e :: n ->
        invalidate_cache cache_key w = (Ok false, set_net n w)
        /\ invalidate_by_pattern glob_match pattern w = (Ok 0, set_net n w))
  /\ (forall c e n, redis_client w = Some c -> net w = None :: Some e :: n ->
        redis_keys glob_match (clock w) (db w) pattern <> [] ->
        invalidate_by_pattern glob_match pattern w = (Ok 0, set_net n w)).
Proof.
  split; [|split; [|split]].
  - unfold invalidate_cache. eapply catch_all_total. intros []; reflexivity.
  - unfold invalidate_by_pattern. eapply catch_all_total. intros []; reflexivity.
  - intros c e n Hc Hn. split.
    + unfold invalidate_cache.
      eapply catch_default; [intros []; reflexivity|].
      unfold invalidate_cache_try.
      erewrite bind_ok by (apply get_redis_client_connected, Hc). cbn [is_none].
      apply bind_raise, client_delete_fault, Hn.
    + unfold invalidate_by_pattern.
      eapply catch_default; [intros []; reflexivity|].
      unfold invalidate_by_pattern_try.
      erewrite bind_ok by (apply get_redis_client_connected, Hc). cbn [is_none].
      apply bind_raise. unfold client_keys. apply bind_raise, round_trip_fault, Hn.
  - intros c e n Hc Hn Hks.
    unfold invalidate_by_pattern.
    eapply catch_default; [intros []; reflexivity|].
    unfold invalidate_by_pattern_try.
    erewrite bind_ok by (apply get_redis_client_connected, Hc). cbn [is_none].
    unfold client_keys.
    erewrite bind_ok.
    2:{ erewrite bind_ok by (unfold round_trip; rewrite Hn; reflexivity). reflexivity. }
    cbn [clock db set_net].
    destruct (redis_keys glob_match (clock w) (db w) pattern) as [|k ks]; [contradiction|].
    apply bind_raise.
    rewrite (client_delete_fault _ _ e n) by reflexivity.
    reflexivity.
Qed.
End pattern_invalidation.

Lemma invalidate_by_pattern_deletes_witness :
  let (r, w') := invalidate_by_pattern prefix_glob "cache:*" world_three_keys in
  r = Ok 2
  /\ redis_get (clock w') (db w') "cache:a" = None
  /\ redis_get (clock w') (db w') "stats:c" = Some (Encoded (PInt 3)).
Proof.
  pose proof (invalidate_by_pattern_deletes prefix_glob world_three_keys "cache:*" redis_url
                eq_refl eq_refl) as H.
  destruct (invalidate_by_pattern prefix_glob "cache:*" world_three_keys) as [r w'].
  destruct H as (Hr & _ & Hkept & Hgone).
  split; [rewrite Hr; vm_compute; reflexivity|].
  split; [apply Hgone; reflexivity|].
  rewrite (Hkept "stats:c" eq_refl). vm_compute. reflexivity.
Defined.

Lemma invalidation_errors_are_contained_witness :
  let w := set_net [None; Some RedisConnectionError] world_three_keys in
  invalidate_by_pattern prefix_glob "cache:*" w = (Ok 0, set_net [] w)
  /\ db (set_net [] w) = db world_three_keys.
Proof.
  intros w.
  destruct (invalidation_errors_are_contained prefix_glob w "cache:a" "cache:*")
    as (_ & _ & _ & H).
  split; [|reflexivity].
  apply (H redis_url RedisConnectionError [] eq_refl eq_refl).
  vm_compute. discriminate.
Defined.

(** ** Expiry, foreign entries and edge cases of the entry store *)

Lemma redis_get_expired now (d : keyspace) k t T :
  d !! k = Some (Entry t (Some T)) -> T <= now -> redis_get now d k = None.
Proof.
  intros Hk Hexp. unfold redis_get, lookup_live, live. rewrite Hk. cbn.
  rewrite bool_decide_eq_false_2 by lia. reflexivity.
Qed.

(** X10. An entry lives for the expiration given to the put, or for
    [cache_config.expiration] when none is given: a get less than that many
    seconds after the put hits, a get at or after that time misses, and the
    entry is gone. *)
Theorem entry_expires float_add (w : world) (cache_key : string) (data : value)
    (expiration_arg : option Z) (d : Z) c s :
  enabled (cache_config w) = true -> redis_client w = Some c -> net w = [] ->
  json_dumps false data = Ok s ->
  let ttl := default (expiration (cache_config w)) expiration_arg in
  0 < ttl -> 0 <= d ->
  let (put, w1) := store_data_with_key cache_key data expiration_arg w in
  let later := set_clock (clock w1 + d) w1 in
  put = Ok true
  /\ redis_ttl (clock w1) (db w1) cache_key = ttl
  /\ (d < ttl ->
      (get_cached_data_by_key float_add cache_key later).1
      = Ok (cache_entry data (clock w) 1))
  /\ (ttl <= d ->
      get_cached_data_by_key float_add cache_key later = (Ok PNone, later)
      /\ stored_request_count later cache_key = None).
Proof.
  intros Hon Hc Hn Hs ttl Httl Hd.
  rewrite (store_ok cache_key data expiration_arg w c s) by assumption.
  fold ttl. set (w1 := set_db _ w). cbv zeta.
  assert (Hk : db w1 !! cache_key
               = Some (Entry (Encoded (cache_entry data (clock w) 1)) (Some (clock w + ttl))))
    by (cbn; apply lookup_insert_eq).
  split; [reflexivity|]. split.
  { erewrite redis_ttl_live; [|exact Hk|cbn; lia]. cbn. lia. }
  split.
  - intros Hlt. erewrite get_live; [reflexivity | try eassumption ..]; cbn; lia.
  - intros Hge.
    assert (Hnone : redis_get (clock w1 + d) (db w1) cache_key = None).
    { eapply redis_get_expired; [exact Hk | cbn; lia]. }
    split.
    + eapply get_absent; [exact Hon | exact Hc | exact Hn | exact Hnone].
    + unfold stored_request_count. cbn [clock db set_clock]. rewrite Hnone. reflexivity.
Qed.

Lemma entry_expires_witness :
  let (put, w1) := store_data_with_key "k" (PInt 7) (Some 60) world_on in
  put = Ok true
  /\ (get_cached_data_by_key float_add_any "k" (set_clock (clock w1 + 59) w1)).1
     = Ok (cache_entry (PInt 7) 1000 1)
  /\ (get_cached_data_by_key float_add_any "k" (set_clock (clock w1 + 60) w1)).1
     = Ok PNone.
Proof.
  pose proof (entry_expires float_add_any world_on "k" (PInt 7) (Some 60) 59 redis_url "7"
                eq_refl eq_refl eq_refl eq_refl eq_refl ltac:(discriminate)) as H59.
  pose proof (entry_expires float_add_any world_on "k" (PInt 7) (Some 60) 60 redis_url "7"
                eq_refl eq_refl eq_refl eq_refl eq_refl ltac:(discriminate)) as H60.
  destruct (store_data_with_key "k" (PInt 7) (Some 60) world_on) as [put w1].
  cbv zeta in H59, H60.
  destruct H59 as (Hput & _ & Hhit & _). destruct H60 as (_ & _ & _ & Hmiss).
  split; [exact Hput|]. split; [apply Hhit; reflexivity|].
  destruct (Hmiss ltac:(reflexivity)) as [-> _]. reflexivity.
Defined.

Lemma client_setex_refused w k secs t :
  net w = [] -> secs <= 0 -> client_setex k secs t w = (Raise RedisError, w).
Proof.
  intros Hn Hs. unfold client_setex. erewrite bind_ok by (apply round_trip_quiet, Hn).
  unfold bind, gets, lift, redis_setex, id.
  rewrite bool_decide_eq_false_2 by lia. reflexivity.
Qed.

(** X11. A time to live that is not positive makes the put fail: the
    server refuses it, [store_data_with_key] returns [False] and nothing is
    written. *)
Theorem put_needs_positive_expiration (w : world) (cache_key : string) (data : value)
    (expiration_arg : option Z) c :
  enabled (cache_config w) = true -> redis_client w = Some c -> net w = [] ->
  default (expiration (cache_config w)) expiration_arg <= 0 ->
  store_data_with_key cache_key data expiration_arg w = (Ok false, w).
Proof.
  intros Hon Hc Hn Hexp. erewrite store_connected by eassumption.
  unfold catch. erewrite store_try_connected by eassumption.
  destruct (json_dumps false data) as [s|e]; [|reflexivity].
  erewrite bind_raise by (apply client_setex_refused; assumption).
  reflexivity.
Qed.

Lemma put_needs_positive_expiration_witness :
  store_data_with_key "k" (PInt 7) (Some 0) world_on = (Ok false, world_on).
Proof.
  apply (put_needs_positive_expiration world_on "k" (PInt 7) (Some 0) redis_url);
    reflexivity || discriminate.
Defined.

Lemma dict_get_set k v (d : dict) : dict_get k (dict_set k v d) = Some v.
Proof.
  induction d as [|[k' v'] d IH]; cbn.
  - rewrite decide_True by reflexivity. reflexivity.
  - destruct (decide (k' = k)) as [->|Hne]; cbn.
    + rewrite decide_True by reflexivity. reflexivity.
    + rewrite decide_False by assumption. exact IH.
Qed.

Lemma dict_get_set_ne k k' v (d : dict) :
  k' <> k -> dict_get k' (dict_set k v d) = dict_get k' d.
Proof.
  intros Hne. induction d as [|[k0 v0] d IH]; cbn.
  - rewrite decide_False by congruence. reflexivity.
  - destruct (decide (k0 = k)) as [->|Hne0]; cbn.
    + rewrite !decide_False by congruence. reflexivity.
    + destruct (decide (k0 = k')); [reflexivity | exact IH].
Qed.

Lemma elem_of_dict_set k v (d : dict) x :
  x ∈ dict_set k v d -> x ∈ d \/ x = (k, v).
Proof.
  induction d as [|[k' v'] d IH]; cbn.
  - intros ->%list_elem_of_singleton. by right.
  - destruct (decide (k' = k)) as [->|Hne].
    + intros [->|Hin]%elem_of_cons; [by right | left; by right].
    + intros [->|Hin]%elem_of_cons; [left; by left|].
      destruct (IH Hin) as [?|?]; [left; by right | by right].
Qed.

(** Setting a field of an encodable object to an encodable value leaves it
    encodable. *)
Lemma json_dumps_dict_set k v (d : dict) s sv :
  json_dumps false (PDict d) = Ok s -> json_dumps false v = Ok sv ->
  exists s', json_dumps false (PDict (dict_set k v d)) = Ok s'.
Proof.
  intros Hd Hv. cbn [json_dumps] in *.
  set (g := fun kv : string * value => s ← json_dumps false kv.2; Ok (kv.1, s)) in *.
  destruct (mapM g d) as [items|e] eqn:Hm; [|discriminate].
  set (h := fun kv : string * value =>
              match g kv with Ok y => y | Raise _ => (kv.1, EmptyString) end).
  rewrite (mapM_Ok_fmap g h); [cbn; eauto|].
  intros x [Hx| ->]%elem_of_dict_set; unfold h.
  - destruct (mapM_Ok_elem g d items x Hm Hx) as [y ->]. reflexivity.
  - unfold g. cbn. rewrite Hv. reflexivity.
Qed.

(** What [current_count + 1] gives can be encoded. *)
Lemma py_add_encodable float_add x n v :
  py_add float_add x n = Ok v -> exists s, json_dumps false v = Ok s.
Proof.
  destruct x; cbn; try discriminate; intros [= <-]; cbn; eauto.
Qed.

Section foreign_entries.
Variable float_add : string -> Z -> string.

(** The increment on a live JSON object that expires, when the count
    (taken as 0 if the object has none) is a number: one is added to it
    and the object written back; the key keeps its expiry time. *)
Lemma increment_object cache_key (d : dict) new_count T w c s :
  redis_client w = Some c -> net w = [] ->
  db w !! cache_key = Some (Entry (Encoded (PDict d)) (Some T)) ->
  clock w < T ->
  json_dumps false (PDict d) = Ok s ->
  py_add float_add (default (PInt 0) (dict_get "request_count" d)) 1 = Ok new_count ->
  increment_request_count float_add cache_key w
  = (Ok new_count,
     set_db (<[cache_key :=
                 Entry (Encoded (PDict (dict_set "request_count" new_count d)))
                       (Some T)]> (db w)) w).
Proof.
  intros Hc Hn Hk Hlive Hs Hadd.
  destruct (py_add_encodable _ _ _ _ Hadd) as [sn Hsn].
  destruct (json_dumps_dict_set "request_count" new_count d s sn Hs Hsn) as [s' Hs'].
  unfold increment_request_count. apply catch_ok.
  unfold increment_request_count_try.
  erewrite bind_ok by (apply get_redis_client_connected, Hc). cbn [is_none].
  erewrite bind_ok by (apply client_get_quiet, Hn).
  erewrite redis_get_live by eassumption. cbn [text_truthy negb].
  apply catch_ok.
  erewrite bind_ok by reflexivity.
  erewrite bind_ok by reflexivity.
  erewrite bind_ok by (unfold lift; cbn [json_loads py_get]; rewrite Hadd; reflexivity).
  erewrite bind_ok by reflexivity.
  erewrite bind_ok by (apply client_ttl_quiet, Hn).
  erewrite redis_ttl_live by eassumption.
  rewrite bool_decide_eq_true_2 by lia.
  set (new_ttl := Z.max (T - clock w) (expiration (cache_config w))).
  assert (0 < new_ttl) by (unfold new_ttl; lia).
  set (w1 := set_db (<[cache_key :=
                         Entry (Encoded (PDict d)) (Some (clock w + new_ttl))]> (db w)) w).
  set (new_text := Encoded (PDict (dict_set "request_count" new_count d))).
  rewrite (bind_ok _ _ w tt (set_db (<[cache_key :=
               Entry new_text (Some (clock w1 + (T - clock w)))]> (db w1)) w1)).
  2:{ rewrite (bind_ok _ _ w (cache_config w) w) by reflexivity.
      rewrite (bind_ok _ _ w tt w1).
      2:{ rewrite client_expire_quiet by exact Hn.
          rewrite (redis_expire_live _ _ _ _ _ Hk Hlive) by assumption.
          reflexivity. }
      rewrite (bind_ok _ _ w1 new_text w1).
      2:{ unfold lift, json_dumps_text. cbn [py_setitem]. rewrite Hs'. reflexivity. }
      apply client_setex_quiet; [exact Hn | cbn; lia]. }
  unfold ret. f_equal. subst w1. unfold set_db. cbn [db clock]. f_equal.
  rewrite insert_insert_eq.
  replace (clock w + (T - clock w)) with T by lia.
  reflexivity.
Qed.

(** The increment on a live JSON object whose count is not a number:
    the addition raises, nothing is written and [None] is returned. *)
Lemma increment_bad_count cache_key (d : dict) w c e :
  redis_client w = Some c -> net w = [] ->
  redis_get (clock w) (db w) cache_key = Some (Encoded (PDict d)) ->
  py_add float_add (default (PInt 0) (dict_get "request_count" d)) 1 = Raise e ->
  increment_request_count float_add cache_key w = (Ok PNone, w).
Proof.
  intros Hc Hn Hget Hadd.
  assert (He : e = TypeError).
  { destruct (default (PInt 0) (dict_get "request_count" d));
      cbn in Hadd; congruence. }
  subst e.
  unfold increment_request_count.
  eapply catch_default with (e := TypeError); [intros []; reflexivity|].
  unfold increment_request_count_try.
  erewrite bind_ok by (apply get_redis_client_connected, Hc). cbn [is_none].
  erewrite bind_ok by (apply client_get_quiet, Hn).
  rewrite Hget. cbn [text_truthy negb].
  rewrite (catch_raise _ _ w TypeError w); [reflexivity|].
  erewrite bind_ok by reflexivity.
  erewrite bind_ok by reflexivity.
  apply bind_raise.
  unfold lift. cbn [json_loads py_get]. rewrite Hadd. reflexivity.
Qed.

(** The increment on a live JSON object that does not expire, when the
    count is a number: it is computed and returned, and nothing is
    written. *)
Lemma increment_persistent cache_key (d : dict) new_count w c :
  redis_client w = Some c -> net w = [] ->
  db w !! cache_key = Some (Entry (Encoded (PDict d)) None) ->
  py_add float_add (default (PInt 0) (dict_get "request_count" d)) 1 = Ok new_count ->
  increment_request_count float_add cache_key w = (Ok new_count, w).
Proof.
  intros Hc Hn Hk Hadd.
  assert (Hget : redis_get (clock w) (db w) cache_key = Some (Encoded (PDict d))).
  { unfold redis_get, lookup_live, live. rewrite Hk. reflexivity. }
  assert (Httl : redis_ttl (clock w) (db w) cache_key = -1).
  { unfold redis_ttl, lookup_live, live. rewrite Hk. reflexivity. }
  unfold increment_request_count. apply catch_ok.
  unfold increment_request_count_try.
  erewrite bind_ok by (apply get_redis_client_connected, Hc). cbn [is_none].
  erewrite bind_ok by (apply client_get_quiet, Hn).
  rewrite Hget. cbn [text_truthy negb].
  apply catch_ok.
  erewrite bind_ok by reflexivity.
  erewrite bind_ok by reflexivity.
  erewrite bind_ok by (unfold lift; cbn [json_loads py_get]; rewrite Hadd; reflexivity).
  erewrite bind_ok by reflexivity.
  erewrite bind_ok by (apply client_ttl_quiet, Hn).
  rewrite Httl. reflexivity.
Qed.

(** The increment on a live JSON text that is not an object changes
    nothing and returns [None]. *)
Lemma increment_not_object cache_key (v : value) w c :
  redis_client w = Some c -> net w = [] ->
  redis_get (clock w) (db w) cache_key = Some (Encoded v) ->
  is_dict v = false ->
  increment_request_count float_add cache_key w = (Ok PNone, w).
Proof.
  intros Hc Hn Hget Hv.
  unfold increment_request_count.
  eapply catch_default with (e := AttributeError); [intros []; reflexivity|].
  unfold increment_request_count_try.
  erewrite bind_ok by (apply get_redis_client_connected, Hc). cbn [is_none].
  erewrite bind_ok by (apply client_get_quiet, Hn).
  rewrite Hget. cbn [text_truthy negb].
  rewrite (catch_raise _ _ w AttributeError w); [reflexivity|].
  erewrite bind_ok by reflexivity.
  apply bind_raise.
  unfold lift, py_get. destruct v; try reflexivity. discriminate.
Qed.

(** What a get comes to when the key holds a live JSON text. *)
Lemma get_encoded cache_key (v : value) w c r w' :
  enabled (cache_config w) = true -> redis_client w = Some c -> net w = [] ->
  redis_get (clock w) (db w) cache_key = Some (Encoded v) ->
  increment_request_count float_add cache_key w = (Ok r, w') ->
  get_cached_data_by_key float_add cache_key w = (Ok v, w').
Proof.
  intros Hon Hc Hn Hget Hinc.
  unfold get_cached_data_by_key, bind at 1, gets. rewrite Hon. cbn [negb].
  apply catch_ok. unfold get_cached_data_by_key_try.
  erewrite bind_ok by (apply get_redis_client_connected, Hc). cbn [is_none].
  erewrite bind_ok by (apply client_get_quiet, Hn).
  rewrite Hget. cbn [text_truthy negb].
  apply catch_ok.
  erewrite bind_ok by reflexivity.
  erewrite bind_ok by exact Hinc.
  reflexivity.
Qed.
End foreign_entries.

(** X12 ([increment_request_count]): on a live, expiring key that holds
    any JSON object, the increment does one of two things, by what
    [current_count + 1] gives for the stored count (taken as 0 when the
    object has none).  When the count is a number, the sum is returned and
    the entry rewritten with only its ["request_count"] field changed:
    every other field, and the remaining lifetime of the key, stay as they
    were.  When it is anything else (a string, [null], a list, an object),
    the addition raises, [None] is returned and nothing is rewritten. *)
Theorem increment_touches_only_request_count float_add (w : world) (cache_key : string)
    (d : dict) (T : Z) c s :
  redis_client w = Some c -> net w = [] ->
  db w !! cache_key = Some (Entry (Encoded (PDict d)) (Some T)) ->
  clock w < T ->
  json_dumps false (PDict d) = Ok s ->
  let (r, w') := increment_request_count float_add cache_key w in
  match py_add float_add (default (PInt 0) (dict_get "request_count" d)) 1 with
  | Ok new_count =>
      r = Ok new_count
      /\ exists d',
           redis_get (clock w') (db w') cache_key = Some (Encoded (PDict d'))
           /\ dict_get "request_count" d' = Some new_count
           /\ (forall k, k <> "request_count" -> dict_get k d' = dict_get k d)
           /\ redis_ttl (clock w') (db w') cache_key
              = redis_ttl (clock w) (db w) cache_key
  | Raise _ => r = Ok PNone /\ w' = w
  end.
Proof.
  intros Hc Hn Hk Hlive Hs.
  destruct (py_add float_add (default (PInt 0) (dict_get "request_count" d)) 1)
    as [new_count|e] eqn:Hadd.
  - rewrite (increment_object float_add cache_key d new_count T w c s) by assumption.
    split; [reflexivity|].
    exists (dict_set "request_count" new_count d).
    cbn [clock db set_db].
    split; [|split; [|split]].
    + erewrite redis_get_live; [reflexivity| apply lookup_insert_eq | exact Hlive].
    + apply dict_get_set.
    + intros k Hk'. apply dict_get_set_ne, Hk'.
    + erewrite !redis_ttl_live; [reflexivity | exact Hk | exact Hlive
                                 | apply lookup_insert_eq | exact Hlive].
  - rewrite (increment_bad_count float_add cache_key d w c e); auto.
    erewrite redis_get_live; [reflexivity | exact Hk | exact Hlive].
Qed.

Lemma increment_touches_only_request_count_witness :
  (let (r, w') := increment_request_count float_add_any "o" world_foreign in
   r = Ok (PInt 1)
   /\ exists d',
        redis_get (clock w') (db w') "o" = Some (Encoded (PDict d'))
        /\ dict_get "request_count" d' = Some (PInt 1)
        /\ (forall k, k <> "request_count" -> dict_get k d' = dict_get k [("data", PInt 5)])
        /\ redis_ttl (clock w') (db w') "o"
           = redis_ttl (clock world_foreign) (db world_foreign) "o")
  /\ (let (r, w') := increment_request_count float_add_any "s" world_string_count in
      r = Ok PNone /\ w' = world_string_count).
Proof.
  split.
  - exact (increment_touches_only_request_count float_add_any world_foreign "o"
             [("data", PInt 5)] 2000 redis_url _ eq_refl eq_refl eq_refl eq_refl eq_refl).
  - exact (increment_touches_only_request_count float_add_any world_string_count "s"
             [("data", PInt 5); ("request_count", PStr "5")] 2000 redis_url _
             eq_refl eq_refl eq_refl eq_refl eq_refl).
Defined.

(** X13 ([increment_request_count], [get_cached_data_by_key]): on a key
    that holds any JSON object but has no expiry, the increment never
    writes: it returns what [current_count + 1] gives when the stored
    count (0 if absent) is a number, and [None] when it is anything else.
    So a get returns the entry and leaves the store as it was: the stored
    count never moves. *)
Theorem persistent_entry_is_never_counted float_add (w : world) (cache_key : string)
    (d : dict) c :
  enabled (cache_config w) = true -> redis_client w = Some c -> net w = [] ->
  db w !! cache_key = Some (Entry (Encoded (PDict d)) None) ->
  increment_request_count float_add cache_key w
  = (match py_add float_add (default (PInt 0) (dict_get "request_count" d)) 1 with
     | Ok new_count => Ok new_count
     | Raise _ => Ok PNone
     end, w)
  /\ get_cached_data_by_key float_add cache_key w = (Ok (PDict d), w).
Proof.
  intros Hon Hc Hn Hk.
  assert (Hget : redis_get (clock w) (db w) cache_key = Some (Encoded (PDict d))).
  { unfold redis_get, lookup_live, live. rewrite Hk. reflexivity. }
  assert (Hinc : increment_request_count float_add cache_key w
                 = (match py_add float_add
                            (default (PInt 0) (dict_get "request_count" d)) 1 with
                    | Ok new_count => Ok new_count
                    | Raise _ => Ok PNone
                    end, w)).
  { destruct (py_add float_add (default (PInt 0) (dict_get "request_count" d)) 1)
      as [new_count|e] eqn:Hadd.
    - eapply increment_persistent; eassumption.
    - eapply increment_bad_count; eassumption. }
  split; [exact Hinc|].
  destruct (py_add float_add (default (PInt 0) (dict_get "request_count" d)) 1);
    eapply get_encoded; eassumption.
Qed.

Lemma persistent_entry_is_never_counted_witness :
  increment_request_count float_add_any "k" world_foreign = (Ok (PInt 4), world_foreign)
  /\ get_cached_data_by_key float_add_any "k" world_foreign
     = (Ok (cache_entry (PInt 7) 900 3), world_foreign).
Proof.
  exact (persistent_entry_is_never_counted float_add_any world_foreign "k" _ redis_url
           eq_refl eq_refl eq_refl eq_refl).
Defined.

(** X14 ([get_cached_data_by_key], [increment_request_count]): when the
    key holds a live JSON text that is not an object, a get returns the
    decoded value; the increment's failure on it is contained, and the
    store is left as it was. *)
Theorem get_returns_any_json_value float_add (w : world) (cache_key : string)
    (v : value) c :
  enabled (cache_config w) = true -> redis_client w = Some c -> net w = [] ->
  redis_get (clock w) (db w) cache_key = Some (Encoded v) ->
  is_dict v = false ->
  increment_request_count float_add cache_key w = (Ok PNone, w)
  /\ get_cached_data_by_key float_add cache_key w = (Ok v, w).
Proof.
  intros Hon Hc Hn Hget Hv.
  pose proof (increment_not_object float_add cache_key v w c Hc Hn Hget Hv) as Hinc.
  split; [exact Hinc|].
  eapply get_encoded; eassumption.
Qed.

Lemma get_returns_any_json_value_witness :
  increment_request_count float_add_any "n" world_foreign = (Ok PNone, world_foreign)
  /\ get_cached_data_by_key float_add_any "n" world_foreign
     = (Ok (PList [PInt 1; PInt 2]), world_foreign).
Proof.
  exact (get_returns_any_json_value float_add_any world_foreign "n" _ redis_url
           eq_refl eq_refl eq_refl eq_refl eq_refl).
Defined.

(** ** The decorator *)

Lemma store_never_raises cache_key data expiration_arg w :
  exists b w', store_data_with_key cache_key data expiration_arg w = (Ok b, w').
Proof.
  unfold store_data_with_key, bind at 1, gets.
  destruct (negb (enabled (cache_config w))); [eexists _, _; reflexivity|].
  apply (catch_all_total _ _ false). intros []; reflexivity.
Qed.

Lemma get_never_raises float_add cache_key w :
  exists v w', get_cached_data_by_key float_add cache_key w = (Ok v, w').
Proof.
  unfold get_cached_data_by_key, bind at 1, gets.
  destruct (negb (enabled (cache_config w))); [eexists _, _; reflexivity|].
  apply (catch_all_total _ _ PNone). intros []; reflexivity.
Qed.

(** The wrapper from the point where the key is known. *)
Lemma cache_decorator_key float_add prefix ttl func_name func args kwargs key w :
  enabled (cache_config w) = true ->
  decorator_key prefix func_name args kwargs = Ok key ->
  cache_decorator float_add prefix ttl func_name func args kwargs w
  = bind (get_cached_data_by_key float_add key)
      (fun cached_result =>
         match cached_result with
         | PNone =>
             result <- func args kwargs;;
             cfg <- gets cache_config;;
             store_data_with_key key result (Some (default (expiration cfg) ttl));;
             ret result
         | _ => ret cached_result
         end) w.
Proof.
  intros Hon Hkey. unfold cache_decorator, bind at 1, gets. rewrite Hon. cbn [negb].
  unfold decorator_key in Hkey.
  destruct (_generate_cache_key _) as [derived|e] eqn:Hd; [|discriminate].
  cbn in Hkey. injection Hkey as <-.
  unfold bind at 1, lift.
  f_equal.
Qed.

(** X15 ([cache_decorator]): a call that misses runs the function once, in
    the state the lookup left, returns its result, and stores the result
    under the call's key, wrapped with the time the function returned at
    and a count of 1, for [ttl] seconds, or for the configured expiration
    when no [ttl] was given. *)
Theorem decorator_miss_runs_and_stores float_add (prefix : string) (ttl : option Z)
    (func_name : string) (func : list value -> dict -> M value)
    (args : list value) (kwargs : dict) (w w1 : world) (key : string)
    (result : value) c c1 s :
  enabled (cache_config w) = true -> redis_client w = Some c -> net w = [] ->
  decorator_key prefix func_name args kwargs = Ok key ->
  redis_get (clock w) (db w) key = None ->
  func args kwargs w = (Ok result, w1) ->
  enabled (cache_config w1) = true -> redis_client w1 = Some c1 -> net w1 = [] ->
  json_dumps false result = Ok s ->
  0 < default (expiration (cache_config w1)) ttl ->
  cache_decorator float_add prefix ttl func_name func args kwargs w
  = (Ok result,
     set_db (<[key := Entry (Encoded (cache_entry result (clock w1) 1))
                        (Some (clock w1 + default (expiration (cache_config w1)) ttl))]>
               (db w1)) w1).
Proof.
  intros Hon Hc Hn Hkey Hmiss Hf Hon1 Hc1 Hn1 Hs Httl.
  rewrite (cache_decorator_key _ _ _ _ _ _ _ key) by assumption.
  rewrite (bind_ok _ _ w PNone w) by (eapply get_absent; eassumption).
  rewrite (bind_ok _ _ w result w1) by exact Hf.
  rewrite (bind_ok _ _ w1 (cache_config w1) w1) by reflexivity.
  erewrite bind_ok; [reflexivity|].
  rewrite (store_ok key result (Some (default (expiration (cache_config w1)) ttl)) w1 c1 s)
    by assumption.
  reflexivity.
Qed.

Lemma decorator_miss_runs_and_stores_witness :
  cache_decorator float_add_any "stats" (Some 60) "slow_double" slow_double [PInt 21] [] world_on
  = (Ok (PInt 42),
     set_db (<[key_double := Entry (Encoded (cache_entry (PInt 42) 1005 1)) (Some 1065)]> ∅)
       (set_clock 1005 world_on)).
Proof.
  exact (decorator_miss_runs_and_stores float_add_any "stats" (Some 60) "slow_double"
           slow_double [PInt 21] [] world_on (set_clock 1005 world_on) key_double (PInt 42)
           redis_url redis_url _
           eq_refl eq_refl eq_refl ltac:(vm_compute; reflexivity) eq_refl eq_refl
           eq_refl eq_refl eq_refl eq_refl eq_refl).
Defined.

(** X16 ([cache_decorator]): a call that hits a live entry does not run
    the function: whatever the function is, the call returns the entry as
    stored (the mapping with ["data"], ["cached_at"] and
    ["request_count"], not the bare result) and leaves it with its count
    raised by one. *)
Theorem decorator_hit_skips_function float_add (prefix : string) (ttl : option Z)
    (func_name : string) (func : list value -> dict -> M value)
    (args : list value) (kwargs : dict) (w : world) (key : string)
    (data : value) (at_ count T : Z) c s :
  enabled (cache_config w) = true -> redis_client w = Some c -> net w = [] ->
  decorator_key prefix func_name args kwargs = Ok key ->
  db w !! key = Some (Entry (Encoded (cache_entry data at_ count)) (Some T)) ->
  clock w < T ->
  json_dumps false data = Ok s ->
  cache_decorator float_add prefix ttl func_name func args kwargs w
  = (Ok (cache_entry data at_ count),
     set_db (<[key := Entry (Encoded (cache_entry data at_ (count + 1))) (Some T)]> (db w)) w).
Proof.
  intros Hon Hc Hn Hkey Hk Hlive Hs.
  rewrite (cache_decorator_key _ _ _ _ _ _ _ key) by assumption.
  erewrite bind_ok by (eapply get_live; eassumption).
  reflexivity.
Qed.

Lemma decorator_hit_skips_function_witness :
  cache_decorator float_add_any "stats" (Some 60) "slow_double" slow_double [PInt 21] []
    world_cached
  = (Ok (cache_entry (PInt 42) 900 1),
     set_db (<[key_double := Entry (Encoded (cache_entry (PInt 42) 900 2)) (Some 2000)]>
               (db world_cached)) world_cached).
Proof.
  exact (decorator_hit_skips_function float_add_any "stats" (Some 60) "slow_double"
           slow_double [PInt 21] [] world_cached key_double (PInt 42) 900 1 2000
           redis_url _
           eq_refl eq_refl eq_refl ltac:(vm_compute; reflexivity)
           ltac:(apply lookup_insert_eq) eq_refl eq_refl).
Defined.

(** X17 ([cache_decorator], [get_cached_data_by_key],
    [store_data_with_key]): the cache never stands between the caller and
    the function.  The lookup never raises; when it returns [None], for
    any reason (nothing stored, the server unreachable, the stored text
    not JSON, caching disabled), the call comes to what the function does
    in the state the lookup left: its result, whatever becomes of the
    attempt to store it, or its exception. *)
Theorem decorator_falls_back_to_function float_add (prefix : string) (ttl : option Z)
    (func_name : string) (func : list value -> dict -> M value)
    (args : list value) (kwargs : dict) (w : world) (key : string) :
  decorator_key prefix func_name args kwargs = Ok key ->
  let (looked, w1) := get_cached_data_by_key float_add key w in
  match looked with
  | Ok PNone =>
      (cache_decorator float_add prefix ttl func_name func args kwargs w).1
      = (func args kwargs w1).1
  | Ok cached =>
      cache_decorator float_add prefix ttl func_name func args kwargs w = (Ok cached, w1)
  | Raise _ => False
  end.
Proof.
  intros Hkey.
  destruct (enabled (cache_config w)) eqn:Hon.
  - rewrite (cache_decorator_key _ _ _ _ _ _ _ key) by assumption.
    destruct (get_never_raises float_add key w) as (v & w1 & Hget). rewrite Hget.
    rewrite (bind_ok _ _ w v w1) by exact Hget.
    destruct v; try reflexivity.
    destruct (func args kwargs w1) as [[result|e] w2] eqn:Hf.
    + rewrite (bind_ok _ _ w1 result w2) by exact Hf.
      rewrite (bind_ok _ _ w2 (cache_config w2) w2) by reflexivity.
      destruct (store_never_raises key result
                  (Some (default (expiration (cache_config w2)) ttl)) w2) as (b & w3 & Hst).
      rewrite (bind_ok _ _ w2 b w3) by exact Hst. reflexivity.
    + rewrite (bind_raise _ _ w1 e w2) by exact Hf. reflexivity.
  - assert (Hget : get_cached_data_by_key float_add key w = (Ok PNone, w)).
    { unfold get_cached_data_by_key, bind, gets. rewrite Hon. reflexivity. }
    assert (Hdec : cache_decorator float_add prefix ttl func_name func args kwargs w
                   = func args kwargs w).
    { unfold cache_decorator, bind at 1, gets. rewrite Hon. reflexivity. }
    rewrite Hget, Hdec. reflexivity.
Qed.

Lemma decorator_falls_back_to_function_witness :
  (cache_decorator float_add_any "stats" (Some 60) "slow_double" slow_double [PInt 21] []
     world_down).1
  = Ok (PInt 42).
Proof.
  exact (decorator_falls_back_to_function float_add_any "stats" (Some 60) "slow_double"
           slow_double [PInt 21] [] world_down key_double ltac:(vm_compute; reflexivity)).
Defined.

(** The key of a call cannot be derived when [json.dumps] rejects the
    arguments. *)
Lemma decorator_key_unencodable (func_name : string) (args : list value) (kwargs : dict) e :
  unique_keys (PList args) = true -> unique_keys (PDict kwargs) = true ->
  json_dumps true (PList args) = Raise e \/ json_dumps true (PDict kwargs) = Raise e ->
  _generate_cache_key
    (PDict [("func", PStr func_name); ("args", PList args); ("kwargs", PDict kwargs)])
  = Raise TypeError.
Proof.
  intros Ha Hk Hraise.
  set (cache_data := PDict [("func", PStr func_name); ("args", PList args);
                            ("kwargs", PDict kwargs)]).
  assert (Hu : unique_keys cache_data = true).
  { change (unique_keys cache_data)
      with (bool_decide (NoDup ["func"; "args"; "kwargs"])
            && (true && (unique_keys (PList args) && (unique_keys (PDict kwargs) && true)))).
    rewrite Ha, Hk. reflexivity. }
  assert (Hd : exists e', json_dumps true cache_data = Raise e').
  { change (json_dumps true cache_data)
      with (items ← (y ← Ok ("func", json_string func_name);
                     ys ← (y ← (s ← json_dumps true (PList args); Ok ("args", s));
                           ys ← (y ← (s ← json_dumps true (PDict kwargs); Ok ("kwargs", s));
                                 ys ← Ok []; Ok (y :: ys));
                           Ok (y :: ys));
                     Ok (y :: ys));
            Ok ("{" +:+ join ", " ((fun ks : string * string =>
                                      json_string ks.1 +:+ ": " +:+ ks.2) <$> sorted items)
                +:+ "}")).
    destruct Hraise as [-> | Hkw]; [eexists; reflexivity|].
    rewrite Hkw. destruct (json_dumps true (PList args)); eexists; reflexivity. }
  destruct Hd as [e' Hd].
  pose proof (json_dumps_raises_TypeError _ _ _ Hd) as ->.
  unfold _generate_cache_key. fold cache_data.
  change (match cache_data with
          | PDict _ => json_dumps true (sort_dict_recursive cache_data)
          | PList l => json_dumps (existsb is_dict l) cache_data
          | PStr s => Ok s
          | _ => match json_dumps false cache_data with
                 | Ok s => Ok s
                 | Raise TypeError | Raise ValueError | Raise JSONDecodeError =>
                     Ok (py_str cache_data)
                 | Raise e => Raise e
                 end
          end) with (json_dumps true (sort_dict_recursive cache_data)).
  rewrite json_dumps_sorted_canonical by exact Hu. rewrite Hd. reflexivity.
Qed.

(** X18 ([cache_decorator], [_generate_cache_key]): with caching enabled,
    a call with a positional or keyword argument that [json.dumps] cannot
    encode fails in the wrapper with [TypeError], before the cache is
    looked up and without the function being run. *)
Theorem decorator_rejects_unencodable_arguments float_add (prefix : string)
    (ttl : option Z) (func_name : string) (func : list value -> dict -> M value)
    (args : list value) (kwargs : dict) (w : world) e :
  enabled (cache_config w) = true ->
  unique_keys (PList args) = true -> unique_keys (PDict kwargs) = true ->
  json_dumps true (PList args) = Raise e \/ json_dumps true (PDict kwargs) = Raise e ->
  cache_decorator float_add prefix ttl func_name func args kwargs w = (Raise TypeError, w).
Proof.
  intros Hon Ha Hk Hraise.
  unfold cache_decorator, bind at 1, gets. rewrite Hon. cbn [negb].
  apply bind_raise. unfold lift.
  rewrite (decorator_key_unencodable func_name args kwargs e Ha Hk Hraise).
  reflexivity.
Qed.

Lemma decorator_rejects_unencodable_arguments_witness :
  cache_decorator float_add_any "stats" (Some 60) "slow_double" slow_double
    [PObject "<ee.Image object>"] [] world_on
  = (Raise TypeError, world_on).
Proof.
  exact (decorator_rejects_unencodable_arguments float_add_any "stats" (Some 60)
           "slow_double" slow_double [PObject "<ee.Image object>"] [] world_on TypeError
           eq_refl eq_refl eq_refl (or_introl eq_refl)).
Defined.

(** X19 ([cache_decorator], [_generate_cache_key]): the key of a call does
    not depend on the order in which keyword arguments are given, nor on
    the insertion order of mappings among the arguments: calls whose
    arguments have the same content share one cache entry. *)
Theorem decorator_key_ignores_keyword_order (prefix func_name : string)
    (args args' : list value) (kwargs kwargs' : dict) :
  unique_keys (PList args) = true -> unique_keys (PList args') = true ->
  unique_keys (PDict kwargs) = true -> unique_keys (PDict kwargs') = true ->
  same_content (PList args) (PList args') ->
  same_content (PDict kwargs) (PDict kwargs') ->
  decorator_key prefix func_name args kwargs = decorator_key prefix func_name args' kwargs'.
Proof.
  intros Ha Ha' Hk Hk' Hargs Hkwargs.
  unfold decorator_key, _generate_cache_key.
  rewrite (sort_dict_recursive_same_content
             (PDict [("func", PStr func_name); ("args", PList args); ("kwargs", PDict kwargs)])
             (PDict [("func", PStr func_name); ("args", PList args');
                     ("kwargs", PDict kwargs')])).
  - reflexivity.
  - change (bool_decide (NoDup ["func"; "args"; "kwargs"])
            && (true && (unique_keys (PList args) && (unique_keys (PDict kwargs) && true)))
            = true).
    rewrite Ha, Hk. reflexivity.
  - change (bool_decide (NoDup ["func"; "args"; "kwargs"])
            && (true && (unique_keys (PList args') && (unique_keys (PDict kwargs') && true)))
            = true).
    rewrite Ha', Hk'. reflexivity.
  - apply sc_dict. intros k. cbn [dict_get].
    repeat case_decide; try constructor; try assumption.
    apply sc_atom. reflexivity.
Qed.

Lemma decorator_key_ignores_keyword_order_witness :
  decorator_key "stats" "slow_double" [PInt 21] request_a
  = decorator_key "stats" "slow_double" [PInt 21] request_b.
Proof.
  apply decorator_key_ignores_keyword_order.
  - reflexivity.
  - reflexivity.
  - vm_compute; reflexivity.
  - vm_compute; reflexivity.
  - same_content_cases.
  - unfold request_a, request_b. same_content_cases.
Defined.

(** ** Parameters that cannot be encoded *)

(** Whether [json.dumps] rejects a value does not depend on [sort_keys]. *)
Lemma json_dumps_raise_flag b b' v :
  forall e, json_dumps b v = Raise e -> json_dumps b' v = Raise TypeError.
Proof.
  induction v as [|[]| | | |l IH|d IH|] using value_nested_ind;
    intros e; cbn [json_dumps]; try discriminate; try reflexivity.
  - intros Hraise.
    destruct (mapM (json_dumps b) l) as [elems|e1] eqn:Hm; [discriminate|].
    destruct (mapM_Raise_elem _ _ _ Hm) as (x & e2 & Hin & Hx).
    rewrite Forall_forall in IH. pose proof (IH x Hin e2 Hx) as Hx'.
    destruct (mapM (json_dumps b') l) as [elems'|e3] eqn:Hm'.
    + destruct (mapM_Ok_elem _ _ _ x Hm' Hin) as [y Hy]. congruence.
    + cbn. f_equal. apply (json_dumps_raises_TypeError b' (PList l)).
      cbn [json_dumps]. rewrite Hm'. reflexivity.
  - intros Hraise.
    set (g := fun sk (kv : string * value) => s ← json_dumps sk kv.2; Ok (kv.1, s)).
    change (mapM _ d) with (mapM (g b) d) in Hraise.
    change (mapM _ d) with (mapM (g b') d).
    destruct (mapM (g b) d) as [items|e1] eqn:Hm; [discriminate|].
    destruct (mapM_Raise_elem _ _ _ Hm) as (x & e2 & Hin & Hx).
    rewrite Forall_forall in IH.
    assert (Hx' : json_dumps b' x.2 = Raise TypeError).
    { unfold g in Hx. destruct (json_dumps b x.2) as [s|e4] eqn:Hs; [discriminate|].
      exact (IH x Hin e4 Hs). }
    destruct (mapM (g b') d) as [items'|e3] eqn:Hm'.
    + destruct (mapM_Ok_elem _ _ _ x Hm' Hin) as [y Hy].
      unfold g in Hy. rewrite Hx' in Hy. discriminate.
    + cbn. f_equal. apply (json_dumps_raises_TypeError b' (PDict d)).
      cbn [json_dumps]. fold (g b'). rewrite Hm'. reflexivity.
Qed.

(** A put of a payload json cannot encode reports failure, whatever the
    state of the connection. *)
Lemma store_unserializable_any cache_key data expiration_arg w e :
  json_dumps false data = Raise e ->
  exists w', store_data_with_key cache_key data expiration_arg w = (Ok false, w').
Proof.
  intros Hs.
  unfold store_data_with_key, bind at 1, gets.
  destruct (negb (enabled (cache_config w))); [eexists; reflexivity|].
  destruct (store_data_with_key_try cache_key data expiration_arg w) as [[b|e'] w'] eqn:Htry.
  - exists w'. rewrite (catch_ok _ _ w b w') by exact Htry. f_equal. f_equal.
    unfold store_data_with_key_try in Htry.
    destruct (get_redis_client w) as [[client|e1] w1] eqn:Hg.
    + rewrite (bind_ok _ _ w client w1) in Htry by exact Hg.
      destruct (is_none client); [injection Htry as <- _; reflexivity|].
      unfold bind at 1, time_time, gets in Htry.
      unfold bind at 1, catch, bind at 1, lift in Htry.
      change (PDict _) with (cache_entry data (clock w1) 1) in Htry.
      pose proof (json_dumps_raises_TypeError _ _ _ Hs) as ->.
      erewrite json_dumps_entry_raise in Htry by eassumption.
      injection Htry as <- _. reflexivity.
    + rewrite (bind_raise _ _ w e1 w1) in Htry by exact Hg. discriminate.
  - exists w'. eapply catch_default; [intros []; reflexivity | exact Htry].
Qed.

(** X20 ([get_cached_data], [store_data], [_generate_cache_key]): with
    caching enabled and a parameter mapping that [json.dumps] rejects, the
    key derivation of [get_cached_data] is outside any [try]: the call
    raises [TypeError] to its caller.  [store_data] on the same mapping
    contains the error and returns [None]. *)
Theorem get_cached_data_lets_TypeError_escape float_add (w : world) (params : dict)
    (analysis_type : string) (expiration_arg : option Z) e :
  enabled (cache_config w) = true ->
  unique_keys (PDict params) = true ->
  json_dumps false (PDict params) = Raise e ->
  get_cached_data float_add params analysis_type w = (Raise TypeError, w)
  /\ (store_data params analysis_type expiration_arg w).1 = Ok None.
Proof.
  intros Hon Hu Hs. split.
  - unfold get_cached_data, bind at 1, gets. rewrite Hon. cbn [negb].
    apply bind_raise. unfold lift, _generate_cache_key.
    rewrite json_dumps_sorted_canonical by exact Hu.
    rewrite (json_dumps_raise_flag false true _ e Hs). reflexivity.
  - unfold store_data, bind at 1, gets. rewrite Hon. cbn [negb]. cbv zeta.
    set (data_copy := if decide (analysis_type = EmptyString) then params
                      else dict_set "_type" (PStr analysis_type) params).
    unfold catch.
    destruct (_generate_cache_key (PDict data_copy)) as [key|e1] eqn:Hkey.
    + rewrite (bind_ok _ _ w key w) by reflexivity.
      destruct (store_unserializable_any key (PDict params) expiration_arg w e Hs)
        as [w' Hst].
      rewrite (bind_ok _ _ w false w') by exact Hst. reflexivity.
    + rewrite (bind_raise _ _ w e1 w) by reflexivity.
      reflexivity.
Qed.

Lemma get_cached_data_lets_TypeError_escape_witness :
  get_cached_data float_add_any [("image", PObject "<ee.Image object>")] "ndvi" world_on
  = (Raise TypeError, world_on)
  /\ (store_data [("image", PObject "<ee.Image object>")] "ndvi" None world_on).1 = Ok None.
Proof.
  exact (get_cached_data_lets_TypeError_escape float_add_any world_on
           [("image", PObject "<ee.Image object>")] "ndvi" None TypeError
           eq_refl eq_refl eq_refl).
Defined.

(** ** The sweep, whatever fails *)

(** The loop removes, by name, some of the expired entries of the listing,
    in order, and counts each one. *)
Lemma sweep_removed now max_age_days listing :
  forall n fs,
    exists removed,
      removed `sublist_of` filter (fun f => expired now max_age_days f = true) listing
      /\ (sweep now (max_age_days * 86400) listing (n, fs)).2
         = (n + Z.of_nat (length removed),
            filter (fun g => filename g ∉ filename <$> removed) fs).
Proof.
  assert (Hnone : forall n (fs : list file),
             (n, fs) = (n + Z.of_nat (length (@nil file)),
                        filter (fun g => filename g ∉ filename <$> @nil file) fs)).
  { intros n fs. cbn [length]. rewrite Z.add_0_r, filter_all; [reflexivity|].
    intros x _. cbn. apply not_elem_of_nil. }
  induction listing as [|f rest IH]; intros n fs.
  - exists []. split; [constructor | apply Hnone].
  - cbn [sweep]. destruct (isdir f) eqn:Hdir.
    + destruct (IH n fs) as (removed & Hsub & Heq). exists removed.
      split; [|exact Heq].
      rewrite filter_cons_False by (unfold expired; rewrite Hdir; cbn; congruence).
      exact Hsub.
    + destruct (getmtime f) as [m|e] eqn:Hm.
      * destruct (bool_decide (now - m > max_age_days * 86400)) eqn:Hage.
        -- unfold os_remove. destruct (removable f) eqn:Hrem; cbn [fst snd].
           ++ destruct (IH (n + 1) (filter (fun g => filename g <> filename f) fs))
                as (removed & Hsub & Heq).
              exists (f :: removed). split.
              ** rewrite filter_cons_True
                   by (unfold expired; rewrite Hdir, Hm, Hage; reflexivity).
                 by apply sublist_skip.
              ** rewrite Heq. cbn [length]. rewrite list_filter_filter.
                 f_equal; [lia|].
                 apply list_filter_iff. intros g.
                 rewrite fmap_cons, elem_of_cons. tauto.
           ++ exists []. split; [apply sublist_nil_l | apply Hnone].
        -- destruct (IH n fs) as (removed & Hsub & Heq). exists removed.
           split; [|exact Heq].
           rewrite filter_cons_False
             by (unfold expired; rewrite Hdir, Hm, Hage; cbn; congruence).
           exact Hsub.
      * exists []. split; [apply sublist_nil_l | apply Hnone].
Qed.

(** Removing by name some entries of a listing with distinct names takes
    away as many entries as were named. *)
Lemma length_filter_removed (removed l : list file) :
  NoDup (filename <$> l) -> removed `sublist_of` l ->
  (length (filter (fun g => filename g ∉ filename <$> removed) l) + length removed
   = length l)%nat.
Proof.
  intros Hnd Hsub. induction Hsub as [|x r l' Hsub IH|x r l' Hsub IH].
  - reflexivity.
  - rewrite fmap_cons in Hnd. apply NoDup_cons in Hnd as [Hx Hnd].
    rewrite filter_cons_False by (intros Hn; apply Hn; rewrite fmap_cons; by left).
    cbn [length]. rewrite <- (IH Hnd), Nat.add_succ_r. f_equal. f_equal. f_equal.
    apply filter_ext_in. intros g Hg. rewrite fmap_cons, not_elem_of_cons.
    split; [tauto|]. intros Hn. split; [|exact Hn].
    intros Heq. apply Hx. rewrite <- Heq. apply list_elem_of_fmap. eauto.
  - rewrite fmap_cons in Hnd. apply NoDup_cons in Hnd as [Hx Hnd].
    rewrite filter_cons_True.
    + cbn [length]. rewrite <- (IH Hnd). reflexivity.
    + intros [g [Heq Hg]]%list_elem_of_fmap. apply Hx.
      rewrite Heq. apply list_elem_of_fmap. exists g. split; [reflexivity|].
      eapply elem_of_sublist; eassumption.
Qed.

(** X21 ([clean_expired_files]): whatever fails during the sweep, no
    directory and no file within the age limit is ever removed: every
    entry that is gone afterwards was a regular file older than
    [max_age_days] days.  The count returned is the number of entries
    actually removed, also when the sweep stopped early, and the only
    exception that leaves the function is the [OSError] of creating the
    cache directory, raised before anything is touched. *)
Theorem sweep_removes_only_expired (max_age_days : Z) (d : disk) :
  NoDup (filename <$> files d) ->
  let (r, d') := clean_expired_files max_age_days d in
  files d' `sublist_of` files d
  /\ (forall f, f ∈ files d -> f ∉ files d' ->
        expired (disk_clock d) max_age_days f = true)
  /\ (forall n, r = Ok n ->
        n = Z.of_nat (length (files d)) - Z.of_nat (length (files d')))
  /\ (forall e, r = Raise e -> e = OSError /\ makedirs_ok d = false /\ d' = d).
Proof.
  intros Hnd. unfold clean_expired_files.
  destruct (makedirs_ok d) eqn:Hmk; cbn [negb].
  2:{ split; [reflexivity|]. split; [intros f Hin Hout; contradiction|].
      split; [discriminate|]. intros e [= <-]. auto. }
  destruct (listdir_ok d) eqn:Hls; cbn [negb].
  2:{ split; [reflexivity|]. split; [intros f Hin Hout; contradiction|].
      split; [intros n [= <-]; lia | discriminate]. }
  destruct (sweep_removed (disk_clock d) max_age_days (files d) 0 (files d))
    as (removed & Hsub & Heq).
  assert (Hsub' : removed `sublist_of` files d).
  { etransitivity; [exact Hsub | apply sublist_filter]. }
  destruct (sweep _ _ _ _) as [res [rc fs]]. cbn [snd] in Heq.
  injection Heq as -> ->.
  assert (Hall : let d' := Disk (disk_clock d) true true
                             (filter (fun g => filename g ∉ filename <$> removed) (files d)) in
                 files d' `sublist_of` files d
                 /\ (forall f, f ∈ files d -> f ∉ files d' ->
                       expired (disk_clock d) max_age_days f = true)
                 /\ 0 + Z.of_nat (length removed)
                    = Z.of_nat (length (files d)) - Z.of_nat (length (files d'))).
  { cbn [files]. split; [apply sublist_filter|]. split.
    - intros f Hin Hout.
      destruct (decide (filename f ∈ filename <$> removed)) as [Hr|Hr].
      + apply list_elem_of_fmap in Hr as (g & Hname & Hg).
        pose proof (elem_of_sublist _ _ _ Hg Hsub) as [HE Hgin]%list_elem_of_filter.
        assert (f = g) as -> by (eapply NoDup_fmap_elem_inj; eauto).
        exact HE.
      + exfalso. apply Hout. apply list_elem_of_filter. auto.
    - pose proof (length_filter_removed removed (files d) Hnd Hsub'). lia. }
  destruct Hall as (H1 & H2 & H3).
  destruct res as [[]|e]; cbn [files].
  - split; [exact H1|]. split; [exact H2|]. split; [intros n [= <-]; exact H3 | discriminate].
  - split; [exact H1|]. split; [exact H2|]. split; [intros n [= <-]; exact H3 | discriminate].
Qed.

Lemma sweep_removes_only_expired_witness :
  let (r, d') := clean_expired_files 7 disk_partial in
  r = Ok 1 /\ files d' = [file_locked; file_older; file_recent].
Proof.
  pose proof (sweep_removes_only_expired 7 disk_partial ltac:(by_decide)) as H.
  destruct (clean_expired_files 7 disk_partial) as [r d'] eqn:Hrun.
  destruct H as (_ & _ & Hcount & _).
  vm_compute in Hrun. injection Hrun as <- <-.
  split; [rewrite (Hcount 1 eq_refl)|]; reflexivity.
Defined.

Lemma filter_none {A} (P : A -> Prop) `{!forall x, Decision (P x)} (l : list A) :
  (forall x, x ∈ l -> ~ P x) -> filter P l = [].
Proof.
  induction l as [|x l IH]; intros Hall; [reflexivity|].
  rewrite filter_cons_False by (apply Hall; by left).
  apply IH. intros y Hy. apply Hall. by right.
Qed.

(** X22 ([clean_expired_files]): when no operation fails, a second sweep
    at the same time and with the same limit finds nothing to remove: it
    returns 0 and leaves the directory as the first sweep left it. *)
Theorem sweep_twice_removes_nothing (max_age_days : Z) (d : disk) :
  makedirs_ok d = true -> listdir_ok d = true ->
  NoDup (filename <$> files d) ->
  Forall (sound (disk_clock d) max_age_days) (files d) ->
  let (r, d') := clean_expired_files max_age_days d in
  clean_expired_files max_age_days d' = (Ok 0, d').
Proof.
  intros Hmk Hls Hnd Hsound.
  rewrite clean_expired_files_sound by assumption.
  set (E := fun f : file => expired (disk_clock d) max_age_days f = true).
  set (kept := filter (fun f => expired (disk_clock d) max_age_days f <> true) (files d)).
  rewrite clean_expired_files_sound; cbn [disk_clock makedirs_ok listdir_ok files];
    try reflexivity.
  - assert (Hnone : filter E kept = []).
    { apply filter_none. intros f [Hf _]%list_elem_of_filter. exact Hf. }
    fold E. rewrite Hnone. cbn [length]. do 2 f_equal.
    apply filter_all. intros f [Hf _]%list_elem_of_filter. exact Hf.
  - eapply sublist_NoDup; [exact Hnd|]. apply fmap_sublist, sublist_filter.
  - apply Forall_forall. intros f [_ Hf]%list_elem_of_filter.
    rewrite Forall_forall in Hsound. by apply Hsound.
Qed.

Lemma sweep_twice_removes_nothing_witness :
  let (r, d') := clean_expired_files 7 disk_ok in
  r = Ok 1 /\ clean_expired_files 7 d' = (Ok 0, d').
Proof.
  assert (Hsound : Forall (sound (disk_clock disk_ok) 7) (files disk_ok)).
  { repeat constructor; intros _; eexists; (split; [reflexivity | reflexivity]). }
  pose proof (sweep_twice_removes_nothing 7 disk_ok eq_refl eq_refl ltac:(by_decide) Hsound)
    as H.
  destruct (clean_expired_files 7 disk_ok) as [r d'] eqn:Hrun.
  split; [|exact H].
  vm_compute in Hrun. injection Hrun as <- _. reflexivity.
Defined.

(** ** File cache paths *)

Lemma hexdigest_shape msg :
  String.length (SHA256.hexdigest msg) = 64%nat
  /\ forallb is_lower_hex (list_ascii_of_string (SHA256.hexdigest msg)) = true.
Proof.
  destruct (digest_bytes msg) as [Hlen Hbytes].
  destruct (hex_of_bytes_shape _ Hbytes) as [Hl Hh].
  unfold SHA256.hexdigest. rewrite Hl, Hlen. split; [reflexivity | exact Hh].
Qed.

Lemma prefix_app (a b : string) : String.prefix a (a +:+ b) = true.
Proof.
  induction a as [|c a IH]; [destruct b; reflexivity|].
  change (String c a +:+ b) with (String c (a +:+ b)). cbn [String.prefix].
  destruct (Ascii.ascii_dec c c); [exact IH | contradiction].
Qed.

(** A name that begins with a hexadecimal digit is not an absolute path. *)
Lemma hex_name_is_relative (h rest : string) :
  String.length h = 64%nat ->
  forallb is_lower_hex (list_ascii_of_string h) = true ->
  String.prefix "/" (h +:+ rest) = false.
Proof.
  destruct h as [|c h]; [discriminate|]. intros _ Hhex.
  change (String c h +:+ rest) with (String c (h +:+ rest)).
  cbn [list_ascii_of_string forallb] in Hhex. apply andb_prop in Hhex as [Hc _].
  cbn [String.prefix]. destruct (Ascii.ascii_dec "/" c) as [<-|]; [|reflexivity].
  discriminate Hc.
Qed.

Lemma app_empty_r (s : string) : s +:+ EmptyString = s.
Proof.
  induction s as [|c s IH]; [reflexivity|].
  change (String c s +:+ EmptyString) with (String c (s +:+ EmptyString)).
  by rewrite IH.
Qed.

(** X23 ([generate_file_cache_path]): the path of a cached file always
    lies under [CACHE_DIR], whatever the identifier: the name is a hash,
    so it is never taken for an absolute path by [os.path.join].  An
    extension given without its dot names the same file as the extension
    with the dot. *)
Theorem file_cache_path_under_cache_dir (CACHE_DIR identifier extension : string) :
  String.prefix CACHE_DIR (generate_file_cache_path CACHE_DIR identifier extension) = true
  /\ (extension <> EmptyString -> String.prefix "." extension = false ->
      generate_file_cache_path CACHE_DIR identifier extension
      = generate_file_cache_path CACHE_DIR identifier ("." +:+ extension)).
Proof.
  split.
  - unfold generate_file_cache_path.
    destruct (hexdigest_shape (encode_utf8 identifier)) as [Hlen Hhex].
    set (h := SHA256.hexdigest (encode_utf8 identifier)) in *.
    assert (Hrel : forall rest, os_path_join CACHE_DIR (h +:+ rest)
                                = if decide (CACHE_DIR = EmptyString) then CACHE_DIR +:+ h +:+ rest
                                  else if ends_with_sep CACHE_DIR then CACHE_DIR +:+ h +:+ rest
                                  else CACHE_DIR +:+ "/" +:+ h +:+ rest).
    { intros rest. unfold os_path_join.
      rewrite (hex_name_is_relative h rest Hlen Hhex). reflexivity. }
    assert (Hpre : forall rest, String.prefix CACHE_DIR (os_path_join CACHE_DIR (h +:+ rest))
                                = true).
    { intros rest. rewrite Hrel.
      destruct (decide _); [|destruct (ends_with_sep _)]; apply prefix_app. }
    destruct (decide (extension = EmptyString)); [|apply Hpre].
    rewrite <- (app_empty_r h). apply Hpre.
  - intros Hne Hdot. unfold generate_file_cache_path.
    rewrite !decide_False by (assumption || discriminate).
    rewrite Hdot, (prefix_app "." extension). reflexivity.
Qed.

Lemma file_cache_path_under_cache_dir_witness :
  generate_file_cache_path "cache" "S2_tile_42" "tif"
  = generate_file_cache_path "cache" "S2_tile_42" ".tif".
Proof.
  destruct (file_cache_path_under_cache_dir "cache" "S2_tile_42" "tif") as [_ H].
  apply H; [discriminate | reflexivity].
Defined.

(** ** A get and the entry under another key *)

Section indifference.
Context (k : string) (e : entry).

Lemma indifferent_ret {A} (a : A) : indifferent k e (ret a).
Proof. intros w. reflexivity. Qed.

Lemma indifferent_raise {A} (x : exn) : indifferent k e (@raise A x).
Proof. intros w. reflexivity. Qed.

Lemma indifferent_lift {A} (o : outcome A) : indifferent k e (lift o).
Proof. intros w. reflexivity. Qed.

Lemma indifferent_gets {A} (f : world -> A) :
  (forall w, f (with_entry k e w) = f w) -> indifferent k e (gets f).
Proof. intros Hf w. unfold gets. rewrite Hf. reflexivity. Qed.

Lemma indifferent_modify (g : world -> world) :
  (forall w, g (with_entry k e w) = with_entry k e (g w)) -> indifferent k e (modify g).
Proof. intros Hg w. unfold modify. rewrite Hg. reflexivity. Qed.

Lemma indifferent_bind {A B} (m : M A) (f : A -> M B) :
  indifferent k e m -> (forall a, indifferent k e (f a)) -> indifferent k e (bind m f).
Proof.
  intros Hm Hf w. unfold bind. rewrite Hm.
  destruct (m w) as [[a|x] w']; [apply Hf | reflexivity].
Qed.

Lemma indifferent_catch {A} (m : M A) (h : exn -> M A) :
  indifferent k e m -> (forall x, indifferent k e (h x)) -> indifferent k e (catch m h).
Proof.
  intros Hm Hh w. unfold catch. rewrite Hm.
  destruct (m w) as [[a|x] w']; [reflexivity | apply Hh].
Qed.

Lemma indifferent_round_trip : indifferent k e round_trip.
Proof. intros w. unfold round_trip. cbn. destruct (net w) as [|[x|] n]; reflexivity. Qed.

Lemma lookup_live_other now (d : keyspace) k' :
  k' <> k -> lookup_live now (<[k := e]> d) k' = lookup_live now d k'.
Proof. intros Hne. unfold lookup_live. rewrite lookup_insert_ne by congruence. reflexivity. Qed.

Lemma indifferent_client_get k' : k' <> k -> indifferent k e (client_get k').
Proof.
  intros Hne. apply indifferent_bind; [apply indifferent_round_trip|].
  intros _. apply indifferent_gets. intros w. cbn.
  unfold redis_get. rewrite lookup_live_other by assumption. reflexivity.
Qed.

Lemma indifferent_client_ttl k' : k' <> k -> indifferent k e (client_ttl k').
Proof.
  intros Hne. apply indifferent_bind; [apply indifferent_round_trip|].
  intros _. apply indifferent_gets. intros w. cbn.
  unfold redis_ttl. rewrite lookup_live_other by assumption. reflexivity.
Qed.

Lemma indifferent_client_expire k' secs :
  k' <> k -> indifferent k e (client_expire k' secs).
Proof.
  intros Hne. apply indifferent_bind; [apply indifferent_round_trip|].
  intros _. apply indifferent_modify. intros w.
  unfold with_entry, set_db. cbn. f_equal.
  unfold redis_expire. rewrite lookup_live_other by assumption.
  destruct (lookup_live (clock w) (db w) k') as [e'|]; [|reflexivity].
  destruct (bool_decide (0 < secs)).
  - apply insert_insert_ne. congruence.
  - apply delete_insert_ne. congruence.
Qed.

Lemma indifferent_client_setex k' secs t :
  k' <> k -> indifferent k e (client_setex k' secs t).
Proof.
  intros Hne w. unfold client_setex, bind, gets, id, lift, modify, round_trip.
  cbn. destruct (net w) as [|[x|] n]; cbn; try reflexivity;
    unfold redis_setex; destruct (bool_decide (0 < secs)); cbn; try reflexivity;
    unfold with_entry, set_db; cbn; do 2 f_equal; apply insert_insert_ne; congruence.
Qed.

Lemma indifferent_sleep secs : indifferent k e (sleep secs).
Proof. apply indifferent_modify. intros w. reflexivity. Qed.

Lemma indifferent_connect url attempts : indifferent k e (connect url attempts).
Proof.
  induction attempts as [|attempt rest IH]; cbn [connect].
  - apply indifferent_gets. reflexivity.
  - apply indifferent_catch.
    + apply indifferent_bind; [apply indifferent_lift|]. intros c.
      apply indifferent_bind; [apply indifferent_modify; reflexivity|]. intros _.
      apply indifferent_bind; [apply indifferent_round_trip|]. intros _.
      apply indifferent_ret.
    + intros x.
      assert (Hgive_up : indifferent k e
                (modify (set_redis_client None);; @raise (option string) ConnectionError)).
      { apply indifferent_bind; [apply indifferent_modify; reflexivity|].
        intros _. apply indifferent_raise. }
      destruct x; try exact Hgive_up.
      destruct (bool_decide (attempt < max_retries - 1)); [|exact Hgive_up].
      apply indifferent_bind; [apply indifferent_sleep | intros _; exact IH].
Qed.

Lemma indifferent_get_redis_client : indifferent k e get_redis_client.
Proof.
  apply indifferent_bind; [apply indifferent_gets; reflexivity|].
  intros [c|]; [apply indifferent_ret|].
  apply indifferent_bind; [apply indifferent_gets; reflexivity|].
  intros [[|a u]|]; try apply indifferent_raise.
  apply indifferent_connect.
Qed.

Lemma indifferent_increment float_add k' :
  k' <> k -> indifferent k e (increment_request_count float_add k').
Proof.
  intros Hne. apply indifferent_catch; [|intros []; apply indifferent_ret].
  apply indifferent_bind; [apply indifferent_get_redis_client|]. intros client.
  destruct (is_none client); [apply indifferent_ret|].
  apply indifferent_bind; [by apply indifferent_client_get|]. intros [current|];
    [|apply indifferent_ret].
  destruct (negb (text_truthy current)); [apply indifferent_ret|].
  apply indifferent_catch;
    [|intros []; first [apply indifferent_ret | apply indifferent_raise]].
  apply indifferent_bind; [apply indifferent_lift|]. intros data_dict.
  apply indifferent_bind; [apply indifferent_lift|]. intros current_count.
  apply indifferent_bind; [apply indifferent_lift|]. intros new_count.
  apply indifferent_bind; [apply indifferent_lift|]. intros data_dict'.
  apply indifferent_bind; [by apply indifferent_client_ttl|]. intros ttl.
  apply indifferent_bind; [|intros _; apply indifferent_ret].
  destruct (bool_decide (0 < ttl)); [|apply indifferent_ret].
  apply indifferent_bind; [apply indifferent_gets; reflexivity|]. intros cfg.
  apply indifferent_bind; [by apply indifferent_client_expire|]. intros _.
  apply indifferent_bind; [apply indifferent_lift|]. intros serialized.
  by apply indifferent_client_setex.
Qed.

Lemma indifferent_get float_add k' :
  k' <> k -> indifferent k e (get_cached_data_by_key float_add k').
Proof.
  intros Hne.
  apply indifferent_bind; [apply indifferent_gets; reflexivity|]. intros cfg.
  destruct (negb (enabled cfg)); [apply indifferent_ret|].
  apply indifferent_catch; [|intros []; apply indifferent_ret].
  apply indifferent_bind; [apply indifferent_get_redis_client|]. intros client.
  destruct (is_none client); [apply indifferent_ret|].
  apply indifferent_bind; [by apply indifferent_client_get|]. intros [cached|];
    [|apply indifferent_ret].
  destruct (negb (text_truthy cached)); [apply indifferent_ret|].
  apply indifferent_catch;
    [|intros []; first [apply indifferent_ret | apply indifferent_raise]].
  apply indifferent_bind; [apply indifferent_lift|]. intros data.
  apply indifferent_bind; [by apply indifferent_increment|]. intros _.
  apply indifferent_ret.
Qed.
End indifference.

(** ** The text that is hashed *)

Local Abbreviation chars := list_ascii_of_string.

Lemma chars_app (a b : string) : chars (a +:+ b) = chars a ++ chars b.
Proof.
  induction a as [|c a IH]; [reflexivity|].
  change (String c a +:+ b) with (String c (a +:+ b)). cbn. by rewrite IH.
Qed.

Lemma string_app_assoc (a b c : string) : (a +:+ b) +:+ c = a +:+ b +:+ c.
Proof.
  induction a as [|x a IH]; [reflexivity|].
  change ((String x a +:+ b) +:+ c) with (String x ((a +:+ b) +:+ c)).
  by rewrite IH.
Qed.

Lemma chars_inj (a b : string) : chars a = chars b -> a = b.
Proof.
  intros H. rewrite <- (string_of_list_ascii_of_string a),
              <- (string_of_list_ascii_of_string b), H. reflexivity.
Qed.

Lemma chars_length (a : string) : length (chars a) = String.length a.
Proof. induction a as [|c a IH]; [reflexivity|]. cbn. by rewrite IH. Qed.

(** [escape_char] can be read back, whatever follows. *)
Lemma unescape_head_escape_char c rest :
  unescape_head (escape_char c +:+ rest) = Some (c, rest).
Proof.
  destruct c as [[] [] [] [] [] [] [] []]; reflexivity.
Qed.

Lemma escape_char_inj c1 c2 r1 r2 :
  escape_char c1 +:+ r1 = escape_char c2 +:+ r2 -> c1 = c2 /\ r1 = r2.
Proof.
  intros H. apply (f_equal unescape_head) in H.
  rewrite !unescape_head_escape_char in H. by injection H.
Qed.

(** An escaped character never begins with a bare quote. *)
Lemma escape_char_not_quote c r r' : escape_char c +:+ r <> String dquote r'.
Proof.
  intros H. pose proof (f_equal unescape_head H) as Hu.
  rewrite unescape_head_escape_char in Hu. cbn in Hu.
  injection Hu as -> ->. discriminate H.
Qed.

Lemma escape_inj s1 s2 r1 r2 :
  escape s1 +:+ String dquote r1 = escape s2 +:+ String dquote r2 -> s1 = s2.
Proof.
  revert s2. induction s1 as [|c1 s1 IH]; intros [|c2 s2]; cbn [escape].
  - reflexivity.
  - intros H. exfalso. rewrite string_app_assoc in H.
    change (EmptyString +:+ String dquote r1) with (String dquote r1) in H.
    symmetry in H. by apply escape_char_not_quote in H.
  - intros H. exfalso. rewrite string_app_assoc in H.
    change (EmptyString +:+ String dquote r2) with (String dquote r2) in H.
    by apply escape_char_not_quote in H.
  - rewrite !string_app_assoc. intros [-> H]%escape_char_inj.
    f_equal. by apply IH.
Qed.

Lemma json_string_inj s1 s2 : json_string s1 = json_string s2 -> s1 = s2.
Proof.
  unfold json_string, str1. intros [= H]. by apply escape_inj in H.
Qed.

Lemma str_int_not_quote n r : str_int n <> String dquote r.
Proof.
  unfold str_int, NilZero.string_of_int. intros H.
  destruct (Z.to_int n) as [u|u]; [|discriminate H].
  unfold NilZero.string_of_uint in H. destruct u; cbn in H; discriminate H.
Qed.

(** Only a string is written as a string. *)
Lemma json_dumps_is_string sort_keys v t :
  (forall r, v = PFloat r -> String.prefix (str1 dquote) r = false) ->
  json_dumps sort_keys v = Ok (json_string t) -> v = PStr t.
Proof.
  intros Hfloat. unfold json_string.
  destruct v as [|[]|n|r|s|l|d|r]; cbn [json_dumps]; try discriminate.
  - intros [= H]. by apply str_int_not_quote in H.
  - intros [= ->]. specialize (Hfloat _ eq_refl). cbn in Hfloat.
    destruct (escape t +:+ str1 dquote); discriminate Hfloat.
  - intros [= H]. f_equal. apply json_string_inj. unfold json_string. by f_equal.
  - destruct (mapM _ l); cbn; [|discriminate]. intros H. discriminate H.
  - destruct (mapM _ d); cbn; [|discriminate]. intros H. discriminate H.
Qed.

(** *** The text of a dictionary *)

Local Abbreviation render :=
  (fun ks : string * string => json_string ks.1 +:+ ": " +:+ ks.2).
Local Abbreviation dict_text items := ("{" +:+ join ", " (render <$> items) +:+ "}").
Local Abbreviation encode_item sort_keys :=
  (fun kv : string * value => s ← json_dumps sort_keys kv.2; Ok (kv.1, s)).

Lemma json_dumps_dict_items (d : dict) s :
  json_dumps true (PDict d) = Ok s ->
  exists items, mapM (encode_item true) d = Ok items /\ s = dict_text (sorted items).
Proof.
  cbn [json_dumps]. destruct (mapM _ d) as [items|e]; cbn; [|discriminate].
  intros [= <-]. eauto.
Qed.

Lemma json_dumps_of_items (d : dict) items :
  mapM (encode_item true) d = Ok items ->
  json_dumps true (PDict d) = Ok (dict_text (sorted items)).
Proof. intros H. cbn [json_dumps]. rewrite H. reflexivity. Qed.

Lemma mapM_outcome_app {A B} (g : A -> outcome B) (l1 l2 : list A) (ys1 ys2 : list B) :
  mapM g l1 = Ok ys1 -> mapM g l2 = Ok ys2 -> mapM g (l1 ++ l2) = Ok (ys1 ++ ys2).
Proof.
  revert ys1. induction l1 as [|x l1 IH]; intros ys1; cbn.
  - intros [= <-]. auto.
  - destruct (g x) as [y|]; cbn; [|discriminate].
    destruct (mapM g l1) as [ys|]; cbn; [|discriminate].
    intros [= <-] H2. rewrite (IH ys eq_refl H2). reflexivity.
Qed.

Lemma mapM_outcome_fmap {A B} (g g' : A -> outcome B) (h : B -> B) (l : list A)
    (ys : list B) :
  (forall x y, g x = Ok y -> g' x = Ok (h y)) ->
  mapM g l = Ok ys -> mapM g' l = Ok (h <$> ys).
Proof.
  intros Hg. revert ys. induction l as [|x l IH]; intros ys; cbn.
  - intros [= <-]. reflexivity.
  - destruct (g x) as [y|] eqn:Hx; cbn; [|discriminate].
    destruct (mapM g l) as [ys'|]; cbn; [|discriminate].
    intros [= <-]. rewrite (Hg x y Hx). cbn. rewrite (IH ys' eq_refl). reflexivity.
Qed.

Lemma mapM_outcome_elem {A B} (g : A -> outcome B) (l : list A) (ys : list B) x :
  mapM g l = Ok ys -> x ∈ l -> exists y, g x = Ok y /\ y ∈ ys.
Proof.
  revert ys. induction l as [|a l IH]; intros ys; cbn; [intros _ H; inversion H|].
  destruct (g a) as [y|] eqn:Ha; cbn; [|discriminate].
  destruct (mapM g l) as [ys'|]; cbn; [|discriminate].
  intros [= <-] [->|Hin]%elem_of_cons.
  - exists y. split; [assumption | by left].
  - destruct (IH ys' eq_refl Hin) as (y' & ? & ?). exists y'. split; [assumption | by right].
Qed.

Lemma encode_item_keys sort_keys (d : dict) items :
  mapM (encode_item sort_keys) d = Ok items -> items.*1 = d.*1.
Proof.
  revert items. induction d as [|x d IH]; intros items; cbn.
  - intros [= <-]. reflexivity.
  - destruct (json_dumps sort_keys x.2) as [s|]; cbn; [|discriminate].
    destruct (mapM _ d) as [ys|]; cbn; [|discriminate].
    intros [= <-]. cbn. f_equal. by apply IH.
Qed.

(** *** Joined texts *)

Lemma join_cons_cons sep (x y : string) l :
  join sep (x :: y :: l) = x +:+ sep +:+ join sep (y :: l).
Proof. reflexivity. Qed.

Lemma join_cons_length sep x l :
  (String.length (join sep (x :: l)) + String.length sep
   = sum_list_with (fun y => String.length y + String.length sep) (x :: l))%nat.
Proof.
  revert x. induction l as [|y l IH]; intros x.
  - cbn. lia.
  - rewrite join_cons_cons. rewrite <- !chars_length, !chars_app, !length_app, !chars_length.
    change (sum_list_with (fun y0 => String.length y0 + String.length sep) (x :: y :: l))%nat
      with (String.length x + String.length sep
            + sum_list_with (fun y0 => String.length y0 + String.length sep) (y :: l))%nat.
    rewrite <- (IH y). lia.
Qed.

Lemma join_app_chars sep l1 x l2 :
  chars (join sep (l1 ++ x :: l2))
  = (l1 ≫= fun y => chars y ++ chars sep) ++ chars (join sep (x :: l2)).
Proof.
  induction l1 as [|y l1 IH]; [reflexivity|].
  change ((y :: l1) ++ x :: l2) with (y :: (l1 ++ x :: l2)).
  destruct (l1 ++ x :: l2) as [|z r] eqn:E; [by destruct l1|].
  rewrite join_cons_cons, !chars_app, IH. cbn. by rewrite <- !app_assoc.
Qed.

Lemma join_cons_chars sep x l :
  chars (join sep (x :: l)) = chars x ++ (l ≫= fun y => chars sep ++ chars y).
Proof.
  revert x. induction l as [|y l IH]; intros x.
  - cbn. by rewrite app_nil_r.
  - rewrite join_cons_cons, !chars_app, IH. cbn. by rewrite <- !app_assoc.
Qed.

(** One more item makes the text longer. *)
Lemma dict_text_added (items items' : list (string * string)) x :
  items' ≡ₚ x :: items -> dict_text items' <> dict_text items.
Proof.
  intros Hp Heq.
  assert (Hlen : String.length (join ", " (render <$> items'))
                 = String.length (join ", " (render <$> items))).
  { apply (f_equal chars) in Heq. rewrite !chars_app in Heq.
    apply app_inv_head, app_inv_tail in Heq.
    by rewrite <- !chars_length, Heq. }
  assert (Hx : (1 <= String.length (render x))%nat).
  { rewrite <- chars_length, !chars_app, !length_app. unfold json_string. cbn. lia. }
  pose proof (fmap_Permutation render _ _ Hp) as Hp'. rewrite fmap_cons in Hp'.
  destruct (render <$> items') as [|y ys] eqn:E'.
  { apply Permutation_nil_l in Hp'. discriminate. }
  pose proof (join_cons_length ", " y ys) as H1.
  assert (Hs : sum_list_with (fun y0 => String.length y0 + String.length ", ")%nat (y :: ys)
               = sum_list_with (fun y0 => String.length y0 + String.length ", ")%nat
                   (render x :: (render <$> items))) by (by rewrite Hp').
  rewrite Hs in H1. clear Hs Hp'.
  destruct (render <$> items) as [|z zs] eqn:E.
  - cbn in H1, Hlen. lia.
  - pose proof (join_cons_length ", " z zs) as H2.
    assert (Hc : forall (f : string -> nat) a l,
               sum_list_with f (a :: l) = (f a + sum_list_with f l)%nat) by reflexivity.
    rewrite Hc, <- H2 in H1. lia.
Qed.

(** The text tells the value of an item. *)
Lemma dict_text_replaced (L1 L2 : list (string * string)) k a b :
  dict_text (L1 ++ (k, a) :: L2) = dict_text (L1 ++ (k, b) :: L2) -> a = b.
Proof.
  intros Heq. apply (f_equal chars) in Heq. rewrite !chars_app in Heq.
  apply app_inv_head, app_inv_tail in Heq.
  rewrite !fmap_app, !fmap_cons, !join_app_chars in Heq.
  apply app_inv_head in Heq.
  rewrite !join_cons_chars in Heq. apply app_inv_tail in Heq.
  cbn [fst snd] in Heq. rewrite !chars_app in Heq.
  do 2 apply app_inv_head in Heq. by apply chars_inj.
Qed.

(** *** Setting a key *)

Lemma dict_get_None k (d : dict) : dict_get k d = None <-> k ∉ d.*1.
Proof.
  induction d as [|[k' v] d IH]; cbn.
  - split; [intros _; apply not_elem_of_nil | reflexivity].
  - rewrite not_elem_of_cons. destruct (decide (k' = k)) as [->|Hne].
    + split; [discriminate | intros [? _]; congruence].
    + rewrite IH. split; [intros ?; split; congruence | intros [_ ?]; assumption].
Qed.

(** Setting a key the dictionary does not have appends an item. *)
Lemma dict_set_absent k v (d : dict) :
  dict_get k d = None -> dict_set k v d = d ++ [(k, v)].
Proof.
  induction d as [|[k' v'] d IH]; cbn; [reflexivity|].
  destruct (decide (k' = k)); [discriminate|]. intros H. by rewrite IH.
Qed.

(** Setting a key the dictionary has replaces its value in place. *)
Lemma dict_set_present k v v0 (d : dict) :
  NoDup d.*1 -> dict_get k d = Some v0 ->
  dict_set k v d = (fun kv => (kv.1, if decide (kv.1 = k) then v else kv.2)) <$> d.
Proof.
  induction d as [|[k' v'] d IH]; cbn; [discriminate|].
  intros [Hk' Hnd]%NoDup_cons. destruct (decide (k' = k)) as [->|Hne].
  - intros _. f_equal.
    clear IH. induction d as [|[k1 v1] d IH]; [reflexivity|].
    cbn in *. apply not_elem_of_cons in Hk' as [Hne Hk'].
    apply NoDup_cons in Hnd as [_ Hnd].
    rewrite decide_False by congruence. f_equal. by apply IH.
  - intros Hget. f_equal. by apply IH.
Qed.

Lemma unique_keys_dict_set k v (d : dict) :
  unique_keys (PDict d) = true -> unique_keys v = true ->
  unique_keys (PDict (dict_set k v d)) = true.
Proof.
  intros [Hnd Hall]%unique_keys_dict Hv.
  cbn [unique_keys]. apply andb_true_intro. split.
  - apply bool_decide_eq_true.
    destruct (dict_get k d) as [v0|] eqn:Hget.
    + rewrite (dict_set_present k v v0 d Hnd Hget), <- list_fmap_compose.
      exact Hnd.
    + rewrite (dict_set_absent k v d Hget), fmap_app.
      apply NoDup_app. split; [exact Hnd|]. split; [|apply NoDup_singleton].
      intros x Hx ->%list_elem_of_singleton. by apply dict_get_None in Hget.
  - apply forallb_forall. intros [k' v'] Hin%list_elem_of_In. cbn.
    apply elem_of_dict_set in Hin as [Hin|[= -> ->]]; [eapply Hall; eassumption | exact Hv].
Qed.

(** The text [json.dumps] writes for a dictionary changes when ["_type"],
    or any key, is set to a string it was not bound to. *)
Lemma json_dumps_dict_set_differs k t (d : dict) s s' :
  NoDup d.*1 ->
  (forall r, dict_get k d = Some (PFloat r) -> String.prefix (str1 dquote) r = false) ->
  dict_get k d <> Some (PStr t) ->
  json_dumps true (PDict d) = Ok s ->
  json_dumps true (PDict (dict_set k (PStr t) d)) = Ok s' ->
  s' <> s.
Proof.
  intros Hnd Hfloat Hne Hs Hs'.
  destruct (json_dumps_dict_items d s Hs) as (items & Hitems & ->).
  assert (Hkeys : NoDup (sorted items).*1).
  { rewrite sorted_perm, (encode_item_keys true d items Hitems). exact Hnd. }
  destruct (dict_get k d) as [v0|] eqn:Hget.
  - (* the value of [k] is replaced *)
    set (f := fun kv : string * value => (kv.1, if decide (kv.1 = k) then PStr t else kv.2)).
    set (f' := fun ks : string * string =>
                 (ks.1, if decide (ks.1 = k) then json_string t else ks.2)).
    rewrite (dict_set_present k (PStr t) v0 d Hnd Hget) in Hs'. fold f in Hs'.
    assert (Hitems' : mapM (encode_item true) (f <$> d) = Ok (f' <$> items)).
    { rewrite mapM_fmap_outcome.
      apply (mapM_outcome_fmap (encode_item true)); [|exact Hitems].
      intros [k1 v1] y. unfold f, f'. cbn [fst snd].
      destruct (json_dumps true v1) as [s1|] eqn:Hv1; cbn; [|discriminate].
      intros [= <-]. cbn [fst snd]. destruct (decide (k1 = k)); [reflexivity|].
      rewrite Hv1. reflexivity. }
    rewrite (json_dumps_of_items _ _ Hitems') in Hs'. injection Hs' as <-.
    rewrite (sorted_fmap f') by reflexivity.
    apply dict_get_elem in Hget; [|exact Hnd].
    destruct (mapM_outcome_elem _ _ _ _ Hitems Hget) as ([k1 s0] & Hv0 & Hin).
    cbn [fst snd] in Hv0.
    destruct (json_dumps true v0) as [s0'|] eqn:Hdump; cbn in Hv0; [|discriminate].
    injection Hv0 as <- <-.
    rewrite <- sorted_perm in Hin.
    apply list_elem_of_split in Hin as (L1 & L2 & HL).
    rewrite HL in Hkeys |- *.
    rewrite fmap_app, fmap_cons in Hkeys. cbn [fst] in Hkeys.
    apply NoDup_app in Hkeys as (_ & Hk1 & [Hk2 _]%NoDup_cons).
    assert (Hid : forall L : list (string * string), k ∉ L.*1 -> f' <$> L = L).
    { induction L as [|[k1 s1] L IH]; [reflexivity|]. cbn.
      intros [Hk HL']%not_elem_of_cons. unfold f' at 1. cbn [fst snd].
      rewrite decide_False by congruence. f_equal. by apply IH. }
    rewrite fmap_app, fmap_cons, (Hid L2 Hk2).
    rewrite (Hid L1) by (intros Hin; apply (Hk1 _ Hin); by left).
    unfold f' at 1. cbn [fst snd]. rewrite decide_True by reflexivity.
    intros Heq. apply dict_text_replaced in Heq.
    apply Hne. f_equal.
    apply (json_dumps_is_string true); [|by rewrite Hdump, Heq].
    intros r ->. by apply Hfloat.
  - (* an item is added *)
    rewrite (dict_set_absent k (PStr t) d Hget) in Hs'.
    assert (Hitems' : mapM (encode_item true) (d ++ [(k, PStr t)])
                      = Ok (items ++ [(k, json_string t)])).
    { by apply mapM_outcome_app. }
    rewrite (json_dumps_of_items _ _ Hitems') in Hs'. injection Hs' as <-.
    apply (dict_text_added _ _ (k, json_string t)).
    rewrite !sorted_perm. by rewrite Permutation_app_comm.
Qed.

(** *** The keys of a put and of a get *)

(** Whether [json.dumps] accepts a value does not depend on [sort_keys]. *)
Lemma json_dumps_ok_flag b b' v s :
  json_dumps b v = Ok s -> exists s', json_dumps b' v = Ok s'.
Proof.
  intros Hs. destruct (json_dumps b' v) as [s'|e] eqn:Hs'; [eauto|].
  rewrite (json_dumps_raise_flag b' b v e Hs') in Hs. discriminate.
Qed.

(** The key of a mapping is the digest of the text [json.dumps] writes
    for it with sorted keys. *)
Lemma generate_cache_key_of_text (d : dict) text :
  unique_keys (PDict d) = true ->
  json_dumps true (PDict d) = Ok text ->
  _generate_cache_key (PDict d)
  = Ok ("cache:" +:+ SHA256.hexdigest (encode_utf8 text)).
Proof.
  intros Hu Ht. unfold _generate_cache_key.
  rewrite json_dumps_sorted_canonical by exact Hu. rewrite Ht. reflexivity.
Qed.

(** C10, as the code has it.  [store_data(p, t)] derives its key from [p]
    with ["_type"] set to [t] when [t] is not empty, and
    [get_cached_data(p, t)] from [p] alone, whatever [t] is.  Each key is
    ["cache:"] followed by the SHA-256 digest of the text [json.dumps]
    writes for the mapping with sorted keys.  The two texts are the same
    exactly when [t] is empty or [p] already maps ["_type"] to [t]; then
    the two calls use the same key and a get right after the put returns
    the entry just written.  In every other case the two texts differ, so
    the keys differ unless SHA-256 collides on them; and whenever the keys
    differ, the get right after the put does not see the entry just
    written: it returns what it would have returned had the put not been
    made, and leaves the new entry untouched. *)
Theorem store_and_get_keys float_add (w : world) (p : dict) (t : string)
    (expiration_arg : option Z) c s :
  enabled (cache_config w) = true -> redis_client w = Some c -> net w = [] ->
  unique_keys (PDict p) = true ->
  json_dumps false (PDict p) = Ok s ->
  (forall r, dict_get "_type" p = Some (PFloat r) -> String.prefix (str1 dquote) r = false) ->
  0 < default (expiration (cache_config w)) expiration_arg ->
  exists text_store text_get,
    json_dumps true (PDict (store_key_input p t)) = Ok text_store
    /\ json_dumps true (PDict p) = Ok text_get
    /\ (t <> EmptyString -> store_key_input p t = dict_set "_type" (PStr t) p)
    /\ let k_store := "cache:" +:+ SHA256.hexdigest (encode_utf8 text_store) in
       let k_get := "cache:" +:+ SHA256.hexdigest (encode_utf8 text_get) in
       let written :=
         Entry (Encoded (cache_entry (PDict p) (clock w) 1))
               (Some (clock w + default (expiration (cache_config w)) expiration_arg)) in
       let w1 := with_entry k_store written w in
       store_data p t expiration_arg w = (Ok (Some k_store), w1)
       /\ (forall t' w', enabled (cache_config w') = true ->
             get_cached_data float_add p t' w' = get_cached_data_by_key float_add k_get w')
       /\ (text_store = text_get
           <-> t = EmptyString \/ dict_get "_type" p = Some (PStr t))
       /\ (text_store = text_get ->
           k_store = k_get
           /\ (get_cached_data float_add p t w1).1 = Ok (cache_entry (PDict p) (clock w) 1))
       /\ (SHA256.hexdigest (encode_utf8 text_store)
           <> SHA256.hexdigest (encode_utf8 text_get) ->
           k_store <> k_get
           /\ get_cached_data float_add p t w1
              = let (r, w') := get_cached_data float_add p t w in
                (r, with_entry k_store written w')).
Proof.
  intros Hon Hc Hn Hu Hs Hfloat Httl.
  destruct (json_dumps_ok_flag false true _ _ Hs) as [text_get Hget].
  assert (Hinput : t <> EmptyString -> store_key_input p t = dict_set "_type" (PStr t) p).
  { intros Hne. unfold store_key_input. by rewrite decide_False. }
  assert (Hu_store : unique_keys (PDict (store_key_input p t)) = true).
  { unfold store_key_input. destruct (decide (t = EmptyString)); [exact Hu|].
    by apply unique_keys_dict_set. }
  assert (Hstore : exists text_store,
             json_dumps true (PDict (store_key_input p t)) = Ok text_store).
  { unfold store_key_input. destruct (decide (t = EmptyString)); [eauto|].
    destruct (json_dumps_dict_set "_type" (PStr t) p s (json_string t) Hs eq_refl)
      as [s' Hs'].
    exact (json_dumps_ok_flag false true _ _ Hs'). }
  destruct Hstore as [text_store Hstore].
  exists text_store, text_get.
  split; [exact Hstore|]. split; [exact Hget|]. split; [exact Hinput|].
  intros k_store k_get written w1.
  pose proof (generate_cache_key_of_text _ _ Hu_store Hstore) as Hks.
  pose proof (generate_cache_key_of_text _ _ Hu Hget) as Hkg.
  fold k_store in Hks. fold k_get in Hkg.
  assert (Hsame : text_store = text_get
                  <-> t = EmptyString \/ dict_get "_type" p = Some (PStr t)).
  { split.
    - intros Heq. destruct (decide (t = EmptyString)) as [|Hne]; [by left | right].
      rewrite (Hinput Hne) in Hstore.
      assert (Hdec : dict_get "_type" p = Some (PStr t)
                     \/ dict_get "_type" p <> Some (PStr t)).
      { destruct (dict_get "_type" p) as [[| | | |s0| | |]|]; try (right; discriminate).
        destruct (decide (s0 = t)) as [->|]; [by left | right; congruence]. }
      destruct Hdec as [|Hdiff]; [assumption|]. exfalso.
      apply unique_keys_dict in Hu as [Hnd _].
      by apply (json_dumps_dict_set_differs "_type" t p text_get text_store).
    - intros Hcase.
      assert (Hp : store_key_input p t = p).
      { unfold store_key_input. destruct (decide (t = EmptyString)); [reflexivity|].
        apply dict_set_same. by destruct Hcase. }
      rewrite Hp in Hstore. congruence. }
  split.
  { erewrite store_data_ok by eassumption. reflexivity. }
  split.
  { intros t' w' Hon'. by apply get_cached_data_key. }
  split; [exact Hsame|]. split.
  - intros Heq. subst k_store k_get. rewrite Heq. split; [reflexivity|].
    rewrite (get_cached_data_key float_add p t w1 _ Hon Hkg).
    subst w1. rewrite Heq.
    erewrite get_live; [reflexivity | try eassumption ..].
    + cbn. apply lookup_insert_eq.
    + cbn. lia.
  - intros Hdigest.
    assert (Hne : k_get <> k_store).
    { subst k_store k_get. intros Heq. apply Hdigest.
      symmetry. by apply (inj (String.app "cache:")) in Heq. }
    split; [congruence|].
    rewrite (get_cached_data_key float_add p t w1 _ Hon Hkg).
    rewrite (get_cached_data_key float_add p t w _ Hon Hkg).
    by apply indifferent_get.
Qed.

Lemma store_and_get_keys_witness :
  let (put, w1) := store_data params_plain "ndvi" None world_on in
  put = Ok (Some key_plain_ndvi)
  /\ key_plain_ndvi <> key_plain
  /\ get_cached_data float_add_any params_plain "ndvi" w1 = (Ok PNone, w1).
Proof.
  destruct (store_and_get_keys float_add_any world_on params_plain "ndvi" None
              redis_url _ eq_refl eq_refl eq_refl eq_refl eq_refl
              ltac:(intros r H; discriminate H) ltac:(reflexivity))
    as (text_store & text_get & Hs & Hg & _ & Hput & _ & _ & _ & Hmiss).
  vm_compute in Hs, Hg. injection Hs as <-. injection Hg as <-.
  rewrite Hput.
  destruct Hmiss as [Hne Hframe]; [vm_compute; discriminate|].
  split; [vm_compute; reflexivity|]. split; [vm_compute; discriminate|].
  rewrite Hframe. vm_compute. reflexivity.
Defined.

(** The claim as the spec words it fails when the parameters already carry
    the type: with [p = {"_type": "ndvi", "region": "X"}] and the non-empty
    [analysis_type] ["ndvi"], the put and the get use the same key, and the
    get right after the put hits the entry just written. *)
Lemma same_key_with_type_in_params :
  exists w1,
    store_data params_typed "ndvi" None world_on = (Ok (Some key_typed), w1)
    /\ _generate_cache_key (PDict params_typed) = Ok key_typed
    /\ (get_cached_data float_add_any params_typed "ndvi" w1).1
       = Ok (cache_entry (PDict params_typed) 1000 1).
Proof.
  eexists. split; [vm_compute; reflexivity|].
  split; vm_compute; reflexivity.
Qed.
